(** * BIDS validator: path grammar, quick test, modality grouping and
      issue aggregation

    A shallow embedding of [utils/type.js] (the path grammar) and of the
    validation driver (the object [BIDS]: [quickTest], [fullTest],
    [formatIssues], [groupModalities], [parseOptions]), with the
    properties the specification states about them.

    JavaScript strings are modelled as lists of 8-bit characters, JavaScript
    arrays as lists, and the regular expressions of [type.js] as terms of a
    small regular-expression language run by a backtracking matcher that
    follows the ECMAScript matching order (greedy quantifiers, leftmost
    alternative first, capture groups, back-references). *)

From Stdlib Require Import List Ascii String Bool Arith ZArith Lia.
From Stdlib Require Import Permutation Sorted DecimalString DecimalNat.
From Stdlib Require DecimalFacts.
Import ListNotations.

Open Scope string_scope.
Open Scope list_scope.
Open Scope nat_scope.

(* ================================================================== *)
(** ** JavaScript strings *)
(* ================================================================== *)

Definition str := list ascii.

Coercion list_ascii_of_string : string >-> list.

Module JsString.

Definition eqb (a b : str) : bool :=
  if list_eq_dec ascii_dec a b then true else false.

(** [w.startsWith(p)] *)
Fixpoint startsWith (p w : str) : bool :=
  match p, w with
  | [], _ => true
  | _ :: _, [] => false
  | a :: p', b :: w' => Ascii.eqb a b && startsWith p' w'
  end.

(** [w.endsWith(p)] *)
Definition endsWith (p w : str) : bool := startsWith (rev p) (rev w).

(** [w.indexOf(p)]: the first offset at which [p] occurs, or -1. *)
Fixpoint indexOf (p w : str) : Z :=
  if startsWith p w then 0%Z
  else match w with
       | [] => (-1)%Z
       | _ :: w' =>
           let i := indexOf p w' in
           if (i <? 0)%Z then (-1)%Z else (i + 1)%Z
       end.

(** [w.includes(p)] *)
Definition includes (p w : str) : bool := (0 <=? indexOf p w)%Z.

(** [w.split(sep)] for a one-character separator: never empty. *)
Fixpoint split (sep : ascii) (w : str) : list str :=
  match w with
  | [] => [[]]
  | a :: w' =>
      if Ascii.eqb a sep then [] :: split sep w'
      else match split sep w' with
           | [] => [[a]]
           | c :: cs => (a :: c) :: cs
           end
  end.

(** The relative index arithmetic of [slice]: a negative index counts
    from the end, and everything is clamped to [0, len]. *)
Definition clampIndex (len i : Z) : nat :=
  Z.to_nat (if (i <? 0)%Z then Z.max (len + i) 0 else Z.min i len).

(** [w.slice(from, to)] *)
Definition slice (from to : Z) (w : str) : str :=
  let len := Z.of_nat (List.length w) in
  let a := clampIndex len from in
  let b := clampIndex len to in
  firstn (b - a) (skipn a w).

(** [w.slice(from)] *)
Definition sliceFrom (from : Z) (w : str) : str :=
  skipn (clampIndex (Z.of_nat (List.length w)) from) w.

(** The JavaScript relational comparison of two strings: lexicographic
    on the character codes. *)
Fixpoint compare (a b : str) : comparison :=
  match a, b with
  | [], [] => Eq
  | [], _ :: _ => Lt
  | _ :: _, [] => Gt
  | x :: a', y :: b' =>
      match Nat.compare (nat_of_ascii x) (nat_of_ascii y) with
      | Eq => compare a' b'
      | c => c
      end
  end.

(** [a > b] *)
Definition gtb (a b : str) : bool :=
  match compare a b with Gt => true | _ => false end.

(** Truthiness of a string: only the empty string is falsy. *)
Definition truthy (w : str) : bool :=
  match w with [] => false | _ :: _ => true end.

End JsString.

(** [occurs p w]: the string [p] occurs in [w] as a contiguous substring. *)
Definition occurs (p w : str) : Prop := exists u v, w = u ++ p ++ v.

(* ================================================================== *)
(** ** Regular expressions *)
(* ================================================================== *)

Module Regex.

(** The character classes used in [type.js]. *)
Inductive cclass : Type :=
| Alnum       (* [a-zA-Z0-9] *)
| Digit       (* [0-9] *)
| AnyChar.    (* .  : any character but a line terminator *)

Definition between (lo hi : nat) (a : ascii) : bool :=
  let n := nat_of_ascii a in (lo <=? n) && (n <=? hi).

Definition in_class (c : cclass) (a : ascii) : bool :=
  match c with
  | Digit => between 48 57 a
  | Alnum => between 97 122 a || between 65 90 a || between 48 57 a
  | AnyChar => negb (Nat.eqb (nat_of_ascii a) 10 || Nat.eqb (nat_of_ascii a) 13)
  end.

(** The fragment of the ECMAScript pattern language that [type.js]
    uses.  Quantifiers [+] and [*] are only ever applied to a single
    character class there, [?] to arbitrary groups. *)
Inductive regex : Type :=
| Bol                              (* ^ *)
| Eol                              (* $ *)
| Lit (w : str)                    (* literal characters *)
| One (c : cclass)                 (* one character of a class *)
| Plus (c : cclass)                (* class+ , greedy *)
| Star (c : cclass)                (* class* , greedy *)
| Seq (r1 r2 : regex)              (* r1 r2 *)
| Alt (r1 r2 : regex)              (* r1|r2 *)
| Opt (r : regex)                  (* (?:r)? , greedy *)
| Group (n : nat) (r : regex)      (* (r), the n-th capture group *)
| Backref (n : nat).               (* \n *)

Declare Scope regex_scope.
Delimit Scope regex_scope with re.
Bind Scope regex_scope with regex.
Infix ";;" := Seq (at level 61, right associativity) : regex_scope.

(** [a|b|c]: alternatives, leftmost first. *)
Fixpoint alts (rs : list regex) : regex :=
  match rs with
  | [] => Lit []
  | [r] => r
  | r :: rs' => Alt r (alts rs')
  end.

(** Matcher state: offset in the subject string, what remains of it, and
    the captures made so far (most recent first). *)
Record mstate : Type := MState {
  pos : nat;
  inp : str;
  caps : list (nat * str)
}.

Fixpoint capture (n : nat) (cs : list (nat * str)) : option str :=
  match cs with
  | [] => None
  | (m, w) :: cs' => if Nat.eqb n m then Some w else capture n cs'
  end.

Fixpoint strip (p w : str) : option str :=
  match p, w with
  | [], _ => Some w
  | _ :: _, [] => None
  | a :: p', b :: w' => if Ascii.eqb a b then strip p' w' else None
  end.

Definition literal (w : str) (s : mstate) (k : mstate -> option mstate)
  : option mstate :=
  match strip w (inp s) with
  | Some rest => k (MState (pos s + List.length w) rest (caps s))
  | None => None
  end.

(** Greedy iteration of a character class: the longest run first, then
    shorter ones on backtracking. *)
Fixpoint starLoop (p : ascii -> bool) (i : nat) (w : str)
         (cs : list (nat * str)) (k : mstate -> option mstate)
  : option mstate :=
  match w with
  | a :: w' =>
      if p a then
        match starLoop p (S i) w' cs k with
        | Some m => Some m
        | None => k (MState i w cs)
        end
      else k (MState i w cs)
  | [] => k (MState i w cs)
  end.

(** The backtracking matcher, in continuation-passing style: [k] is the
    rest of the pattern, and the first success in priority order wins.
    An iteration of [?] that consumes nothing is rejected, as in
    ECMAScript's RepeatMatcher. *)
Fixpoint rmatch (r : regex) (s : mstate) (k : mstate -> option mstate)
  : option mstate :=
  match r with
  | Bol => if Nat.eqb (pos s) 0 then k s else None
  | Eol => match inp s with [] => k s | _ :: _ => None end
  | Lit w => literal w s k
  | One c =>
      match inp s with
      | a :: w' =>
          if in_class c a then k (MState (S (pos s)) w' (caps s)) else None
      | [] => None
      end
  | Plus c =>
      match inp s with
      | a :: w' =>
          if in_class c a
          then starLoop (in_class c) (S (pos s)) w' (caps s) k
          else None
      | [] => None
      end
  | Star c => starLoop (in_class c) (pos s) (inp s) (caps s) k
  | Seq r1 r2 => rmatch r1 s (fun m => rmatch r2 m k)
  | Alt r1 r2 =>
      match rmatch r1 s k with
      | Some m => Some m
      | None => rmatch r2 s k
      end
  | Opt r1 =>
      match rmatch r1 s
              (fun m => if Nat.eqb (pos m) (pos s) then None else k m) with
      | Some m => Some m
      | None => k s
      end
  | Group n r1 =>
      rmatch r1 s
        (fun m => k (MState (pos m) (inp m)
                       ((n, firstn (pos m - pos s) (inp s)) :: caps m)))
  | Backref n =>
      match capture n (caps s) with
      | Some w => literal w s k
      | None => k s
      end
  end.

(** [expression.exec(path)] without the [g] flag: the first offset at
    which the pattern matches.  The result is the final matcher state,
    whose captures are the match array's entries 1, 2, ... *)
Fixpoint searchFrom (r : regex) (i : nat) (w : str) : option mstate :=
  match rmatch r (MState i w []) (fun m => Some m) with
  | Some m => Some m
  | None =>
      match w with
      | [] => None
      | _ :: w' => searchFrom r (S i) w'
      end
  end.

Definition exec (r : regex) (path : str) : option mstate :=
  searchFrom r 0 path.

(** [expression.test(path)] *)
Definition test (r : regex) (path : str) : bool :=
  match exec r path with Some _ => true | None => false end.

(** [match[n]] as a JavaScript condition: set and not empty. *)
Definition truthyCapture (n : nat) (m : mstate) : bool :=
  match capture n (caps m) with
  | Some w => JsString.truthy w
  | None => false
  end.

End Regex.

Import Regex.
Open Scope regex_scope.

(* ================================================================== *)
(** ** utils/type.js *)
(* ================================================================== *)

Module Type_js.

Definition anatSuffixes : list str :=
  map list_ascii_of_string
    ["T1w"; "T2w"; "T1map"; "T2map"; "FLAIR"; "PD"; "PDT2"; "inplaneT1";
     "inplaneT2"; "angio"; "defacemask"; "SWImagandphase"].

(** [suffixes.join("|")] inside a group *)
Definition joinAlt (ws : list str) : regex := alts (map Lit ws).

(** Pieces that every expression of the file spells out again. *)
Definition alnums : regex := Plus Alnum.               (* [a-zA-Z0-9]+ *)
Definition digits : regex := Plus Digit.               (* [0-9]+ *)
Definition acqOpt : regex := Opt (Lit "_acq-" ;; alnums).
Definition recOpt : regex := Opt (Lit "_rec-" ;; alnums).
Definition runOpt : regex := Opt (Lit "_run-" ;; digits).
Definition dot : regex := One AnyChar.                 (* an unescaped . *)

(** [^\/(sub-[a-zA-Z0-9]+)\/(?:(ses-[a-zA-Z0-9]+)\/)?] *)
Definition subjectDir : regex := Group 1 (Lit "sub-" ;; alnums).
Definition sessionDirOpt : regex :=
  Opt (Group 2 (Lit "ses-" ;; alnums) ;; Lit "/").
(** [\1(_\2)?] *)
Definition sessionTokenOpt : regex := Opt (Group 3 (Lit "_" ;; Backref 2)).

(** The function at the bottom of the file. *)
Definition conditionalMatch (expression : regex) (path : str) : bool :=
  match exec expression path with
  | Some m =>
      if (truthyCapture 2 m && truthyCapture 3 m) || negb (truthyCapture 2 m)
      then true
      else false
  | None => false
  end.

(** *** isTopLevel *)

Definition fixedTopLevelNames : list str :=
  map list_ascii_of_string
    ["/README"; "/CHANGES"; "/dataset_description.json"; "/participants.tsv";
     "/phasediff.json"; "/phase1.json"; "/phase2.json"; "/fieldmap.json"].

Definition funcTopRe : regex :=
  Bol ;; Lit "/" ;; Opt (Lit "ses-" ;; alnums ;; Lit "_") ;;
  Lit "task-" ;; alnums ;; acqOpt ;; recOpt ;; runOpt ;;
  Group 1 (alts [Lit "_bold" ;; dot ;; Lit "json";
                 Lit "_events" ;; dot ;; Lit "tsv";
                 Lit "_physio" ;; dot ;; Lit "json";
                 Lit "_stim" ;; dot ;; Lit "json"]) ;;
  Eol.

Definition anatTopRe : regex :=
  Bol ;; Lit "/" ;; Opt (Lit "ses-" ;; alnums ;; Lit "_") ;;
  acqOpt ;; recOpt ;; Opt (Lit "_run-" ;; digits ;; Lit "_") ;;
  Group 1 (joinAlt anatSuffixes) ;; dot ;; Lit "json" ;; Eol.

Definition dwiTopRe : regex :=
  Bol ;; Lit "/" ;; Opt (Lit "ses-" ;; alnums) ;;
  acqOpt ;; recOpt ;; runOpt ;; Opt (Lit "_") ;;
  Lit "dwi" ;; dot ;; alts [Lit "json"; Lit "bval"; Lit "bvec"] ;; Eol.

Definition multiDirFieldmapRe : regex :=
  Bol ;; Lit "/" ;; (Lit "dir-" ;; digits) ;; Lit "_epi" ;; dot ;;
  Lit "json" ;; Eol.

Definition isTopLevel (path : str) : bool :=
  existsb (JsString.eqb path) fixedTopLevelNames
  || test funcTopRe path || test dwiTopRe path
  || test anatTopRe path || test multiDirFieldmapRe path.

(** *** isCodeOrDerivatives, isVersionControl *)

Definition codeOrDerivativesRe : regex :=
  Bol ;; Lit "/" ;; alts [Lit "code"; Lit "derivatives"] ;; Lit "/" ;;
  Star AnyChar ;; Eol.

Definition isCodeOrDerivatives (path : str) : bool :=
  test codeOrDerivativesRe path.

Definition versionControlRe : regex :=
  Bol ;; Lit "/" ;; (Lit "." ;; Lit "git") ;; Lit "/" ;;
  Star AnyChar ;; Eol.

Definition isVersionControl (path : str) : bool :=
  test versionControlRe path.

(** *** isSessionLevel *)

Definition scansRe : regex :=
  Bol ;; Lit "/" ;; subjectDir ;; Lit "/" ;; sessionDirOpt ;;
    Backref 1 ;; sessionTokenOpt ;;
  (Lit "_scans" ;; dot ;; Lit "tsv") ;; Eol.

Definition funcSesRe : regex :=
  Bol ;; Lit "/" ;; subjectDir ;; Lit "/" ;; sessionDirOpt ;;
    Backref 1 ;; sessionTokenOpt ;;
  (Lit "task-" ;; alnums ;; acqOpt ;; recOpt ;; runOpt ;;
   Group 4 (alts [Lit "_bold" ;; dot ;; Lit "json";
                  Lit "_events" ;; dot ;; Lit "tsv";
                  Lit "_physio" ;; dot ;; Lit "json";
                  Lit "_stim" ;; dot ;; Lit "json"])) ;;
  Eol.

Definition anatSesRe : regex :=
  Bol ;; Lit "/" ;; subjectDir ;; Lit "/" ;; sessionDirOpt ;;
    Backref 1 ;; sessionTokenOpt ;;
  (acqOpt ;; recOpt ;; Opt (Lit "_run-" ;; digits ;; Lit "_") ;;
   Group 4 (joinAlt anatSuffixes) ;; dot ;; Lit "json") ;;
  Eol.

Definition dwiSesRe : regex :=
  Bol ;; Lit "/" ;; subjectDir ;; Lit "/" ;; sessionDirOpt ;;
    Backref 1 ;; sessionTokenOpt ;;
  (acqOpt ;; recOpt ;; runOpt ;; Opt (Lit "_") ;;
   Lit "dwi" ;; dot ;; alts [Lit "json"; Lit "bval"; Lit "bvec"]) ;;
  Eol.

Definition isSessionLevel (path : str) : bool :=
  conditionalMatch scansRe path || conditionalMatch funcSesRe path
  || conditionalMatch anatSesRe path || conditionalMatch dwiSesRe path.

(** *** isSubjectLevel *)

Definition sessionsRe : regex :=
  Bol ;; Lit "/" ;; subjectDir ;; Lit "/" ;; Backref 1 ;;
  Lit "_sessions" ;; dot ;; Lit "tsv" ;; Eol.

Definition isSubjectLevel (path : str) : bool := test sessionsRe path.

(** *** isAnat *)

Definition anatRe : regex :=
  Bol ;; Lit "/" ;; subjectDir ;; Lit "/" ;; sessionDirOpt ;;
  (Lit "anat" ;; Lit "/") ;;
  Backref 1 ;; sessionTokenOpt ;;
  (acqOpt ;; recOpt ;; runOpt ;; Lit "_" ;; joinAlt anatSuffixes ;; dot ;;
   Group 4 (alts [Lit "nii" ;; dot ;; Lit "gz"; Lit "nii"; Lit "json"])) ;;
  Eol.

Definition isAnat (path : str) : bool := conditionalMatch anatRe path.

(** *** isDWI *)

Definition dwiSuffixes : list str :=
  map list_ascii_of_string ["dwi"; "sbref"].

Definition dwiRe : regex :=
  Bol ;; Lit "/" ;; subjectDir ;; Lit "/" ;; sessionDirOpt ;;
  (Lit "dwi" ;; Lit "/") ;;
  Backref 1 ;; sessionTokenOpt ;;
  (acqOpt ;; recOpt ;; runOpt ;; Lit "_" ;; joinAlt dwiSuffixes ;; dot ;;
   Group 4 (alts [Lit "nii" ;; dot ;; Lit "gz"; Lit "nii"; Lit "json";
                  Lit "bvec"; Lit "bval"])) ;;
  Eol.

Definition isDWI (path : str) : bool := conditionalMatch dwiRe path.

(** *** isFieldMap *)

Definition fmapSuffixes : list str :=
  map list_ascii_of_string
    ["phasediff"; "phase1"; "phase2"; "magnitude1"; "magnitude2";
     "fieldmap"; "epi"].

Definition fmapRe : regex :=
  Bol ;; Lit "/" ;; subjectDir ;; Lit "/" ;; sessionDirOpt ;;
  (Lit "fmap" ;; Lit "/") ;;
  Backref 1 ;; sessionTokenOpt ;;
  (acqOpt ;; recOpt ;; Opt (Lit "_dir-" ;; digits) ;; runOpt ;; Lit "_" ;;
   joinAlt fmapSuffixes ;; dot ;;
   Group 4 (alts [Lit "nii" ;; dot ;; Lit "gz"; Lit "nii"; Lit "json"])) ;;
  Eol.

Definition isFieldMap (path : str) : bool := conditionalMatch fmapRe path.

(** *** isFunc *)

Definition funcRe : regex :=
  Bol ;; Lit "/" ;; subjectDir ;; Lit "/" ;; sessionDirOpt ;;
  (Lit "func" ;; Lit "/") ;;
  Backref 1 ;; sessionTokenOpt ;;
  (Lit "_task-" ;; alnums ;; acqOpt ;; recOpt ;; runOpt ;;
   alts [Lit "_bold" ;; dot ;; Lit "nii" ;; dot ;; Lit "gz";
         Lit "_bold" ;; dot ;; Lit "nii";
         Lit "_bold" ;; dot ;; Lit "json";
         Lit "_sbref" ;; dot ;; Lit "nii" ;; dot ;; Lit "gz";
         Lit "_sbref" ;; dot ;; Lit "json";
         Lit "_events" ;; dot ;; Lit "tsv";
         Lit "_physio" ;; dot ;; Lit "tsv" ;; dot ;; Lit "gz";
         Lit "_stim" ;; dot ;; Lit "tsv" ;; dot ;; Lit "gz";
         Lit "_physio" ;; dot ;; Lit "json";
         Lit "_stim" ;; dot ;; Lit "json"]) ;;
  Eol.

Definition isFunc (path : str) : bool := conditionalMatch funcRe path.

(** *** isBehavioral *)

Definition behRe : regex :=
  Bol ;; Lit "/" ;; subjectDir ;; Lit "/" ;; sessionDirOpt ;;
  (Lit "beh" ;; Lit "/") ;;
  Backref 1 ;; sessionTokenOpt ;;
  (Lit "_task-" ;; alnums ;; acqOpt ;; recOpt ;; runOpt ;;
   alts [Lit "_beh" ;; dot ;; Lit "json";
         Lit "_events" ;; dot ;; Lit "tsv";
         Lit "_physio" ;; dot ;; Lit "tsv" ;; dot ;; Lit "gz";
         Lit "_stim" ;; dot ;; Lit "tsv" ;; dot ;; Lit "gz";
         Lit "_physio" ;; dot ;; Lit "json";
         Lit "_stim" ;; dot ;; Lit "json"]) ;;
  Eol.

Definition isBehavioral (path : str) : bool := conditionalMatch behRe path.

(** *** isFuncBold *)

Definition funcBoldRe : regex :=
  Bol ;; Lit "/" ;; subjectDir ;; Lit "/" ;; sessionDirOpt ;;
  (Lit "func" ;; Lit "/") ;;
  Backref 1 ;; sessionTokenOpt ;;
  (Lit "_task-" ;; alnums ;; acqOpt ;; recOpt ;; runOpt ;;
   alts [Lit "_bold" ;; dot ;; Lit "nii" ;; dot ;; Lit "gz";
         Lit "_bold" ;; dot ;; Lit "nii";
         Lit "_sbref" ;; dot ;; Lit "nii" ;; dot ;; Lit "gz";
         Lit "_sbref" ;; dot ;; Lit "nii"]) ;;
  Eol.

Definition isFuncBold (path : str) : bool := conditionalMatch funcBoldRe path.

(** *** isCont *)

Definition contRe : regex :=
  Bol ;; Lit "/" ;; subjectDir ;; Lit "/" ;; sessionDirOpt ;;
  (alts [Lit "func"; Lit "beh"] ;; Lit "/") ;;
  Backref 1 ;; sessionTokenOpt ;;
  (Lit "_task-" ;; alnums ;; acqOpt ;; recOpt ;; runOpt ;;
   Opt (Lit "_recording-" ;; alnums) ;;
   alts [Lit "_physio" ;; dot ;; Lit "tsv" ;; dot ;; Lit "gz";
         Lit "_stim" ;; dot ;; Lit "tsv" ;; dot ;; Lit "gz";
         Lit "_physio" ;; dot ;; Lit "json";
         Lit "_stim" ;; dot ;; Lit "json"]) ;;
  Eol.

Definition isCont (path : str) : bool := conditionalMatch contRe path.

(** *** isBIDS *)

Definition isBIDS (path : str) : bool :=
  isTopLevel path
  || isCodeOrDerivatives path
  || isSessionLevel path
  || isSubjectLevel path
  || isAnat path
  || isDWI path
  || isFunc path
  || isBehavioral path
  || isCont path
  || isFieldMap path
  || isVersionControl path.

End Type_js.

Import Type_js.

(* ================================================================== *)
(** ** JavaScript arrays of strings *)
(* ================================================================== *)

Module JsArray.

(** [arr.indexOf(x)] with strict equality: first index, or -1. *)
Fixpoint indexOf (x : str) (arr : list str) : Z :=
  match arr with
  | [] => (-1)%Z
  | y :: arr' =>
      if JsString.eqb y x then 0%Z
      else let i := indexOf x arr' in
           if (i <? 0)%Z then (-1)%Z else (i + 1)%Z
  end.

Fixpoint removeAt (n : nat) (arr : list str) : list str :=
  match n, arr with
  | _, [] => []
  | O, _ :: arr' => arr'
  | S n', y :: arr' => y :: removeAt n' arr'
  end.

(** [arr.splice(start, 1)]: a negative [start] counts from the end (so
    that -1 removes the last element), a [start] past the end removes
    nothing. *)
Definition splice1 (start : Z) (arr : list str) : list str :=
  let len := Z.of_nat (List.length arr) in
  let from := if (start <? 0)%Z then Z.max (len + start) 0
              else Z.min start len in
  removeAt (Z.to_nat from) arr.

(** [if (arr.indexOf(x) === -1) arr.push(x)] *)
Definition pushUnique (x : str) (arr : list str) : list str :=
  if (indexOf x arr =? -1)%Z then arr ++ [x] else arr.

End JsArray.

(* ================================================================== *)
(** ** The validation driver *)
(* ================================================================== *)

(** A file of the enumerated list.  [relativePath] is what
    [utils.files.relativePath(file)] returns for it. *)
Record File : Type := mkFile {
  name : str;
  relativePath : str;
  fileSize : nat
}.

(** [new utils.Issue({file, evidence, code})] *)
Record Issue : Type := mkIssue {
  code : nat;
  file : File;
  evidence : str
}.

(** An entry of the static table [utils.issues]. *)
Record IssueMeta : Type := mkMeta {
  metaSeverity : str;
  metaReason : str
}.

(** An entry of the table once [formatIssues] has attached [files] and
    overwritten [code] with the property key. *)
Record IssueGroup : Type := mkGroup {
  gcode : str;
  severity : str;
  reason : str;
  files : list Issue
}.

Record Summary : Type := mkSummary {
  sessions : list str;
  subjects : list str;
  tasks : list str;
  modalities : list str;
  totalFiles : nat;
  size : nat
}.

Record Options : Type := mkOptions {
  ignoreWarnings : bool;
  ignoreNiftiHeaders : bool
}.

(** The few JavaScript values an option may hold, with their truthiness. *)
Inductive jsval : Type :=
| JsUndefined
| JsNull
| JsBool (b : bool)
| JsNumber (z : Z)
| JsStr (w : str)
| JsObject.

Definition truthy (v : jsval) : bool :=
  match v with
  | JsUndefined | JsNull => false
  | JsBool b => b
  | JsNumber z => negb (z =? 0)%Z
  | JsStr w => JsString.truthy w
  | JsObject => true
  end.

Record RawOptions : Type := mkRawOptions {
  rawIgnoreWarnings : jsval;
  rawIgnoreNiftiHeaders : jsval
}.

(** *** parseOptions *)

Definition parseOptions (options : RawOptions) : Options :=
  {| ignoreWarnings := if truthy (rawIgnoreWarnings options) then true else false;
     ignoreNiftiHeaders :=
       if truthy (rawIgnoreNiftiHeaders options) then true else false |}.

(** *** quickTest *)

Definition strIs (lit : str) (v : option str) : bool :=
  match v with Some w => JsString.eqb w lit | None => false end.

(** [v && v.indexOf(prefix) == 0] for a possibly undefined array entry *)
Definition startsAt0 (prefix : str) (v : option str) : bool :=
  match v with
  | Some w => JsString.truthy w && (JsString.indexOf prefix w =? 0)%Z
  | None => false
  end.

(** The body of the loop of [quickTest] for one file: [true] when it sets
    [couldBeBIDS] and breaks. *)
Definition quickTestFile (f : File) : bool :=
  let path := relativePath f in
  if JsString.truthy path then
    let parts := JsString.split "/" path in
    if strIs "derivatives" (nth_error parts 1) then false
    else
      let parts := rev parts in
      match nth_error parts 0 with
      | Some p0 =>
          JsString.includes ".nii" p0
          && (strIs "anat" (nth_error parts 1)
              || strIs "func" (nth_error parts 1)
              || strIs "dwi" (nth_error parts 1))
          && (startsAt0 "ses-" (nth_error parts 2)
              || startsAt0 "sub-" (nth_error parts 2))
      | None => false
      end
  else false.

Fixpoint quickTest (fileList : list File) : bool :=
  match fileList with
  | [] => false
  | f :: rest => if quickTestFile f then true else quickTest rest
  end.

(** *** groupModalities *)

Definition modalityGroups : list (list str * str) :=
  [ (map list_ascii_of_string ["magnitude1"; "magnitude2"; "phase1"; "phase2"],
     "fieldmap" : str);
    (map list_ascii_of_string ["magnitude1"; "magnitude2"; "phasediff"],
     "fieldmap" : str);
    (map list_ascii_of_string ["magnitude"; "fieldmap"], "fieldmap" : str);
    (map list_ascii_of_string ["epi"], "fieldmap" : str) ].

(** The inner loop that computes [match]. *)
Definition groupMatches (groupSet : list str) (modalities : list str) : bool :=
  fold_left
    (fun (m : bool) (t : str) =>
       if (JsArray.indexOf t modalities =? -1)%Z then false else m)
    groupSet true.

(** The body of the outer loop for one (set, name) pair. *)
Definition groupStep (modalities : list str) (g : list str * str) : list str :=
  let (groupSet, groupName) := g in
  if groupMatches groupSet modalities then
    fold_left
      (fun (ms : list str) (t : str) => JsArray.splice1 (JsArray.indexOf t ms) ms)
      groupSet (modalities ++ [groupName])
  else modalities.

Definition groupModalities (modalities : list str) : list str :=
  fold_left groupStep modalityGroups modalities.

(** *** formatIssues *)

(** The property key of a numeric issue code. *)
Definition keyOf (c : nat) : str :=
  list_ascii_of_string (NilZero.string_of_uint (Nat.to_uint c)).

(** The comparator handed to [sort]. *)
Definition compareFiles (a b : Issue) : Z :=
  if JsString.gtb (relativePath (file a)) (relativePath (file b)) then 1%Z
  else if JsString.gtb (relativePath (file b)) (relativePath (file a))
       then (-1)%Z
       else 0%Z.

(** [arr.sort(cmp)], a stable sort: an element goes before the first one
    it does not compare greater than. *)
Fixpoint sortInsert (cmp : Issue -> Issue -> Z) (x : Issue) (l : list Issue)
  : list Issue :=
  match l with
  | [] => [x]
  | y :: l' => if (cmp x y <=? 0)%Z then x :: l else y :: sortInsert cmp x l'
  end.

Definition jsSort (cmp : Issue -> Issue -> Z) (l : list Issue) : list Issue :=
  fold_right (sortInsert cmp) [] l.

(** The external collaborators of the driver: the static issue table and
    the content validators, none of which is part of the unit. *)
Class Collaborators : Type := {
  JsonObject : Type;
  Header : Type;
  issuesTable : nat -> option IssueMeta;             (* utils.issues *)
  readFile : File -> str;                            (* utils.files.readFile *)
  readNiftiHeader : File -> Header + Issue;          (* utils.files.readNiftiHeader *)
  TaskName : JsonObject -> option str;
  TSV : File -> str -> bool -> list Issue;
  json : File -> str -> list Issue * option JsonObject;
  bval : File -> str -> list Issue;
  bvec : File -> str -> list Issue;
  NIFTI : option Header -> File -> list (str * option JsonObject) ->
          list (str * str) -> list File -> list str -> list Issue;
  headerFields : list (File * Header) -> list Issue;
  session : list File -> list Issue
}.

(** Which collaborator was called on which file. *)
Inductive Call : Type :=
| CallReadFile (f : File)
| CallTSV (f : File)
| CallJson (f : File)
| CallBval (f : File)
| CallBvec (f : File)
| CallReadNiftiHeader (f : File)
| CallNIFTI (f : File).

Section Driver.

Context `{Collaborators}.

(** The object [categorized], as the list of its properties in the order
    in which [for (key in categorized)] enumerates them.  Its keys are
    issue codes.  A JavaScript object enumerates the keys that are array
    indices, the integers below 2^32 - 1, first and in ascending numeric
    order, and its other keys after them, in the order in which they
    were created. *)
Definition Categorized : Type := list (nat * IssueGroup).

Definition isArrayIndex (c : nat) : bool := (Z.of_nat c <? 4294967295)%Z.

(** Whether the new key [c] is enumerated before the existing key [k]. *)
Definition enumeratedBefore (c k : nat) : bool :=
  isArrayIndex c && (negb (isArrayIndex k) || (c <? k)).

Definition newGroup (c : nat) (i : Issue) : option (nat * IssueGroup) :=
  match issuesTable c with
  | Some meta =>
      Some (c, {| gcode := keyOf c; severity := metaSeverity meta;
                  reason := metaReason meta; files := [i] |})
  | None => None    (* categorized[code] is undefined: TypeError *)
  end.

Definition pushFile (g : IssueGroup) (i : Issue) : IssueGroup :=
  {| gcode := gcode g; severity := severity g; reason := reason g;
     files := files g ++ [i] |}.

(** One iteration of the first loop. *)
Fixpoint categorize1 (i : Issue) (cat : Categorized) : option Categorized :=
  match cat with
  | [] => option_map (fun e => [e]) (newGroup (code i) i)
  | (k, g) :: rest =>
      if code i =? k then Some ((k, pushFile g i) :: rest)
      else if enumeratedBefore (code i) k then
             option_map (fun e => e :: cat) (newGroup (code i) i)
           else option_map (cons (k, g)) (categorize1 i rest)
  end.

Fixpoint categorize (issues : list Issue) (cat : Categorized)
  : option Categorized :=
  match issues with
  | [] => Some cat
  | i :: rest =>
      match categorize1 i cat with
      | Some cat' => categorize rest cat'
      | None => None
      end
  end.

Definition sortedGroup (g : IssueGroup) : IssueGroup :=
  {| gcode := gcode g; severity := severity g; reason := reason g;
     files := jsSort compareFiles (files g) |}.

(** The second loop: sort each group and split by severity. *)
Fixpoint bySeverity (options : Options) (cat : Categorized)
         (errors warnings : list IssueGroup)
  : list IssueGroup * list IssueGroup :=
  match cat with
  | [] => (errors, warnings)
  | (_, g) :: rest =>
      let issue := sortedGroup g in
      if JsString.eqb (severity issue) "error"
      then bySeverity options rest (errors ++ [issue]) warnings
      else if JsString.eqb (severity issue) "warning"
              && negb (ignoreWarnings options)
           then bySeverity options rest errors (warnings ++ [issue])
           else bySeverity options rest errors warnings
  end.

(** [formatIssues]: (errors, warnings), or [None] when it throws. *)
Definition formatIssues (options : Options) (issues : list Issue)
  : option (list IssueGroup * list IssueGroup) :=
  match categorize issues [] with
  | Some cat => Some (bySeverity options cat [] [])
  | None => None
  end.

(** *** fullTest: the final callback *)

Definition fieldmapRelatedCodes : list str :=
  map list_ascii_of_string ["6"; "7"; "8"; "9"].

Definition filterWarnings (warnings : list IssueGroup) : list IssueGroup :=
  filter (fun w => (JsArray.indexOf (gcode w) fieldmapRelatedCodes <? 0)%Z)
         warnings.

Definition withModalities (s : Summary) (ms : list str) : Summary :=
  {| sessions := sessions s; subjects := subjects s; tasks := tasks s;
     modalities := ms; totalFiles := totalFiles s; size := size s |}.

(** What the last callback of [fullTest] does with the accumulated
    issues and summary: the arguments of [callback]. *)
Definition finish (options : Options) (issues : list Issue) (summary : Summary)
  : option (list IssueGroup * list IssueGroup * Summary) :=
  match formatIssues options issues with
  | Some (errors, warnings) =>
      let summary' := withModalities summary
                        (groupModalities (modalities summary)) in
      if (JsArray.indexOf "fieldmap" (modalities summary') <? 0)%Z
      then Some (errors, filterWarnings warnings, summary')
      else Some (errors, warnings, summary')
  | None => None
  end.

(** *** fullTest: the first pass over the files *)

(** The state the callbacks of [fullTest] share, and the log of the
    collaborators they called. *)
Record Ctx : Type := mkCtx {
  issues : list Issue;
  jsonContentsDict : list (str * option JsonObject);
  bContentsDict : list (str * str);
  events : list str;
  niftis : list File;
  headers : list (File * Header);
  summary : Summary;
  calls : list Call
}.

Definition initialCtx (fileList : list File) : Ctx :=
  {| issues := []; jsonContentsDict := []; bContentsDict := [];
     events := []; niftis := []; headers := [];
     summary := {| sessions := []; subjects := []; tasks := [];
                   modalities := []; totalFiles := List.length fileList;
                   size := 0 |};
     calls := [] |}.

(** The label that the loop over [checks] extracts for one key. *)
Definition extractLabel (checkKey path : str) : option str :=
  if JsString.truthy path
     && (-1 <? JsString.indexOf (checkKey ++ "-") path)%Z
  then
    let item := JsString.sliceFrom (JsString.indexOf (checkKey ++ "-") path) path in
    let item := JsString.slice 0 (JsString.indexOf "/" item) item in
    let item := if (-1 <? JsString.indexOf "_" item)%Z
                then JsString.slice 0 (JsString.indexOf "_" item) item
                else item in
    Some (JsString.sliceFrom (Z.of_nat (List.length checkKey) + 1) item)
  else None.

Definition collectLabel (checkKey path : str) (arr : list str) : list str :=
  match extractLabel checkKey path with
  | Some item => JsArray.pushUnique item arr
  | None => arr
  end.

(** The suffix that names the modality of an image. *)
Definition modalitySuffix (path : str) : str :=
  let suffix := last (JsString.split "_" path) [] in
  JsString.slice 0 (JsString.indexOf "." suffix) suffix.

Definition collectStats (f : File) (s : Summary) : Summary :=
  {| sessions := collectLabel "ses" (relativePath f) (sessions s);
     subjects := collectLabel "sub" (relativePath f) (subjects s);
     tasks := tasks s; modalities := modalities s;
     totalFiles := totalFiles s; size := size s + fileSize f |}.

Definition withSummary (c : Ctx) (s : Summary) : Ctx :=
  {| issues := issues c; jsonContentsDict := jsonContentsDict c;
     bContentsDict := bContentsDict c; events := events c;
     niftis := niftis c; headers := headers c; summary := s;
     calls := calls c |}.

Definition pushIssues (c : Ctx) (l : list Issue) : Ctx :=
  {| issues := issues c ++ l; jsonContentsDict := jsonContentsDict c;
     bContentsDict := bContentsDict c; events := events c;
     niftis := niftis c; headers := headers c; summary := summary c;
     calls := calls c |}.

Definition logCalls (c : Ctx) (l : list Call) : Ctx :=
  {| issues := issues c; jsonContentsDict := jsonContentsDict c;
     bContentsDict := bContentsDict c; events := events c;
     niftis := niftis c; headers := headers c; summary := summary c;
     calls := calls c ++ l |}.

Definition pushNifti (c : Ctx) (f : File) : Ctx :=
  {| issues := issues c; jsonContentsDict := jsonContentsDict c;
     bContentsDict := bContentsDict c; events := events c;
     niftis := niftis c ++ [f]; headers := headers c;
     summary := withModalities (summary c)
                  (JsArray.pushUnique (modalitySuffix (relativePath f))
                     (modalities (summary c)));
     calls := calls c |}.

Definition pushEvent (c : Ctx) (path : str) : Ctx :=
  {| issues := issues c; jsonContentsDict := jsonContentsDict c;
     bContentsDict := bContentsDict c; events := events c ++ [path];
     niftis := niftis c; headers := headers c; summary := summary c;
     calls := calls c |}.

Definition setBContents (c : Ctx) (path contents : str) : Ctx :=
  {| issues := issues c; jsonContentsDict := jsonContentsDict c;
     bContentsDict := (path, contents) :: bContentsDict c;
     events := events c; niftis := niftis c; headers := headers c;
     summary := summary c; calls := calls c |}.

Definition setJsonContents (c : Ctx) (path : str) (o : option JsonObject)
  : Ctx :=
  {| issues := issues c;
     jsonContentsDict := (path, o) :: jsonContentsDict c;
     bContentsDict := bContentsDict c;
     events := events c; niftis := niftis c; headers := headers c;
     summary := summary c; calls := calls c |}.

Definition collectTask (f : File) (o : option JsonObject) (s : Summary)
  : Summary :=
  if (-1 <? JsString.indexOf "task" (name f))%Z then
    match o with
    | Some obj =>
        match TaskName obj with
        | Some task =>
            if JsString.truthy task
            then {| sessions := sessions s; subjects := subjects s;
                    tasks := JsArray.pushUnique task (tasks s);
                    modalities := modalities s;
                    totalFiles := totalFiles s; size := size s |}
            else s
        | None => s
        end
    | None => s
    end
  else s.

Definition hasExt (ext : str) (f : File) : bool :=
  JsString.truthy (name f) && JsString.endsWith ext (name f).

(** The iteratee of the first [async.forEachOf], for one file, with the
    callbacks of its reads and validators run in place. *)
Definition validateFile (f : File) (c : Ctx) : Ctx :=
  let c := withSummary c (collectStats f (summary c)) in
  if negb (isBIDS (relativePath f)) then
    pushIssues c [ {| code := 1; file := f; evidence := name f |} ]
  else if JsString.endsWith ".nii" (name f)
          || JsString.endsWith ".nii.gz" (name f) then
    pushNifti c f
  else if hasExt ".tsv" f then
    let contents := readFile f in
    let isEvents := JsString.endsWith "_events.tsv" (name f) in
    let c := if isEvents then pushEvent c (relativePath f) else c in
    pushIssues (logCalls c [CallReadFile f; CallTSV f])
               (TSV f contents isEvents)
  else if hasExt ".bvec" f then
    let contents := readFile f in
    pushIssues
      (logCalls (setBContents c (relativePath f) contents)
                [CallReadFile f; CallBvec f])
      (bvec f contents)
  else if hasExt ".bval" f then
    let contents := readFile f in
    pushIssues
      (logCalls (setBContents c (relativePath f) contents)
                [CallReadFile f; CallBval f])
      (bval f contents)
  else if hasExt ".json" f then
    let contents := readFile f in
    let (found, jsObj) := json f contents in
    let c := pushIssues (logCalls c [CallReadFile f; CallJson f]) found in
    let c := setJsonContents c (relativePath f) jsObj in
    withSummary c (collectTask f jsObj (summary c))
  else c.

Definition phase1 (fileList : list File) (c : Ctx) : Ctx :=
  fold_left (fun c f => validateFile f c) fileList c.

(** *** fullTest: the second pass, over the images *)

Definition pushHeader (c : Ctx) (f : File) (h : Header) : Ctx :=
  {| issues := issues c; jsonContentsDict := jsonContentsDict c;
     bContentsDict := bContentsDict c; events := events c;
     niftis := niftis c; headers := headers c ++ [(f, h)];
     summary := summary c; calls := calls c |}.

Definition validateNifti (options : Options) (fileList : list File)
           (f : File) (c : Ctx) : Ctx :=
  if ignoreNiftiHeaders options then
    pushIssues (logCalls c [CallNIFTI f])
      (NIFTI None f (jsonContentsDict c) (bContentsDict c) fileList (events c))
  else
    match readNiftiHeader f with
    | inr error => pushIssues (logCalls c [CallReadNiftiHeader f]) [error]
    | inl header =>
        pushIssues
          (logCalls (pushHeader c f header) [CallReadNiftiHeader f; CallNIFTI f])
          (NIFTI (Some header) f (jsonContentsDict c) (bContentsDict c)
                 fileList (events c))
    end.

Definition phase2 (options : Options) (fileList : list File) (c : Ctx) : Ctx :=
  let c := fold_left (fun c f => validateNifti options fileList f c)
                     (niftis c) c in
  let c := pushIssues c (headerFields (headers c)) in
  pushIssues c (session fileList).

Definition fullTest (options : Options) (fileList : list File)
  : option (list IssueGroup * list IssueGroup * Summary) :=
  let c := phase2 options fileList (phase1 fileList (initialCtx fileList)) in
  finish options (issues c) (summary c).

(** *** start *)

Inductive Outcome : Type :=
| Invalid                                   (* callback('Invalid') *)
| Validated (r : list IssueGroup * list IssueGroup * Summary)
| Thrown.

Definition start (options : option RawOptions) (fileList : list File)
  : Outcome :=
  let options :=
    match options with
    | Some o => parseOptions o
    | None => {| ignoreWarnings := false; ignoreNiftiHeaders := false |}
    end in
  if quickTest fileList then
    match fullTest options fileList with
    | Some r => Validated r
    | None => Thrown
    end
  else Invalid.

End Driver.

(* ================================================================== *)
(** ** Notions used to state the properties *)
(* ================================================================== *)

(** The working modality list after the first [n] grouping rules. *)
Definition working (ms : list str) (n : nat) : list str :=
  fold_left groupStep (firstn n modalityGroups) ms.

(** A rule fires on a working list when each of its tokens is in it. *)
Definition fires (g : list str * str) (w : list str) : Prop :=
  forall t, In t (fst g) -> In t w.

Definition str_eq_dec : forall a b : str, {a = b} + {a <> b} :=
  list_eq_dec ascii_dec.

(** Issues ordered by the relative path of their file. *)
Definition pathLe (a b : Issue) : Prop :=
  JsString.compare (relativePath (file a)) (relativePath (file b)) <> Gt.

Definition hasCode (k : nat) (i : Issue) : bool := code i =? k.

(** The issues on the file of relative path [p]. *)
Definition onPath (p : str) (i : Issue) : bool :=
  JsString.eqb (relativePath (file i)) p.

(** The key [a] may be enumerated before the key [b]: they differ, and
    an array index follows smaller array indices only. *)
Definition keyBefore (a b : nat) : Prop :=
  a <> b /\ (isArrayIndex b = true -> a < b).

Section Notions.

Context `{Collaborators}.

(** The group of code [k] over an issue list: the table entry, keyed,
    with the issues of that code in the order they were appended. *)
Definition groupOf (k : nat) (meta : IssueMeta) (l : list Issue) : IssueGroup :=
  {| gcode := keyOf k; severity := metaSeverity meta;
     reason := metaReason meta; files := filter (hasCode k) l |}.

Definition entryOK (l : list Issue) (e : nat * IssueGroup) : Prop :=
  exists meta, issuesTable (fst e) = Some meta
               /\ snd e = groupOf (fst e) meta l.

(** [cat] is the categorization of the issue list [l]. *)
Definition catInv (l : list Issue) (cat : Categorized) : Prop :=
  StronglySorted keyBefore (map fst cat)
  /\ Forall (entryOK l) cat
  /\ (forall k, In k (map fst cat) <-> exists i, In i l /\ code i = k).

Definition isError (g : IssueGroup) : bool :=
  JsString.eqb (severity g) "error".

Definition isWarning (g : IssueGroup) : bool :=
  JsString.eqb (severity g) "warning".

Definition sortedGroups (cat : Categorized) : list IssueGroup :=
  map (fun e => sortedGroup (snd e)) cat.

End Notions.

(** A small issue table and collaborators that find nothing, for the
    concrete scenarios. *)
Definition sampleTable (c : nat) : option IssueMeta :=
  match c with
  | 1 => Some {| metaSeverity := "error"; metaReason := "invalid path" |}
  | 6 | 7 | 8 | 9 =>
      Some {| metaSeverity := "warning"; metaReason := "fieldmap related" |}
  | 99 => Some {| metaSeverity := "ignore"; metaReason := "not reported" |}
  | _ => None
  end.

Definition sampleCollaborators : Collaborators :=
  {| JsonObject := unit;
     Header := unit;
     issuesTable := sampleTable;
     readFile := fun _ => [];
     readNiftiHeader := fun _ => inl tt;
     TaskName := fun _ => None;
     TSV := fun _ _ _ => [];
     json := fun _ _ => ([], None);
     bval := fun _ _ => [];
     bvec := fun _ _ => [];
     NIFTI := fun _ _ _ _ _ _ => [];
     headerFields := fun _ => [];
     session := fun _ => [] |}.

Definition sampleFile (path : str) : File :=
  {| name := last (JsString.split "/" path) []; relativePath := path;
     fileSize := 0 |}.

Definition sampleSummary (ms : list str) : Summary :=
  {| sessions := []; subjects := []; tasks := []; modalities := ms;
     totalFiles := 0; size := 0 |}.

(** The quick test as the specification words it: some file outside any
    [derivatives] directory whose name ends in a NIfTI extension, directly
    under [anat], [func] or [dwi], itself directly under a directory named
    [sub-*] or [ses-*]. *)
Definition specCouldBeBIDSFile (f : File) : bool :=
  match rev (JsString.split "/" (relativePath f)) with
  | fname :: d1 :: d2 :: above =>
      negb (existsb (JsString.eqb "derivatives") (d1 :: d2 :: above))
      && (JsString.endsWith ".nii" fname || JsString.endsWith ".nii.gz" fname)
      && existsb (JsString.eqb d1) (map list_ascii_of_string ["anat"; "func"; "dwi"])
      && (JsString.startsWith "sub-" d2 || JsString.startsWith "ses-" d2)
  | _ => false
  end.

Definition specCouldBeBIDS (fileList : list File) : bool :=
  existsb specCouldBeBIDSFile fileList.

(* ------------------------------------------------------------------ *)
(** *** Reading a pattern as a relation *)

(** [advance w s t]: the matcher moves from [s] to [t] over the
    characters [w], its captures unchanged. *)
Definition advance (w : str) (s t : mstate) : Prop :=
  inp s = w ++ inp t /\ pos t = pos s + List.length w /\ caps t = caps s.

(** [sem r s t]: some way of matching [r] takes the matcher from [s] to
    [t].  The relation forgets priorities; every result of [rmatch] is in
    it. *)
Fixpoint sem (r : regex) (s t : mstate) : Prop :=
  match r with
  | Bol => pos s = 0 /\ t = s
  | Eol => inp s = [] /\ t = s
  | Lit w => advance w s t
  | One c => exists a, in_class c a = true /\ advance [a] s t
  | Plus c =>
      exists w, w <> [] /\ forallb (in_class c) w = true /\ advance w s t
  | Star c => exists w, forallb (in_class c) w = true /\ advance w s t
  | Seq r1 r2 => exists m, sem r1 s m /\ sem r2 m t
  | Alt r1 r2 => sem r1 s t \/ sem r2 s t
  | Opt r1 => sem r1 s t \/ t = s
  | Group n r1 =>
      exists m, sem r1 s m
                /\ t = MState (pos m) (inp m)
                         ((n, firstn (pos m - pos s) (inp s)) :: caps m)
  | Backref n =>
      match capture n (caps s) with
      | Some w => advance w s t
      | None => t = s
      end
  end.

(** The capture groups a pattern can set. *)
Fixpoint groups (r : regex) : list nat :=
  match r with
  | Seq r1 r2 | Alt r1 r2 => groups r1 ++ groups r2
  | Opt r1 => groups r1
  | Group n r1 => n :: groups r1
  | _ => []
  end.

Definition keepsGroups123 (r : regex) : bool :=
  negb (existsb (fun n => (n =? 1) || (n =? 2) || (n =? 3)) (groups r)).

(* ------------------------------------------------------------------ *)
(** *** Which strings a pattern can consume: looking for "ses-" *)

(** A five-state automaton that recognises the strings containing
    [c0 :: "ses-"], for a first character [c0] that does not occur in
    "ses-".  State [q] means that the last [q] characters read are the
    first [q] of the word; state 5 is final and absorbing. *)
Definition dfaStep (c0 : ascii) (q : nat) (a : ascii) : nat :=
  if 5 <=? q then 5
  else if Ascii.eqb a (nth q (c0 :: list_ascii_of_string "ses-") c0) then S q
       else if Ascii.eqb a c0 then 1 else 0.

Definition dfaRun (c0 : ascii) (q : nat) (w : str) : nat :=
  fold_left (dfaStep c0) w q.

Definition allChars : list ascii := map ascii_of_nat (seq 0 256).

Definition classChars (c : cclass) : list ascii := filter (in_class c) allChars.

Definition memState (q : nat) (S : list nat) : bool := existsb (Nat.eqb q) S.

(** The states reached from [S] by one character of the class. *)
Definition stepClass (c0 : ascii) (c : cclass) (S : list nat) : list nat :=
  nodup Nat.eq_dec
    (flat_map (fun q => map (dfaStep c0 q) (classChars c)) S).

Fixpoint saturate (fuel : nat) (c0 : ascii) (c : cclass) (S : list nat)
  : list nat :=
  match fuel with
  | O => S
  | Datatypes.S fuel' =>
      saturate fuel' c0 c (nodup Nat.eq_dec (S ++ stepClass c0 c S))
  end.

(** The states reached from [S] by any number of characters of the
    class, when six rounds suffice to close the set. *)
Definition closure (c0 : ascii) (c : cclass) (S : list nat)
  : option (list nat) :=
  let R := saturate 6 c0 c S in
  if forallb (fun q => memState q R) (stepClass c0 c R) then Some R else None.

(** [post c0 r S]: a set that holds every automaton state reached from a
    state of [S] by a string that [r] can consume.  Back-references are
    not handled. *)
Fixpoint post (c0 : ascii) (r : regex) (S : list nat) : option (list nat) :=
  match r with
  | Bol | Eol => Some S
  | Lit w => Some (nodup Nat.eq_dec (map (fun q => dfaRun c0 q w) S))
  | One c => Some (stepClass c0 c S)
  | Plus c => closure c0 c (stepClass c0 c S)
  | Star c => closure c0 c S
  | Seq r1 r2 =>
      match post c0 r1 S with
      | Some S1 => post c0 r2 S1
      | None => None
      end
  | Alt r1 r2 =>
      match post c0 r1 S, post c0 r2 S with
      | Some S1, Some S2 => Some (nodup Nat.eq_dec (S1 ++ S2))
      | _, _ => None
      end
  | Opt r1 =>
      match post c0 r1 S with
      | Some S1 => Some (nodup Nat.eq_dec (S ++ S1))
      | None => None
      end
  | Group _ r1 => post c0 r1 S
  | Backref _ => None
  end.

(** [absorbs c0 r w]: [post] accounts for the string [w]. *)
Definition absorbs (c0 : ascii) (r : regex) (w : str) : Prop :=
  forall S R q, post c0 r S = Some R -> In q S -> In (dfaRun c0 q w) R.

(* ------------------------------------------------------------------ *)
(** *** The common shape of the subject-level expressions *)

(** [^\/(sub-...)\/(?:(ses-...)\/)?] dir [\1(_\2)?] tail [$] *)
Definition skeleton (dir : option regex) (tail : regex) : regex :=
  Bol ;; Lit "/" ;; subjectDir ;; Lit "/" ;; sessionDirOpt ;;
  match dir with
  | Some d => d ;; Backref 1 ;; sessionTokenOpt ;; tail ;; Eol
  | None => Backref 1 ;; sessionTokenOpt ;; tail ;; Eol
  end.

Definition dirOf (dir : option regex) : regex :=
  match dir with Some d => d | None => Lit [] end.


(** No string that [r] consumes contains [c0 :: "ses-"]. *)
Definition avoids (c0 : ascii) (r : regex) : bool :=
  match post c0 r [0] with
  | Some R => negb (memState 5 R)
  | None => false
  end.


(* ------------------------------------------------------------------ *)
(** *** Session directory and session token of a path *)

(** The session directory of a path: the directory right under the first
    one, when its name starts with "ses-". *)
Definition sessionDir (path : str) : option str :=
  match JsString.split "/" path with
  | _ :: _ :: d :: _ :: _ =>
      if JsString.startsWith "ses-" d then Some d else None
  | _ => None
  end.

(** The predicates of [type.js] that go through [conditionalMatch]. *)
Definition categoryPredicates : list (str -> bool) :=
  [isAnat; isDWI; isFunc; isBehavioral; isCont; isFieldMap; isSessionLevel;
   isFuncBold].

Fixpoint join (sep : ascii) (l : list str) : str :=
  match l with
  | [] => []
  | [w] => w
  | w :: l' => w ++ sep :: join sep l'
  end.

Definition fieldmap : str := "fieldmap".

Definition noSep (sep : ascii) (u : str) : Prop :=
  forallb (fun a => negb (Ascii.eqb a sep)) u = true.

(** A label: a fixed prefix followed by one or more letters or digits. *)
Definition isLabel (prefix w : str) : Prop :=
  exists lab, w = prefix ++ lab /\ lab <> []
              /\ forallb (in_class Alnum) lab = true.




(* ------------------------------------------------------------------ *)
(** *** Notions for the further properties *)

(** The modality labels that the grouping rules look for. *)
Definition ruleTokens : list str := flat_map fst modalityGroups.

(** No label is listed twice in the summary. *)
Definition summaryNoDup (s : Summary) : Prop :=
  NoDup (sessions s) /\ NoDup (subjects s) /\ NoDup (tasks s)
  /\ NoDup (modalities s).

(** [file.name.endsWith('.nii') || file.name.endsWith('.nii.gz')] *)
Definition isImage (f : File) : bool :=
  JsString.endsWith ".nii" (name f) || JsString.endsWith ".nii.gz" (name f).

(** The files of the first pass that are read and handed to a content
    validator: extension [.tsv], [.bvec], [.bval] or [.json]. *)
Definition isText (f : File) : bool :=
  hasExt ".tsv" f || hasExt ".bvec" f || hasExt ".bval" f || hasExt ".json" f.

(** The validator the first pass calls on a text file. *)
Definition validatorCall (f : File) : Call :=
  if hasExt ".tsv" f then CallTSV f
  else if hasExt ".bvec" f then CallBvec f
       else if hasExt ".bval" f then CallBval f
            else CallJson f.

(** The issues the first pass appends for one file. *)
Definition firstPassIssues `{Collaborators} (f : File) : list Issue :=
  if negb (isBIDS (relativePath f)) then
    [ {| code := 1; file := f; evidence := name f |} ]
  else if hasExt ".tsv" f then
         TSV f (readFile f) (JsString.endsWith "_events.tsv" (name f))
       else if hasExt ".bvec" f then bvec f (readFile f)
            else if hasExt ".bval" f then bval f (readFile f)
                 else if hasExt ".json" f then fst (json f (readFile f))
                      else [].

(** [file.name.endsWith('_events.tsv')] in the branch of the [.tsv] files *)
Definition isEventsFile (f : File) : bool :=
  hasExt ".tsv" f && JsString.endsWith "_events.tsv" (name f).

Section MoreNotions1.

Context `{Collaborators}.

(** The task name the first pass records for a file, if any. *)
Definition taskOf (f : File) : option str :=
  if isBIDS (relativePath f) && hasExt ".json" f
     && JsString.includes "task" (name f)
  then match snd (json f (readFile f)) with
       | Some obj =>
           match TaskName obj with
           | Some task => if JsString.truthy task then Some task else None
           | None => None
           end
       | None => None
       end
  else None.

(** The modality the first pass records for a file, if any. *)
Definition modalityOf (f : File) : option str :=
  if isBIDS (relativePath f) && isImage f
  then Some (modalitySuffix (relativePath f)) else None.

(** [pushUnique] of a label that may be missing. *)
Definition pushSome (o : option str) (arr : list str) : list str :=
  match o with Some x => JsArray.pushUnique x arr | None => arr end.

(** The issues the second pass appends for one image, given the
    dictionaries and events the first pass left in [c]. *)
Definition secondPassIssues (options : Options) (fileList : list File)
           (c : Ctx) (f : File) : list Issue :=
  if ignoreNiftiHeaders options then
    NIFTI None f (jsonContentsDict c) (bContentsDict c) fileList (events c)
  else
    match readNiftiHeader f with
    | inr error => [error]
    | inl header =>
        NIFTI (Some header) f (jsonContentsDict c) (bContentsDict c)
              fileList (events c)
    end.

(** The images whose header could be read, with their header. *)
Definition readableHeaders (l : list File) : list (File * Header) :=
  flat_map (fun f => match readNiftiHeader f with
                     | inl header => [(f, header)]
                     | inr _ => []
                     end) l.

(** The severity the table gives to the code of an issue is [sev]. *)
Definition severityIs (sev : str) (i : Issue) : bool :=
  match issuesTable (code i) with
  | Some meta => JsString.eqb (metaSeverity meta) sev
  | None => false
  end.

End MoreNotions1.

(** [consuming r]: every match of [r] takes at least one character. *)
Fixpoint consuming (r : regex) : bool :=
  match r with
  | Lit w => JsString.truthy w
  | One _ | Plus _ => true
  | Seq r1 r2 => consuming r1 || consuming r2
  | Alt r1 r2 => consuming r1 && consuming r2
  | Group _ r1 => consuming r1
  | Bol | Eol | Star _ | Opt _ | Backref _ => false
  end.

(** Every optional part of [r] takes at least one character when it is
    taken, so that the empty-iteration check of [?] never fires. *)
Fixpoint optsOK (r : regex) : bool :=
  match r with
  | Seq r1 r2 | Alt r1 r2 => optsOK r1 && optsOK r2
  | Opt r1 => consuming r1 && optsOK r1
  | Group _ r1 => optsOK r1
  | _ => true
  end.

(** Patterns without anchors and back-references. *)
Fixpoint plain (r : regex) : bool :=
  match r with
  | Bol | Eol | Backref _ => false
  | Seq r1 r2 | Alt r1 r2 => plain r1 && plain r2
  | Opt r1 | Group _ r1 => plain r1
  | _ => true
  end.

(** The strings of a plain pattern. *)
Fixpoint lang (r : regex) (w : str) : Prop :=
  match r with
  | Lit p => w = p
  | One c => exists a, in_class c a = true /\ w = [a]
  | Plus c => w <> [] /\ forallb (in_class c) w = true
  | Star c => forallb (in_class c) w = true
  | Seq r1 r2 => exists u v, w = u ++ v /\ lang r1 u /\ lang r2 v
  | Alt r1 r2 => lang r1 w \/ lang r2 w
  | Opt r1 => lang r1 w \/ w = []
  | Group _ r1 => lang r1 w
  | Bol | Eol | Backref _ => False
  end.

(** [steps r w cs cs']: wherever it stands, [r] can match the
    characters [w], taking the captures from [cs] to [cs']. *)
Definition steps (r : regex) (w : str) (cs cs' : list (nat * str)) : Prop :=
  forall i rest,
    sem r (MState i (w ++ rest) cs) (MState (i + List.length w) rest cs').

(** The part of a subject-level expression that follows [\1(_\2)?]. *)
Definition tailOf (r : regex) : regex :=
  match r with
  | Bol ;; _ ;; _ ;; _ ;; _ ;; Backref _ ;; _ ;; tl ;; Eol => tl
  | Bol ;; _ ;; _ ;; _ ;; _ ;; _ ;; Backref _ ;; _ ;; tl ;; Eol => tl
  | _ => Lit []
  end.

(** The paths of a subject-level category: a subject directory, an
    optional session directory, one of the directories [dirs] (each
    written with its closing slash, or empty), and a file name made of
    the subject label, the session label if there is a session
    directory, and a string of the tail pattern.  Without a session
    directory one more underscore may follow the subject label. *)
Definition sessionShaped (dirs : list str) (tail : regex) (path : str) : Prop :=
  exists sub d tl,
    isLabel "sub-" sub /\ In d dirs /\ lang tail tl
    /\ ((exists y, (y = [] \/ y = list_ascii_of_string "_")
                   /\ path = "/" ++ sub ++ "/" ++ d ++ sub ++ y ++ tl)
        \/ (exists ses, isLabel "ses-" ses
                        /\ path = "/" ++ sub ++ "/" ++ ses ++ "/" ++ d ++ sub
                                   ++ "_" ++ ses ++ tl)).

(** The directories of the categories: none is mistaken for a session
    directory, and none can be read in two ways. *)
Definition dirsOK (dirs : list str) : Prop :=
  (forall d x, In d dirs -> JsString.startsWith "ses-" (d ++ "sub-" ++ x) = false)
  /\ (forall d d' x x', In d dirs -> In d' dirs -> d ++ x = d' ++ x' -> d = d').

Definition noDir : list str := [[]].

Definition anatDir : list str := [list_ascii_of_string "anat/"].

Definition dwiDir : list str := [list_ascii_of_string "dwi/"].

Definition fmapDir : list str := [list_ascii_of_string "fmap/"].

Definition funcDir : list str := [list_ascii_of_string "func/"].

Definition behDir : list str := [list_ascii_of_string "beh/"].

Definition contDirs : list str := map list_ascii_of_string ["func/"; "beh/"].

(** Every literal character of the pattern is one that [.] matches:
    neither a line feed nor a carriage return. *)
Fixpoint litsClean (r : regex) : bool :=
  match r with
  | Lit w => forallb (in_class AnyChar) w
  | Seq r1 r2 | Alt r1 r2 => litsClean r1 && litsClean r2
  | Opt r1 | Group _ r1 => litsClean r1
  | _ => true
  end.

(** The pattern ends with [$]. *)
Fixpoint endsEol (r : regex) : bool :=
  match r with
  | Eol => true
  | Seq _ r2 => endsEol r2
  | _ => false
  end.

(** [^\/ ... $] with clean literals. *)
Definition wellAnchored (r : regex) : bool :=
  match r with
  | Bol ;; Lit ("/"%char :: w) ;; r' =>
      litsClean (Lit w ;; r') && endsEol r'
  | _ => false
  end.

(** An optional label: when present, one or more characters of the class. *)
Definition optLabel (c : cclass) (v : option str) : Prop :=
  match v with
  | Some x => x <> [] /\ forallb (in_class c) x = true
  | None => True
  end.

(** An optional [key-value] entity of a file name, or a directory. *)
Definition entity (key : str) (v : option str) (close : str) : str :=
  match v with
  | Some x => key ++ x ++ close
  | None => []
  end.

(** The paths of anatomical files, spelled out. *)
Definition anatPath (path : str) : Prop :=
  exists (sub : str) (ses acq rec run : option str) (y suffix : str)
         (c : ascii) (ext : str),
    sub <> [] /\ forallb (in_class Alnum) sub = true
    /\ optLabel Alnum ses /\ optLabel Alnum acq /\ optLabel Alnum rec
    /\ optLabel Digit run
    /\ (y = [] \/ (y = list_ascii_of_string "_" /\ ses = None))
    /\ In suffix anatSuffixes
    /\ in_class AnyChar c = true
    /\ (ext = list_ascii_of_string "nii" \/ ext = list_ascii_of_string "json"
        \/ exists c', in_class AnyChar c' = true /\ ext = "nii" ++ [c'] ++ "gz")
    /\ path = "/sub-" ++ sub ++ "/" ++ entity "ses-" ses "/" ++ "anat/"
              ++ "sub-" ++ sub ++ entity "_ses-" ses [] ++ y
              ++ entity "_acq-" acq [] ++ entity "_rec-" rec []
              ++ entity "_run-" run []
              ++ "_" ++ suffix ++ [c] ++ ext.

(** The directory of a path right under its subject directory, or right
    under its session directory when the subject directory holds one. *)
Definition dataDir (path : str) : option str :=
  match JsString.split "/" path with
  | _ :: _ :: a :: b :: rest =>
      if JsString.startsWith "ses-" a
      then match rest with [] => None | _ :: _ => Some b end
      else Some a
  | _ => None
  end.

(** A string pattern: known characters and wildcards. *)
Definition pattern : Type := list (option ascii).

Definition matchesPat (p : pattern) (x : str) : Prop :=
  Forall2 (fun o a => match o with Some b => a = b | None => True end) p x.

Definition productPats (ps qs : list pattern) : list pattern :=
  flat_map (fun p => map (fun q => p ++ q) qs) ps.

(** [finalPats r = (exact, ps)]: what every match of [r] takes matches
    one of the patterns [ps] when [exact] is set, and ends with a string
    that matches one of them otherwise. *)
Fixpoint finalPats (r : regex) : bool * list pattern :=
  match r with
  | Bol | Eol => (true, [[]])
  | Lit w => (true, [map Some w])
  | One _ => (true, [[None]])
  | Seq r1 r2 =>
      let (e1, ps1) := finalPats r1 in
      let (e2, ps2) := finalPats r2 in
      if e2 then (e1, productPats ps1 ps2) else (false, ps2)
  | Alt r1 r2 =>
      let (e1, ps1) := finalPats r1 in
      let (e2, ps2) := finalPats r2 in
      (e1 && e2, ps1 ++ ps2)
  | Group _ r1 => finalPats r1
  | Plus _ | Star _ | Opt _ | Backref _ => (false, [[]])
  end.

(** Two reversed patterns that no common string end can match. *)
Fixpoint clash (p q : pattern) : bool :=
  match p, q with
  | Some a :: p', Some b :: q' => negb (Ascii.eqb a b) || clash p' q'
  | _ :: p', _ :: q' => clash p' q'
  | _, _ => false
  end.

(** No match of [r] ends like [q]. *)
Definition rejects (q : pattern) (r : regex) : bool :=
  forallb (fun p => clash (rev p) (rev q)) (snd (finalPats r)).

(** [..._sbref<c>nii] *)
Definition sbrefNiiPat : pattern :=
  map Some (list_ascii_of_string "_sbref") ++ [None]
  ++ map Some (list_ascii_of_string "nii").

Definition endsLike (q : pattern) (path : str) : Prop :=
  exists pre y, path = pre ++ y /\ matchesPat q y.

(** The path ends in [_sbref<c>nii], for any one character [c]. *)
Definition endsSbrefNii (path : str) : Prop :=
  exists pre c, path = pre ++ "_sbref" ++ [c] ++ "nii".

(** Templates: what the strings of a pattern look like when a run of
    letters and digits is only known to hold no slash. *)
Inductive token : Type :=
| Ch (a : ascii)     (* this character *)
| Wild               (* any one character *)
| Gap.               (* any string without a slash *)

Fixpoint matchesT (T : list token) (w : str) : Prop :=
  match T with
  | [] => w = []
  | Ch a :: T' => exists w', w = a :: w' /\ matchesT T' w'
  | Wild :: T' => exists c w', w = c :: w' /\ matchesT T' w'
  | Gap :: T' => exists g w', w = g ++ w' /\ noSep "/" g /\ matchesT T' w'
  end.

Definition classToken (c : cclass) : option token :=
  match c with AnyChar => None | _ => Some Gap end.

Fixpoint templates (r : regex) : option (list (list token)) :=
  match r with
  | Lit w => Some [map Ch w]
  | One AnyChar => Some [[Wild]]
  | One _ => Some [[Gap]]
  | Plus c | Star c => option_map (fun t => [[t]]) (classToken c)
  | Seq r1 r2 =>
      match templates r1, templates r2 with
      | Some t1, Some t2 =>
          Some (flat_map (fun a => map (fun b => a ++ b) t2) t1)
      | _, _ => None
      end
  | Alt r1 r2 =>
      match templates r1, templates r2 with
      | Some t1, Some t2 => Some (t1 ++ t2)
      | _, _ => None
      end
  | Opt r1 => option_map (cons []) (templates r1)
  | Group _ r1 => templates r1
  | Bol | Eol | Backref _ => None
  end.

(** No wildcard and no slash. *)
Definition solid (T : list token) : bool :=
  forallb (fun t => match t with
                    | Ch a => negb (Ascii.eqb a "/")
                    | Wild => false
                    | Gap => true
                    end) T.

(** On a reversed template and a reversed ending: the ending pins every
    wildcard it meets, and none is left beyond it. *)
Fixpoint safeRev (rt : list token) (re : str) {struct re} : bool :=
  match re with
  | [] => solid rt
  | b :: re' =>
      match rt with
      | [] => true
      | Ch a :: rt' => if Ascii.eqb a b then safeRev rt' re' else true
      | Wild :: rt' => safeRev rt' re'
      | Gap :: _ => solid rt
      end
  end.

(** Every string of [tail] that ends in [e] is free of slashes. *)
Definition endingPins (e : str) (tail : regex) : bool :=
  match templates tail with
  | Some ts => forallb (fun T => safeRev (rev T) (rev e)) ts
  | None => false
  end.

(** The categories of images that the quick test looks for. *)
Definition imageCategories : list (str -> bool) :=
  [isAnat; isDWI; isFunc; isFuncBold].

(** The pattern without its final [$]. *)
Fixpoint dropEol (r : regex) : regex :=
  match r with
  | Seq a Eol => a
  | Seq a b => Seq a (dropEol b)
  | _ => r
  end.

(** Endings of the side-car files of functional runs. *)
Definition sidecarEndings : list (str * str) :=
  map (fun k => (list_ascii_of_string (fst k), list_ascii_of_string (snd k)))
      [("_bold", "json"); ("_events", "tsv"); ("_physio", "json");
       ("_stim", "json")].

(** The names of top-level files, spelled out. *)
Definition topLevelName (path : str) : Prop :=
  In path fixedTopLevelNames
  \/ (exists (ses : option str) (task : str) (acq rec run : option str)
             (kind ext : str) (d : ascii),
        optLabel Alnum ses /\ task <> []
        /\ forallb (in_class Alnum) task = true
        /\ optLabel Alnum acq /\ optLabel Alnum rec /\ optLabel Digit run
        /\ In (kind, ext) sidecarEndings /\ in_class AnyChar d = true
        /\ path = "/" ++ entity "ses-" ses "_" ++ "task-" ++ task
                  ++ entity "_acq-" acq [] ++ entity "_rec-" rec []
                  ++ entity "_run-" run [] ++ kind ++ [d] ++ ext)
  \/ (exists (ses acq rec run : option str) (u : str) (d : ascii) (ext : str),
        optLabel Alnum ses /\ optLabel Alnum acq /\ optLabel Alnum rec
        /\ optLabel Digit run
        /\ (u = [] \/ u = list_ascii_of_string "_")
        /\ in_class AnyChar d = true
        /\ In ext (map list_ascii_of_string ["json"; "bval"; "bvec"])
        /\ path = "/" ++ entity "ses-" ses [] ++ entity "_acq-" acq []
                  ++ entity "_rec-" rec [] ++ entity "_run-" run []
                  ++ u ++ "dwi" ++ [d] ++ ext)
  \/ (exists (ses acq rec run : option str) (suffix : str) (d : ascii),
        optLabel Alnum ses /\ optLabel Alnum acq /\ optLabel Alnum rec
        /\ optLabel Digit run /\ In suffix anatSuffixes
        /\ in_class AnyChar d = true
        /\ path = "/" ++ entity "ses-" ses "_" ++ entity "_acq-" acq []
                  ++ entity "_rec-" rec [] ++ entity "_run-" run "_"
                  ++ suffix ++ [d] ++ "json")
  \/ (exists (n : str) (d : ascii),
        n <> [] /\ forallb (in_class Digit) n = true
        /\ in_class AnyChar d = true
        /\ path = "/dir-" ++ n ++ "_epi" ++ [d] ++ "json").

(** The checks that [isBIDS] tries, in its order, but for [isCont]. *)
Definition categories : list (str -> bool) :=
  [isTopLevel; isCodeOrDerivatives; isSessionLevel; isSubjectLevel; isAnat;
   isDWI; isFunc; isBehavioral; isFieldMap; isVersionControl].

(** [..._sessions<c>tsv] *)
Definition sessionsPat : pattern :=
  map Some (list_ascii_of_string "_sessions") ++ [None]
  ++ map Some (list_ascii_of_string "tsv").

(** The tree a path lies in, by its first characters. *)
Definition inSubject (path : str) : bool := JsString.startsWith "/sub-" path.

Definition inUnchecked (path : str) : bool :=
  JsString.startsWith "/code/" path
  || JsString.startsWith "/derivatives/" path.

Definition inGit (path : str) : bool := JsString.startsWith "/.git/" path.

(* PROPERTIES *)

(* ================================================================== *)
(** ** Strings and arrays *)
(* ================================================================== *)

Lemma eqb_true_iff (a b : str) : JsString.eqb a b = true <-> a = b.
Proof.
  unfold JsString.eqb. destruct (list_eq_dec ascii_dec a b); split; congruence.
Qed.

Lemma eqb_false_iff (a b : str) : JsString.eqb a b = false <-> a <> b.
Proof.
  unfold JsString.eqb. destruct (list_eq_dec ascii_dec a b); split; congruence.
Qed.

Lemma eqb_refl (a : str) : JsString.eqb a a = true.
Proof. now apply eqb_true_iff. Qed.

(** [indexOf] finds the first occurrence of a present element. *)
Lemma arr_indexOf_In (x : str) (arr : list str) :
  In x arr ->
  exists n, JsArray.indexOf x arr = Z.of_nat n /\ nth_error arr n = Some x.
Proof.
  induction arr as [|y arr IH]; simpl; [tauto|].
  intros Hin. destruct (JsString.eqb y x) eqn:E.
  - apply eqb_true_iff in E. subst. exists 0. auto.
  - apply eqb_false_iff in E. destruct Hin as [->|Hin]; [congruence|].
    destruct (IH Hin) as (n & Hn & Hnth). rewrite Hn.
    exists (S n). split; [|exact Hnth].
    destruct (Z.of_nat n <? 0)%Z eqn:L; lia.
Qed.

Lemma arr_indexOf_notIn (x : str) (arr : list str) :
  ~ In x arr -> JsArray.indexOf x arr = (-1)%Z.
Proof.
  induction arr as [|y arr IH]; simpl; [reflexivity|].
  intros Hn. destruct (JsString.eqb y x) eqn:E.
  - apply eqb_true_iff in E. tauto.
  - rewrite IH by tauto. reflexivity.
Qed.

Lemma arr_indexOf_neg_iff (x : str) (arr : list str) :
  (JsArray.indexOf x arr <? 0)%Z = true <-> ~ In x arr.
Proof.
  split.
  - intros L Hin. destruct (arr_indexOf_In _ _ Hin) as (n & Hn & _). lia.
  - intros Hn. rewrite arr_indexOf_notIn by assumption. reflexivity.
Qed.

Lemma arr_indexOf_m1_iff (x : str) (arr : list str) :
  (JsArray.indexOf x arr =? -1)%Z = true <-> ~ In x arr.
Proof.
  split.
  - intros L Hin. destruct (arr_indexOf_In _ _ Hin) as (n & Hn & _). lia.
  - intros Hn. rewrite arr_indexOf_notIn by assumption. reflexivity.
Qed.

Lemma count_removeAt (x t : str) (n : nat) (arr : list str) :
  nth_error arr n = Some t ->
  count_occ str_eq_dec (JsArray.removeAt n arr) x
  = count_occ str_eq_dec arr x - (if str_eq_dec t x then 1 else 0).
Proof.
  revert n. induction arr as [|y arr IH]; intros [|n]; simpl; try discriminate.
  - intros [= ->]. destruct (str_eq_dec t x); lia.
  - intros Hn. rewrite (IH _ Hn).
    destruct (str_eq_dec y x), (str_eq_dec t x); try lia.
    subst. assert (In x arr) by (eapply nth_error_In; eauto).
    assert (count_occ str_eq_dec arr x > 0) by now apply count_occ_In.
    lia.
Qed.

(** On a present element, [splice(indexOf(t), 1)] removes one occurrence
    of [t] and nothing else. *)
Lemma count_splice_indexOf (x t : str) (arr : list str) :
  In t arr ->
  count_occ str_eq_dec (JsArray.splice1 (JsArray.indexOf t arr) arr) x
  = count_occ str_eq_dec arr x - (if str_eq_dec t x then 1 else 0).
Proof.
  intros Hin. destruct (arr_indexOf_In _ _ Hin) as (n & Hn & Hnth).
  rewrite Hn. unfold JsArray.splice1.
  assert (n < List.length arr) by (apply nth_error_Some; congruence).
  replace (Z.to_nat _) with n
    by (destruct (Z.of_nat n <? 0)%Z eqn:L; lia).
  now apply count_removeAt.
Qed.

(* ================================================================== *)
(** ** groupModalities *)
(* ================================================================== *)

Lemma groupMatches_fold (gs : list str) (w : list str) (b : bool) :
  fold_left
    (fun (m : bool) (t : str) =>
       if (JsArray.indexOf t w =? -1)%Z then false else m) gs b = true
  <-> b = true /\ forall t, In t gs -> In t w.
Proof.
  revert b. induction gs as [|t gs IH]; intros b; simpl.
  - tauto.
  - rewrite IH. destruct (JsArray.indexOf t w =? -1)%Z eqn:E.
    + apply arr_indexOf_m1_iff in E. split; [intros [? _]; discriminate|].
      intros [_ Hall]. exfalso. apply E, Hall. auto.
    + assert (In t w).
      { destruct (in_dec str_eq_dec t w) as [|N]; [assumption|].
        apply arr_indexOf_m1_iff in N. congruence. }
      split; intros [Hb Hall]; split; auto.
      intros t' [<-|?]; auto.
Qed.

Lemma groupMatches_iff (g : list str * str) (w : list str) :
  groupMatches (fst g) w = true <-> fires g w.
Proof.
  unfold groupMatches, fires. rewrite groupMatches_fold. tauto.
Qed.

Lemma fires_dec (g : list str * str) (w : list str) : {fires g w} + {~ fires g w}.
Proof.
  destruct (groupMatches (fst g) w) eqn:E.
  - left. now apply groupMatches_iff.
  - right. intros F. apply groupMatches_iff in F. congruence.
Qed.

Lemma groupStep_skip (g : list str * str) (w : list str) :
  ~ fires g w -> groupStep w g = w.
Proof.
  intros N. unfold groupStep. destruct g as [gs gn].
  destruct (groupMatches gs w) eqn:E; [|reflexivity].
  exfalso. apply N. now apply (groupMatches_iff (gs, gn)).
Qed.

(** Removing the tokens of a duplicate-free set, all present, takes one
    occurrence of each away. *)
Lemma count_splice_all (gs : list str) :
  NoDup gs -> forall (l : list str) (x : str),
  (forall t, In t gs -> In t l) ->
  count_occ str_eq_dec
    (fold_left (fun (ms : list str) (t : str) =>
                  JsArray.splice1 (JsArray.indexOf t ms) ms) gs l) x
  = count_occ str_eq_dec l x - (if in_dec str_eq_dec x gs then 1 else 0).
Proof.
  induction 1 as [|t gs Hnin Hnd IH]; intros l x Hall; simpl.
  - lia.
  - rewrite IH.
    + rewrite count_splice_indexOf by (apply Hall; simpl; auto).
      destruct (str_eq_dec t x) as [->|Hne].
      * destruct (in_dec str_eq_dec x gs); [contradiction|]. lia.
      * destruct (in_dec str_eq_dec x gs); lia.
    + intros t' Hin. apply (count_occ_In str_eq_dec).
      rewrite count_splice_indexOf by (apply Hall; simpl; auto).
      destruct (str_eq_dec t t') as [->|_]; [contradiction|].
      assert (In t' l) by (apply Hall; simpl; auto).
      apply (count_occ_In str_eq_dec) in H. lia.
Qed.

Lemma groupStep_fires (g : list str * str) (w : list str) (x : str) :
  NoDup (fst g) -> fires g w ->
  count_occ str_eq_dec (groupStep w g) x
  = count_occ str_eq_dec (w ++ [snd g]) x
    - (if in_dec str_eq_dec x (fst g) then 1 else 0).
Proof.
  intros Hnd F. unfold groupStep. destruct g as [gs gn]. simpl in *.
  assert (E : groupMatches gs w = true) by now apply (groupMatches_iff (gs, gn)).
  rewrite E. apply count_splice_all; [assumption|].
  intros t Hin. apply in_or_app. left. now apply F.
Qed.

Lemma count_occ_single (a t : str) :
  count_occ str_eq_dec [a] t = if str_eq_dec a t then 1 else 0.
Proof. reflexivity. Qed.

Lemma NoDup_by_nodup (l : list str) : nodup str_eq_dec l = l -> NoDup l.
Proof. intros <-. apply NoDup_nodup. Qed.

Lemma modalityGroups_wf :
  forall g, In g modalityGroups -> NoDup (fst g) /\ snd g = fieldmap.
Proof.
  intros g Hin. simpl in Hin.
  repeat (destruct Hin as [<-|Hin];
          [split; [apply NoDup_by_nodup; vm_compute|]; reflexivity|]).
  contradiction.
Qed.

(** A rule never adds a label other than "fieldmap". *)
Lemma groupStep_count_le (g : list str * str) (w : list str) (t : str) :
  In g modalityGroups -> t <> fieldmap ->
  count_occ str_eq_dec (groupStep w g) t <= count_occ str_eq_dec w t.
Proof.
  intros Hg Ht. destruct (modalityGroups_wf _ Hg) as [Hnd Hname].
  destruct (fires_dec g w) as [F|N].
  - rewrite groupStep_fires by assumption.
    rewrite count_occ_app, Hname, count_occ_single.
    destruct (str_eq_dec fieldmap t); [congruence|]. lia.
  - rewrite groupStep_skip by assumption. lia.
Qed.

Lemma working_S (ms : list str) (n : nat) (g : list str * str) :
  nth_error modalityGroups n = Some g ->
  working ms (S n) = groupStep (working ms n) g.
Proof.
  intros Hn. unfold working.
  assert (E : firstn (S n) modalityGroups = firstn n modalityGroups ++ [g]).
  { revert Hn. generalize modalityGroups. induction n as [|n IH]; intros [|y l];
      simpl; try discriminate.
    - now intros [= ->].
    - intros Hn. f_equal. now apply IH. }
  rewrite E, fold_left_app. reflexivity.
Qed.

Lemma working_all (ms : list str) (n : nat) :
  List.length modalityGroups <= n -> working ms n = groupModalities ms.
Proof.
  intros L. unfold working, groupModalities. now rewrite firstn_all2.
Qed.

Lemma working_count_le (ms : list str) (t : str) (n m : nat) :
  t <> fieldmap -> n <= m ->
  count_occ str_eq_dec (working ms m) t <= count_occ str_eq_dec (working ms n) t.
Proof.
  intros Ht. induction 1 as [|m L IH]; [lia|].
  destruct (nth_error modalityGroups m) as [g|] eqn:E.
  - rewrite (working_S _ _ _ E).
    etransitivity; [apply groupStep_count_le|exact IH]; auto.
    eapply nth_error_In; eauto.
  - apply nth_error_None in E.
    rewrite (working_all ms (S m)) by lia.
    rewrite <- (working_all ms m) by lia. exact IH.
Qed.

(** Once a rule has fired, its tokens (other than the label it adds) are
    gone from every later working list. *)
Lemma consumed_stays_out (ms : list str) (n m : nat) (g : list str * str)
      (t : str) :
  NoDup ms -> nth_error modalityGroups n = Some g ->
  fires g (working ms n) -> In t (fst g) -> t <> fieldmap -> n < m ->
  ~ In t (working ms m).
Proof.
  intros Hnd Hn F Hin Ht L Hcontra.
  assert (Hg : In g modalityGroups) by (eapply nth_error_In; eauto).
  destruct (modalityGroups_wf _ Hg) as [Hgs Hname].
  apply (count_occ_In str_eq_dec) in Hcontra.
  pose proof (@working_count_le ms t (S n) m Ht L) as H1.
  rewrite (working_S _ _ _ Hn) in H1.
  rewrite groupStep_fires in H1 by assumption.
  rewrite count_occ_app, Hname, count_occ_single in H1.
  destruct (str_eq_dec fieldmap t); [congruence|].
  destruct (in_dec str_eq_dec t (fst g)); [|contradiction].
  pose proof (@working_count_le ms t 0 n Ht (Nat.le_0_l n)) as H2.
  assert (H3 : count_occ str_eq_dec ms t <= 1).
  { apply (proj1 (NoDup_count_occ str_eq_dec ms) Hnd). }
  change (working ms 0) with ms in H2. lia.
Qed.

(** Only the third rule has the label among its tokens. *)
Lemma label_token_rule (n : nat) (g : list str * str) :
  nth_error modalityGroups n = Some g -> In fieldmap (fst g) -> n = 2.
Proof.
  intros Hn Hin.
  destruct n as [|[|[|[|n]]]]; [| |reflexivity| |]; exfalso;
    try (destruct n; discriminate Hn);
    inversion Hn; subst g; simpl in Hin;
    repeat (destruct Hin as [Hin|Hin]; [discriminate Hin|]); exact Hin.
Qed.

(** Two different rules only share tokens that are not the label. *)
Lemma shared_token_not_label (n m : nat) (gn gm : list str * str) (t : str) :
  n < m -> nth_error modalityGroups n = Some gn ->
  nth_error modalityGroups m = Some gm ->
  In t (fst gn) -> In t (fst gm) -> t <> fieldmap.
Proof.
  intros L Hn Hm Hin1 Hin2 ->.
  pose proof (label_token_rule _ _ Hn Hin1).
  pose proof (label_token_rule _ _ Hm Hin2). lia.
Qed.

(** C2. [groupModalities] runs its four rules in the listed order, each on
    the working list as the earlier rules left it.  On a duplicate-free
    input: a rule whose tokens are all present adds "fieldmap" and removes
    one occurrence of each of its tokens, which then stay out of every
    later working list, and keeps every other label; a rule with a token missing changes nothing; and a
    later rule that shares a token with a rule that fired does not fire.
    For magnitude1, magnitude2, phase1, phase2, phasediff the first rule
    fires, the second cannot, and phasediff, fieldmap is left. *)
Theorem groupModalities_sequential (ms : list str) (Hnd : NoDup ms) :
  working ms 0 = ms
  /\ working ms 4 = groupModalities ms
  /\ (forall n g, nth_error modalityGroups n = Some g ->
        working ms (S n) = groupStep (working ms n) g
        /\ (fires g (working ms n) ->
              (forall x,
                 count_occ str_eq_dec (working ms (S n)) x
                 = count_occ str_eq_dec (working ms n ++ [snd g]) x
                   - (if in_dec str_eq_dec x (fst g) then 1 else 0))
              /\ In (snd g) (working ms (S n))
              /\ (forall t, In t (fst g) -> t <> snd g ->
                    forall m, n < m -> ~ In t (working ms m))
              /\ (forall x, ~ In x (fst g) -> In x (working ms n) ->
                    In x (working ms (S n))))
        /\ (~ fires g (working ms n) -> working ms (S n) = working ms n))
  /\ (forall n m gn gm t,
        n < m -> nth_error modalityGroups n = Some gn ->
        nth_error modalityGroups m = Some gm ->
        fires gn (working ms n) ->
        In t (fst gn) -> In t (fst gm) ->
        ~ fires gm (working ms m))
  /\ (let ex := map list_ascii_of_string
                  ["magnitude1"; "magnitude2"; "phase1"; "phase2"; "phasediff"] in
      groupMatches (map list_ascii_of_string
                      ["magnitude1"; "magnitude2"; "phase1"; "phase2"])
                   (working ex 0) = true
      /\ groupMatches (map list_ascii_of_string
                         ["magnitude1"; "magnitude2"; "phasediff"])
                      (working ex 1) = false
      /\ groupModalities ex = map list_ascii_of_string ["phasediff"; "fieldmap"]).
Proof.
  split; [reflexivity|]. split; [now apply working_all|].
  split; [|split].
  - intros n g Hn.
    assert (Hg : In g modalityGroups) by (eapply nth_error_In; eauto).
    destruct (modalityGroups_wf _ Hg) as [Hgs Hname].
    split; [now apply working_S|]. split.
    + intros F. rewrite (working_S _ _ _ Hn). repeat split.
      * intros x. now apply groupStep_fires.
      * apply (count_occ_In str_eq_dec).
        rewrite groupStep_fires, count_occ_app, count_occ_single by assumption.
        destruct (str_eq_dec (snd g) (snd g)); [|congruence].
        destruct (in_dec str_eq_dec (snd g) (fst g)) as [Hin|]; [|lia].
        apply F, (count_occ_In str_eq_dec) in Hin. lia.
      * intros t Hin Ht m L. rewrite Hname in Ht.
        eapply consumed_stays_out; eauto.
      * intros x Hx Hin. apply (count_occ_In str_eq_dec).
        rewrite groupStep_fires, count_occ_app by assumption.
        destruct (in_dec str_eq_dec x (fst g)); [contradiction|].
        apply (count_occ_In str_eq_dec) in Hin. lia.
    + intros N. rewrite (working_S _ _ _ Hn). now apply groupStep_skip.
  - intros n m gn gm t L Hn Hm F Hin1 Hin2 Fm.
    assert (Ht : t <> fieldmap) by (eapply shared_token_not_label; eauto).
    apply (consumed_stays_out ms n m gn t Hnd Hn F Hin1 Ht L).
    apply Fm, Hin2.
  - vm_compute. auto.
Qed.

Lemma groupModalities_sequential_witness :
  let ms := map list_ascii_of_string ["magnitude1"; "magnitude2"; "phasediff"] in
  NoDup ms /\ working ms 4 = groupModalities ms.
Proof.
  assert (Hnd : NoDup (map list_ascii_of_string
                         ["magnitude1"; "magnitude2"; "phasediff"]))
    by (apply NoDup_by_nodup; vm_compute; reflexivity).
  split; [exact Hnd|].
  exact (proj1 (proj2 (groupModalities_sequential _ Hnd))).
Defined.

(** C3. The three inputs the specification lists: the magnitude pair with
    phasediff becomes fieldmap, epi alone becomes fieldmap, and bold alone
    is returned as it is. *)
Theorem groupModalities_examples :
  groupModalities (map list_ascii_of_string
                     ["magnitude1"; "magnitude2"; "phasediff"])
  = map list_ascii_of_string ["fieldmap"]
  /\ groupModalities (map list_ascii_of_string ["epi"])
     = map list_ascii_of_string ["fieldmap"]
  /\ groupModalities (map list_ascii_of_string ["bold"])
     = map list_ascii_of_string ["bold"].
Proof. vm_compute. auto. Qed.

(** C9. The modality list is not always duplicate-free after grouping: a
    duplicate-free input with a phase-difference field map and an epi
    image comes back with fieldmap twice, because each rule appends the
    label without looking for it, unlike the collection in [fullTest].
    Four images under fmap/ produce that input. *)
Theorem groupModalities_duplicates_fieldmap :
  let ms := map list_ascii_of_string
              ["magnitude1"; "magnitude2"; "phasediff"; "epi"] in
  let fileList :=
    map sampleFile
      (map list_ascii_of_string
         ["/sub-01/fmap/sub-01_magnitude1.nii.gz";
          "/sub-01/fmap/sub-01_magnitude2.nii.gz";
          "/sub-01/fmap/sub-01_phasediff.nii.gz";
          "/sub-01/fmap/sub-01_dir-1_epi.nii.gz"]) in
  modalities (summary (phase1 (H := sampleCollaborators) fileList
                         (initialCtx fileList))) = ms
  /\ NoDup ms
  /\ groupModalities ms = map list_ascii_of_string ["fieldmap"; "fieldmap"]
  /\ ~ NoDup (groupModalities ms).
Proof.
  split; [vm_compute; reflexivity|].
  split; [apply NoDup_by_nodup; vm_compute; reflexivity|].
  split; [vm_compute; reflexivity|].
  intros Hnd. apply (NoDup_count_occ str_eq_dec) with (x := fieldmap) in Hnd.
  vm_compute in Hnd. lia.
Qed.

(* ================================================================== *)
(** ** Comparing and sorting by path *)
(* ================================================================== *)

Lemma nat_of_ascii_inj (a b : ascii) : nat_of_ascii a = nat_of_ascii b -> a = b.
Proof.
  intros E. rewrite <- (ascii_nat_embedding a), <- (ascii_nat_embedding b).
  now rewrite E.
Qed.

Lemma compare_eq (a b : str) : JsString.compare a b = Eq -> a = b.
Proof.
  revert b. induction a as [|x a IH]; intros [|y b]; simpl; try discriminate; auto.
  destruct (Nat.compare_spec (nat_of_ascii x) (nat_of_ascii y)) as [E| |];
    try discriminate.
  intros Hc. f_equal; [now apply nat_of_ascii_inj|now apply IH].
Qed.

Lemma compare_refl (a : str) : JsString.compare a a = Eq.
Proof.
  induction a as [|x a IH]; simpl; [reflexivity|].
  now rewrite Nat.compare_refl.
Qed.

Lemma compare_antisym (a b : str) :
  JsString.compare b a = CompOpp (JsString.compare a b).
Proof.
  revert b. induction a as [|x a IH]; intros [|y b]; simpl; try reflexivity.
  rewrite (Nat.compare_antisym (nat_of_ascii x) (nat_of_ascii y)).
  destruct (nat_of_ascii x ?= nat_of_ascii y); simpl; auto.
Qed.

Lemma compare_le_trans (a b c : str) :
  JsString.compare a b <> Gt -> JsString.compare b c <> Gt ->
  JsString.compare a c <> Gt.
Proof.
  revert b c. induction a as [|x a IH]; intros [|y b] [|z c]; simpl;
    try congruence.
  destruct (Nat.compare_spec (nat_of_ascii x) (nat_of_ascii y)) as [E1|L1|G1];
    destruct (Nat.compare_spec (nat_of_ascii y) (nat_of_ascii z)) as [E2|L2|G2];
    destruct (Nat.compare_spec (nat_of_ascii x) (nat_of_ascii z)) as [E3|L3|G3];
    try congruence; try lia.
  apply IH.
Qed.

Lemma compareFiles_le (a b : Issue) :
  (compareFiles a b <=? 0)%Z = true <-> pathLe a b.
Proof.
  unfold compareFiles, pathLe, JsString.gtb.
  rewrite (compare_antisym (relativePath (file a)) (relativePath (file b))).
  destruct (JsString.compare (relativePath (file a)) (relativePath (file b)));
    simpl; split; intros; try congruence; try reflexivity; discriminate.
Qed.

Lemma pathLe_total (a b : Issue) : ~ pathLe a b -> pathLe b a.
Proof.
  unfold pathLe.
  rewrite (compare_antisym (relativePath (file a)) (relativePath (file b))).
  destruct (JsString.compare (relativePath (file a)) (relativePath (file b)));
    simpl; intros N; try discriminate; exfalso; apply N; discriminate.
Qed.

Lemma pathLe_trans (a b c : Issue) : pathLe a b -> pathLe b c -> pathLe a c.
Proof. unfold pathLe. apply compare_le_trans. Qed.

Lemma pathLe_antisym (a b : Issue) :
  pathLe a b -> pathLe b a -> relativePath (file a) = relativePath (file b).
Proof.
  unfold pathLe.
  rewrite (compare_antisym (relativePath (file a)) (relativePath (file b))).
  intros H1 H2. apply compare_eq.
  destruct (JsString.compare (relativePath (file a)) (relativePath (file b)));
    simpl in *; congruence.
Qed.

Lemma sortInsert_perm (x : Issue) (l : list Issue) :
  Permutation (sortInsert compareFiles x l) (x :: l).
Proof.
  induction l as [|y l IH]; simpl; [reflexivity|].
  destruct (compareFiles x y <=? 0)%Z; [reflexivity|].
  rewrite IH. apply perm_swap.
Qed.

Lemma jsSort_perm (l : list Issue) : Permutation (jsSort compareFiles l) l.
Proof.
  induction l as [|x l IH]; simpl; [reflexivity|].
  rewrite sortInsert_perm. now constructor.
Qed.

Lemma sortInsert_sorted (x : Issue) (l : list Issue) :
  StronglySorted pathLe l -> StronglySorted pathLe (sortInsert compareFiles x l).
Proof.
  induction 1 as [|y l Hs IH Hall]; simpl.
  - repeat constructor.
  - destruct (compareFiles x y <=? 0)%Z eqn:E.
    + apply compareFiles_le in E. constructor; [now constructor|].
      constructor; [assumption|].
      eapply Forall_impl; [|exact Hall]. intros z Hz.
      eapply pathLe_trans; eauto.
    + assert (Hyx : pathLe y x).
      { apply pathLe_total. intros C. apply compareFiles_le in C. congruence. }
      constructor; [assumption|].
      rewrite (Forall_forall). intros z Hz.
      apply (Permutation_in _ (sortInsert_perm x l)) in Hz.
      destruct Hz as [<-|Hz]; [assumption|].
      rewrite Forall_forall in Hall. now apply Hall.
Qed.

Lemma jsSort_sorted (l : list Issue) : StronglySorted pathLe (jsSort compareFiles l).
Proof.
  induction l as [|x l IH]; simpl; [constructor|].
  now apply sortInsert_sorted.
Qed.

(** A list in which issues on the same path are equal has one sorted
    arrangement only. *)
Lemma sorted_unique (l1 l2 : list Issue) :
  StronglySorted pathLe l1 -> StronglySorted pathLe l2 ->
  Permutation l1 l2 ->
  (forall a b, In a l1 -> In b l1 ->
               relativePath (file a) = relativePath (file b) -> a = b) ->
  l1 = l2.
Proof.
  intros S1. revert l2. induction S1 as [|a l1 S1 IH Ha]; intros l2 S2 P T.
  - apply Permutation_nil in P. now subst.
  - destruct S2 as [|b l2 S2 Hb].
    + apply Permutation_sym, Permutation_nil in P. discriminate.
    + assert (Hab : a = b).
      { assert (In a (b :: l2)) as [->|Hin2]
          by (eapply Permutation_in; [exact P|simpl; auto]); [reflexivity|].
        assert (In b (a :: l1)) as [->|Hin1]
          by (eapply Permutation_in; [symmetry; exact P|simpl; auto]);
          [reflexivity|].
        rewrite Forall_forall in Ha, Hb.
        apply T; simpl; auto.
        apply pathLe_antisym; auto. }
      subst b. f_equal. apply IH; auto.
      * eapply Permutation_cons_inv; eauto.
      * intros x y Hx Hy. apply T; simpl; auto.
Qed.

Lemma jsSort_perm_invariant (l1 l2 : list Issue) :
  Permutation l1 l2 ->
  (forall a b, In a l1 -> In b l1 ->
               relativePath (file a) = relativePath (file b) -> a = b) ->
  jsSort compareFiles l1 = jsSort compareFiles l2.
Proof.
  intros P T. apply sorted_unique; try apply jsSort_sorted.
  - rewrite !jsSort_perm. exact P.
  - intros a b Ha Hb. apply T; eapply Permutation_in; try apply jsSort_perm; auto.
Qed.

(** The sort is stable: the issues on one path keep their order. *)
Lemma sortInsert_stable (p : str) (x : Issue) (l : list Issue) :
  filter (onPath p) (sortInsert compareFiles x l) = filter (onPath p) (x :: l).
Proof.
  induction l as [|y l IH]; [reflexivity|]. cbn [sortInsert].
  destruct (compareFiles x y <=? 0)%Z eqn:E; [reflexivity|].
  cbn [filter] in *. rewrite IH.
  destruct (onPath p x) eqn:Px, (onPath p y) eqn:Py; try reflexivity.
  exfalso. unfold onPath in Px, Py. apply eqb_true_iff in Px, Py.
  assert (C : (compareFiles x y <=? 0)%Z = true).
  { apply compareFiles_le. unfold pathLe. rewrite Px, Py, compare_refl.
    discriminate. }
  congruence.
Qed.

Lemma jsSort_stable (p : str) (l : list Issue) :
  filter (onPath p) (jsSort compareFiles l) = filter (onPath p) l.
Proof.
  unfold jsSort. induction l as [|x l IH]; [reflexivity|].
  cbn [fold_right]. rewrite sortInsert_stable. cbn [filter]. now rewrite IH.
Qed.

(** The order of the keys of an object. *)
Lemma keyBefore_inserted (c k : nat) :
  c <> k -> enumeratedBefore c k = true -> keyBefore c k.
Proof.
  unfold keyBefore, enumeratedBefore. intros N E.
  apply andb_true_iff in E. destruct E as [_ E]. apply orb_true_iff in E.
  split; [assumption|]. intros Ik. destruct E as [E|E].
  - rewrite Ik in E. discriminate.
  - now apply Nat.ltb_lt in E.
Qed.

Lemma keyBefore_skipped (c k : nat) :
  c <> k -> enumeratedBefore c k = false -> keyBefore k c.
Proof.
  unfold keyBefore, enumeratedBefore. intros N E. split; [congruence|].
  intros Ic. rewrite Ic in E. cbn [andb] in E. apply orb_false_iff in E.
  destruct E as [_ E]. apply Nat.ltb_ge in E. lia.
Qed.

Lemma keyBefore_later (c k k' : nat) :
  enumeratedBefore c k = true -> keyBefore k k' -> keyBefore c k'.
Proof.
  unfold keyBefore, enumeratedBefore, isArrayIndex. intros E [N L].
  apply andb_true_iff in E. destruct E as [Ic E]. apply Z.ltb_lt in Ic.
  destruct (Z.ltb_spec (Z.of_nat k') 4294967295) as [Ik'|Ik'].
  - specialize (L eq_refl).
    assert (Ik : (Z.of_nat k <? 4294967295)%Z = true)
      by (apply Z.ltb_lt; lia).
    rewrite Ik in E. cbn [negb orb] in E. apply Nat.ltb_lt in E.
    split; [lia|]. intros _. lia.
  - split; [lia|]. intros X. discriminate X.
Qed.

Lemma keyBefore_asym (c k : nat) :
  enumeratedBefore c k = true -> keyBefore k c -> False.
Proof.
  intros E B. destruct (keyBefore_later c k c E B) as [N _]. now apply N.
Qed.

Lemma keys_index_sorted (ks : list nat) :
  StronglySorted keyBefore ks ->
  (forall k, In k ks -> isArrayIndex k = true) ->
  StronglySorted lt ks.
Proof.
  induction 1 as [|k ks S IH F]; intros I; constructor.
  - apply IH. intros k' Hk'. apply I. now right.
  - rewrite Forall_forall in *. intros k' Hk'.
    apply (F k' Hk'). apply I. now right.
Qed.

(* ================================================================== *)
(** ** Issue keys *)
(* ================================================================== *)

Lemma to_uint_nonnil (n : nat) : Nat.to_uint n <> Decimal.Nil.
Proof.
  rewrite <- (Unsigned.of_to n) at 1. rewrite Unsigned.to_of.
  apply DecimalFacts.unorm_nonnil.
Qed.

Lemma keyOf_inj (a b : nat) : keyOf a = keyOf b -> a = b.
Proof.
  unfold keyOf. intros E.
  apply (f_equal string_of_list_ascii) in E.
  rewrite !string_of_list_ascii_of_string in E.
  apply (f_equal NilZero.uint_of_string) in E.
  rewrite !NilZero.usu in E by apply to_uint_nonnil.
  injection E as E. now apply Unsigned.to_uint_inj.
Qed.

(* ================================================================== *)
(** ** formatIssues *)
(* ================================================================== *)

Section Aggregation.

Context `{Collaborators}.

Ltac new_group E :=
  unfold newGroup in E;
  let T := fresh "T" in
  destruct (issuesTable _) eqn:T; simpl in E; try discriminate E;
  injection E as E; subst.

Lemma categorize1_keys (i : Issue) (cat cat' : Categorized) :
  categorize1 i cat = Some cat' ->
  forall k, In k (map fst cat') <-> k = code i \/ In k (map fst cat).
Proof.
  revert cat'. induction cat as [|[k g] rest IH]; simpl; intros cat' E k0.
  - new_group E. simpl. intuition congruence.
  - destruct (code i =? k) eqn:Ek.
    + apply Nat.eqb_eq in Ek. injection E as <-. simpl. intuition congruence.
    + destruct (enumeratedBefore (code i) k).
      * new_group E. simpl. intuition congruence.
      * destruct (categorize1 i rest) as [rest'|] eqn:R; simpl in E;
          [|discriminate]. injection E as <-. simpl.
        rewrite (IH _ eq_refl). tauto.
Qed.

Lemma categorize1_sorted (i : Issue) (cat cat' : Categorized) :
  StronglySorted keyBefore (map fst cat) -> categorize1 i cat = Some cat' ->
  StronglySorted keyBefore (map fst cat').
Proof.
  revert cat'. induction cat as [|[k g] rest IH]; simpl; intros cat' S E.
  - new_group E. simpl. repeat constructor.
  - inversion S as [|? ? S' Hall]; subst.
    destruct (code i =? k) eqn:Ek.
    + injection E as <-. simpl. now constructor.
    + apply Nat.eqb_neq in Ek.
      destruct (enumeratedBefore (code i) k) eqn:Lk.
      * new_group E. simpl.
        constructor; [assumption|].
        constructor; [now apply keyBefore_inserted|].
        eapply Forall_impl; [|exact Hall]. intros k'.
        now apply keyBefore_later.
      * destruct (categorize1 i rest) as [rest'|] eqn:R; simpl in E;
          [|discriminate]. injection E as <-. simpl.
        constructor; [now apply IH|].
        rewrite Forall_forall. intros k' Hk'.
        apply (categorize1_keys _ _ _ R) in Hk'. destruct Hk' as [->|Hk'].
        -- now apply keyBefore_skipped.
        -- rewrite Forall_forall in Hall. now apply Hall.
Qed.

Lemma filter_hasCode_app (k : nat) (l : list Issue) (i : Issue) :
  filter (hasCode k) (l ++ [i])
  = filter (hasCode k) l ++ (if code i =? k then [i] else []).
Proof. rewrite filter_app. reflexivity. Qed.

Lemma filter_hasCode_nil (k : nat) (l : list Issue) :
  (forall j, In j l -> code j <> k) -> filter (hasCode k) l = [].
Proof.
  induction l as [|j l IH]; simpl; intros Hn; [reflexivity|].
  unfold hasCode at 1. destruct (code j =? k) eqn:E.
  - apply Nat.eqb_eq in E. exfalso. apply (Hn j); auto.
  - apply IH. intros. apply Hn. auto.
Qed.

Lemma entryOK_other (l : list Issue) (i : Issue) (e : nat * IssueGroup) :
  entryOK l e -> fst e <> code i -> entryOK (l ++ [i]) e.
Proof.
  intros (meta & T & G) Hne. exists meta. split; [assumption|].
  rewrite G. unfold groupOf. rewrite filter_hasCode_app.
  destruct (code i =? fst e) eqn:E; [apply Nat.eqb_eq in E; congruence|].
  now rewrite app_nil_r.
Qed.

Lemma entryOK_push (l : list Issue) (i : Issue) (k : nat) (g : IssueGroup) :
  entryOK l (k, g) -> code i = k -> entryOK (l ++ [i]) (k, pushFile g i).
Proof.
  intros (meta & T & G) E. simpl in *. exists meta. split; [assumption|].
  simpl. rewrite G. unfold pushFile, groupOf. simpl.
  rewrite filter_hasCode_app. now rewrite (proj2 (Nat.eqb_eq _ _) E).
Qed.

Lemma entryOK_new (l : list Issue) (i : Issue) (e : nat * IssueGroup) :
  newGroup (code i) i = Some e -> filter (hasCode (code i)) l = [] ->
  entryOK (l ++ [i]) e.
Proof.
  intros E F. new_group E. exists i0. simpl. split; [assumption|].
  unfold groupOf. now rewrite filter_hasCode_app, F, Nat.eqb_refl.
Qed.

Lemma categorize1_entries (l : list Issue) (i : Issue) (cat cat' : Categorized) :
  StronglySorted keyBefore (map fst cat) -> Forall (entryOK l) cat ->
  (~ In (code i) (map fst cat) -> filter (hasCode (code i)) l = []) ->
  categorize1 i cat = Some cat' ->
  Forall (entryOK (l ++ [i])) cat'.
Proof.
  revert cat'. induction cat as [|[k g] rest IH]; simpl; intros cat' S F N E.
  - destruct (newGroup (code i) i) as [e|] eqn:G; simpl in E; [|discriminate].
    injection E as <-. constructor; [|constructor].
    apply entryOK_new; auto.
  - inversion S as [|? ? S' Hall]; subst.
    inversion F as [|? ? Fk Frest]; subst.
    rewrite Forall_forall in Hall.
    destruct (code i =? k) eqn:Ek.
    + apply Nat.eqb_eq in Ek. injection E as <-.
      constructor; [now apply entryOK_push|].
      rewrite Forall_forall in *. intros e He.
      apply entryOK_other; [now apply Frest|].
      destruct (Hall (fst e) (in_map fst _ _ He)) as [Ne _]. congruence.
    + apply Nat.eqb_neq in Ek.
      destruct (enumeratedBefore (code i) k) eqn:Lk.
      * assert (Fresh : ~ In (code i) (map fst rest)).
        { intros Hin. exact (keyBefore_asym _ _ Lk (Hall _ Hin)). }
        destruct (newGroup (code i) i) as [e|] eqn:G; simpl in E;
          [|discriminate]. injection E as <-.
        constructor.
        -- apply entryOK_new; auto. apply N. intros [E0|Hin];
             [congruence|contradiction].
        -- constructor; [apply entryOK_other; simpl; auto|].
           rewrite Forall_forall in *. intros e' He.
           apply entryOK_other; [now apply Frest|].
           intros E0. apply Fresh. rewrite <- E0. now apply in_map.
      * destruct (categorize1 i rest) as [rest'|] eqn:R; simpl in E;
          [|discriminate]. injection E as <-.
        constructor; [apply entryOK_other; simpl; auto|].
        apply IH; auto. intros Hn. apply N. intros [E0|Hin];
          [congruence|tauto].
Qed.

Lemma categorize1_none (l : list Issue) (i : Issue) (cat : Categorized) :
  Forall (entryOK l) cat ->
  (categorize1 i cat = None <-> issuesTable (code i) = None).
Proof.
  induction cat as [|[k g] rest IH]; simpl; intros F.
  - unfold newGroup. destruct (issuesTable (code i)); simpl;
      split; intros E0; (discriminate E0 || reflexivity).
  - inversion F as [|? ? (meta & T & _) Frest]; subst. simpl in T.
    destruct (code i =? k) eqn:Ek.
    + apply Nat.eqb_eq in Ek. rewrite Ek, T. split; discriminate.
    + destruct (enumeratedBefore (code i) k).
      * unfold newGroup. destruct (issuesTable (code i)); simpl;
          split; intros E0; (discriminate E0 || reflexivity).
      * rewrite <- (IH Frest).
        destruct (categorize1 i rest); simpl;
          split; intros E0; (discriminate E0 || reflexivity).
Qed.

Lemma catInv_nil : catInv [] [].
Proof.
  repeat split; simpl; try constructor; try tauto.
  intros (i & [] & _).
Qed.

Lemma catInv_table (l : list Issue) (cat : Categorized) (i : Issue) :
  catInv l cat -> In i l -> issuesTable (code i) <> None.
Proof.
  intros (_ & F & K) Hin.
  assert (Hk : In (code i) (map fst cat)) by (apply K; eauto).
  apply in_map_iff in Hk. destruct Hk as (e & E & He).
  rewrite Forall_forall in F. destruct (F _ He) as (meta & T & _).
  congruence.
Qed.

Lemma catInv_step (l : list Issue) (i : Issue) (cat cat' : Categorized) :
  catInv l cat -> categorize1 i cat = Some cat' -> catInv (l ++ [i]) cat'.
Proof.
  intros (S & F & K) E. repeat split.
  - eapply categorize1_sorted; eauto.
  - eapply categorize1_entries; eauto.
    intros N. apply filter_hasCode_nil. intros j Hj Hc.
    apply N, K. eauto.
  - intros Hk. apply (categorize1_keys _ _ _ E) in Hk.
    destruct Hk as [->|Hk].
    + exists i. split; [apply in_or_app; simpl; auto|reflexivity].
    + apply K in Hk. destruct Hk as (j & Hj & Hc).
      exists j. split; [apply in_or_app; auto|assumption].
  - intros (j & Hj & Hc). apply (categorize1_keys _ _ _ E).
    apply in_app_or in Hj. destruct Hj as [Hj|[<-|[]]]; [|auto].
    right. apply K. eauto.
Qed.

Lemma categorize_spec (l : list Issue) :
  forall l0 cat0, catInv l0 cat0 ->
  match categorize l cat0 with
  | Some cat => catInv (l0 ++ l) cat
  | None => exists i, In i l /\ issuesTable (code i) = None
  end.
Proof.
  induction l as [|i l IH]; simpl; intros l0 cat0 I.
  - now rewrite app_nil_r.
  - destruct (categorize1 i cat0) as [cat1|] eqn:E.
    + specialize (IH _ _ (catInv_step _ _ _ _ I E)).
      destruct (categorize l cat1).
      * now rewrite <- app_assoc in IH.
      * destruct IH as (j & Hj & T). eauto.
    + destruct I as (_ & F & _).
      apply (categorize1_none _ _ _ F) in E. eauto.
Qed.

Lemma bySeverity_step (options : Options) (k : nat) (g : IssueGroup)
      (rest : Categorized) (e w : list IssueGroup) :
  bySeverity options ((k, g) :: rest) e w
  = bySeverity options rest
      (e ++ if isError (sortedGroup g) then [sortedGroup g] else [])
      (w ++ if negb (isError (sortedGroup g)) && isWarning (sortedGroup g)
               && negb (ignoreWarnings options)
            then [sortedGroup g] else []).
Proof.
  unfold isError, isWarning. simpl.
  destruct (JsString.eqb (severity g) _); simpl.
  - now rewrite app_nil_r.
  - destruct (JsString.eqb (severity g) _); simpl;
      [destruct (ignoreWarnings options); simpl|];
      now rewrite ?app_nil_r.
Qed.

Lemma bySeverity_spec (options : Options) (cat : Categorized) :
  forall e w,
  bySeverity options cat e w
  = (e ++ filter isError (sortedGroups cat),
     w ++ if ignoreWarnings options then []
          else filter (fun g => negb (isError g) && isWarning g)
                      (sortedGroups cat)).
Proof.
  induction cat as [|[k g] rest IH]; intros e w.
  - simpl. destruct (ignoreWarnings options); now rewrite !app_nil_r.
  - rewrite bySeverity_step, IH. unfold sortedGroups. cbn [map filter snd].
    destruct (isError (sortedGroup g)), (isWarning (sortedGroup g)),
      (ignoreWarnings options); cbn [negb andb];
      rewrite <- ?app_assoc, ?app_nil_r; reflexivity.
Qed.

(** What [formatIssues] returns, in terms of the categorization. *)
Lemma formatIssues_spec (options : Options) (l : list Issue) :
  match formatIssues options l with
  | Some (e, w) =>
      exists cat, catInv l cat
        /\ e = filter isError (sortedGroups cat)
        /\ w = (if ignoreWarnings options then []
                else filter (fun g => negb (isError g) && isWarning g)
                            (sortedGroups cat))
  | None => exists i, In i l /\ issuesTable (code i) = None
  end.
Proof.
  unfold formatIssues. pose proof (categorize_spec l [] [] catInv_nil) as C.
  destruct (categorize l []) as [cat|]; [|exact C].
  rewrite bySeverity_spec. simpl. exists cat. auto.
Qed.

Lemma formatIssues_total (options : Options) (l : list Issue) :
  (forall i, In i l -> issuesTable (code i) <> None) ->
  formatIssues options l <> None.
Proof.
  intros Hall E. pose proof (formatIssues_spec options l) as S.
  rewrite E in S. destruct S as (i & Hi & T). now apply (Hall i).
Qed.

(** Every group of the output is a table entry under its key, with the
    issues of that code, sorted. *)
Lemma sortedGroups_In (l : list Issue) (cat : Categorized) (g : IssueGroup) :
  catInv l cat -> In g (sortedGroups cat) ->
  exists k meta, issuesTable k = Some meta
                 /\ g = sortedGroup (groupOf k meta l).
Proof.
  intros (_ & F & _) Hin. apply in_map_iff in Hin.
  destruct Hin as (e & <- & He). rewrite Forall_forall in F.
  destruct (F _ He) as (meta & T & G). exists (fst e), meta.
  split; [assumption|]. now rewrite G.
Qed.

End Aggregation.

(* ================================================================== *)
(** ** Properties of the aggregated output *)
(* ================================================================== *)

Lemma Permutation_filter' (f : Issue -> bool) (l l' : list Issue) :
  Permutation l l' -> Permutation (filter f l) (filter f l').
Proof.
  induction 1 as [|x l l' P IH|x y l|l l' l'' P1 IH1 P2 IH2]; simpl.
  - constructor.
  - destruct (f x); [now constructor|assumption].
  - destruct (f x), (f y); try reflexivity. apply perm_swap.
  - now transitivity (filter f l').
Qed.

Lemma sorted_keys_unique (a b : list nat) :
  StronglySorted lt a -> StronglySorted lt b ->
  (forall k, In k a <-> In k b) -> a = b.
Proof.
  intros Sa. revert b. induction Sa as [|x a Sa IH Hx]; intros b Sb E.
  - destruct b as [|y b]; [reflexivity|].
    exfalso. apply (proj2 (E y)). simpl. auto.
  - destruct Sb as [|y b Sb Hy].
    + exfalso. apply (proj1 (E x)). simpl. auto.
    + rewrite Forall_forall in Hx, Hy.
      assert (x = y).
      { destruct (proj1 (E x) (or_introl eq_refl)) as [->|Hxb]; [reflexivity|].
        destruct (proj2 (E y) (or_introl eq_refl)) as [->|Hya]; [reflexivity|].
        apply Hx in Hya. apply Hy in Hxb. lia. }
      subst y. f_equal. apply IH; [assumption|].
      intros k. split; intros Hk.
      * destruct (proj1 (E k) (or_intror Hk)) as [<-|]; [|assumption].
        apply Hx in Hk. lia.
      * destruct (proj2 (E k) (or_intror Hk)) as [<-|]; [|assumption].
        apply Hy in Hk. lia.
Qed.

Lemma fieldmapRelatedCodes_keys : fieldmapRelatedCodes = map keyOf [6; 7; 8; 9].
Proof. reflexivity. Qed.

Section AggregationProperties.

Context `{Collaborators}.

Lemma sortedGroups_perm (l l' : list Issue) :
  Permutation l l' ->
  (forall i j, In i l -> In j l -> code i = code j ->
               relativePath (file i) = relativePath (file j) -> i = j) ->
  forall cat1 cat2,
  map fst cat1 = map fst cat2 ->
  Forall (entryOK l) cat1 -> Forall (entryOK l') cat2 ->
  sortedGroups cat1 = sortedGroups cat2.
Proof.
  intros P T. induction cat1 as [|[k g1] cat1 IH]; intros [|[k2 g2] cat2];
    simpl; try discriminate; [reflexivity|].
  intros [= <- Ek] F1 F2.
  inversion F1 as [|? ? (m1 & T1 & G1) F1']; subst.
  inversion F2 as [|? ? (m2 & T2 & G2) F2']; subst.
  simpl in *. f_equal; [|now apply IH].
  rewrite T1 in T2. injection T2 as <-. rewrite G1, G2.
  unfold sortedGroup, groupOf. simpl. f_equal.
  apply jsSort_perm_invariant; [now apply Permutation_filter'|].
  intros a b Ha Hb. apply filter_In in Ha, Hb.
  destruct Ha as [Ha Ca], Hb as [Hb Cb]. unfold hasCode in *.
  apply Nat.eqb_eq in Ca, Cb. apply T; auto. congruence.
Qed.

Lemma sortedGroup_perm (l l' : list Issue) (k : nat) (meta : IssueMeta) :
  Permutation l l' ->
  (forall i j, In i l -> In j l -> code i = code j ->
               relativePath (file i) = relativePath (file j) -> i = j) ->
  sortedGroup (groupOf k meta l) = sortedGroup (groupOf k meta l').
Proof.
  intros P T. unfold sortedGroup, groupOf. simpl. f_equal.
  apply jsSort_perm_invariant; [now apply Permutation_filter'|].
  intros a b Ha Hb. apply filter_In in Ha, Hb.
  destruct Ha as [Ha Ca], Hb as [Hb Cb]. unfold hasCode in *.
  apply Nat.eqb_eq in Ca, Cb. apply T; auto. congruence.
Qed.

Lemma sortedGroups_iff (l : list Issue) (cat : Categorized) (g : IssueGroup) :
  catInv l cat ->
  In g (sortedGroups cat) <->
  exists k meta, issuesTable k = Some meta
                 /\ (exists i, In i l /\ code i = k)
                 /\ g = sortedGroup (groupOf k meta l).
Proof.
  intros (_ & F & K). rewrite Forall_forall in F. unfold sortedGroups.
  rewrite in_map_iff. split.
  - intros ([k g0] & <- & He). destruct (F _ He) as (meta & T & G).
    cbn [fst snd] in *. exists k, meta. split; [assumption|]. split.
    + apply K, in_map_iff. exists (k, g0). auto.
    + now rewrite G.
  - intros (k & meta & T & Hi & ->). apply K in Hi. apply in_map_iff in Hi.
    destruct Hi as ([k' g0] & E & He). cbn [fst] in E. subst k'.
    exists (k, g0). split; [|assumption].
    destruct (F _ He) as (meta' & T' & G). cbn [fst snd] in *.
    rewrite T in T'. injection T' as <-. now rewrite G.
Qed.

Lemma sortedGroups_same (l l' : list Issue) (cat cat' : Categorized) :
  Permutation l l' ->
  (forall i j, In i l -> In j l -> code i = code j ->
               relativePath (file i) = relativePath (file j) -> i = j) ->
  catInv l cat -> catInv l' cat' ->
  forall g, In g (sortedGroups cat) <-> In g (sortedGroups cat').
Proof.
  intros P T I I' g.
  rewrite (sortedGroups_iff l cat g I), (sortedGroups_iff l' cat' g I').
  split; intros (k & meta & Tk & (i & Hi & Hc) & ->); exists k, meta;
    (split; [assumption|]); split.
  - exists i. split; [exact (Permutation_in _ P Hi)|assumption].
  - now apply sortedGroup_perm.
  - exists i. split; [exact (Permutation_in _ (Permutation_sym P) Hi)|assumption].
  - symmetry. now apply sortedGroup_perm.
Qed.

Lemma formatIssues_throws_perm (options : Options) (l l' : list Issue) :
  Permutation l l' ->
  (formatIssues options l = None <-> formatIssues options l' = None).
Proof.
  intros P.
  pose proof (formatIssues_spec options l) as S1.
  pose proof (formatIssues_spec options l') as S2.
  destruct (formatIssues options l) as [[e1 w1]|],
           (formatIssues options l') as [[e2 w2]|]; split; intros E;
    try discriminate E; try reflexivity; exfalso.
  - destruct S1 as (cat1 & I1 & _), S2 as (i & Hi & Tn).
    apply (catInv_table _ _ i I1); [|assumption].
    eapply Permutation_in; [symmetry|]; eauto.
  - destruct S2 as (cat2 & I2 & _), S1 as (i & Hi & Tn).
    apply (catInv_table _ _ i I2); [|assumption].
    eapply Permutation_in; eauto.
Qed.

Lemma formatIssues_perm (options : Options) (l l' : list Issue) :
  Permutation l l' ->
  (forall i j, In i l -> In j l -> code i = code j ->
               relativePath (file i) = relativePath (file j) -> i = j) ->
  (forall i, In i l -> isArrayIndex (code i) = true) ->
  formatIssues options l' = formatIssues options l.
Proof.
  intros P T X.
  pose proof (formatIssues_spec options l) as S1.
  pose proof (formatIssues_spec options l') as S2.
  pose proof (formatIssues_throws_perm options l l' P) as N.
  destruct (formatIssues options l) as [[e1 w1]|],
           (formatIssues options l') as [[e2 w2]|].
  - destruct S1 as (cat1 & I1 & -> & ->), S2 as (cat2 & I2 & -> & ->).
    assert (E : sortedGroups cat1 = sortedGroups cat2).
    { destruct I1 as (So1 & F1 & K1), I2 as (So2 & F2 & K2).
      apply (sortedGroups_perm l l' P T); auto.
      apply sorted_keys_unique.
      - apply keys_index_sorted; [assumption|]. intros k Hk.
        apply K1 in Hk. destruct Hk as (i & Hi & <-). now apply X.
      - apply keys_index_sorted; [assumption|]. intros k Hk.
        apply K2 in Hk. destruct Hk as (i & Hi & <-). apply X.
        exact (Permutation_in _ (Permutation_sym P) Hi).
      - intros k. rewrite K1, K2. split; intros (i & Hi & Hc); exists i;
          (split; [|assumption]).
        + exact (Permutation_in _ P Hi).
        + exact (Permutation_in _ (Permutation_sym P) Hi). }
    now rewrite E.
  - exfalso. destruct N as [_ N]. discriminate (N eq_refl).
  - exfalso. destruct N as [N _]. discriminate (N eq_refl).
  - reflexivity.
Qed.

Lemma output_groups (options : Options) (l : list Issue)
      (e w : list IssueGroup) (g : IssueGroup) :
  formatIssues options l = Some (e, w) -> In g (e ++ w) ->
  exists k meta,
    issuesTable k = Some meta
    /\ g = sortedGroup (groupOf k meta l)
    /\ (isError g = true \/ isWarning g = true)
    /\ exists i, In i l /\ code i = k.
Proof.
  intros E Hin. pose proof (formatIssues_spec options l) as S.
  rewrite E in S. destruct S as (cat & I & -> & ->).
  assert (Hg : In g (sortedGroups cat)
               /\ (isError g = true \/ isWarning g = true)).
  { apply in_app_or in Hin. destruct Hin as [Hin|Hin].
    - apply filter_In in Hin. tauto.
    - destruct (ignoreWarnings options); [contradiction|].
      apply filter_In in Hin. destruct Hin as [? Hw].
      apply andb_true_iff in Hw. tauto. }
  destruct Hg as [Hg Hsev]. destruct I as (_ & F & K).
  apply in_map_iff in Hg. destruct Hg as ([k g0] & <- & He).
  rewrite Forall_forall in F. destruct (F _ He) as (meta & T & G).
  simpl in *. exists k, meta. repeat split; auto.
  - now rewrite G.
  - apply K. apply in_map_iff. exists (k, g0). auto.
Qed.

Lemma finish_eq (options : Options) (l : list Issue) (summary : Summary) :
  finish options l summary
  = match formatIssues options l with
    | Some (e, w) =>
        Some (e,
              if in_dec str_eq_dec fieldmap (groupModalities (modalities summary))
              then w else filterWarnings w,
              withModalities summary (groupModalities (modalities summary)))
    | None => None
    end.
Proof.
  unfold finish. destruct (formatIssues options l) as [[e w]|]; [|reflexivity].
  cbn [modalities withModalities].
  destruct (JsArray.indexOf _ _ <? 0)%Z eqn:E;
    destruct (in_dec str_eq_dec fieldmap _) as [Hin|Hnin];
    try reflexivity; exfalso.
  - apply arr_indexOf_neg_iff in E. contradiction.
  - apply arr_indexOf_neg_iff in Hnin.
    pose proof (eq_trans (eq_sym Hnin) E). discriminate.
Qed.

(** C4. What the last callback passes on: the modalities are the grouped
    ones, the errors are those of [formatIssues] untouched, and the
    warnings are those of [formatIssues] when the grouped modalities
    hold "fieldmap", and otherwise exactly those whose code is none of
    6, 7, 8, 9.  The callback is reached whenever [formatIssues]
    returns. *)
Theorem fieldmap_warning_suppression (options : Options) (l : list Issue)
        (summary : Summary) :
  (formatIssues options l <> None -> finish options l summary <> None)
  /\ forall e w s,
     finish options l summary = Some (e, w, s) ->
     exists w0,
       formatIssues options l = Some (e, w0)
       /\ modalities s = groupModalities (modalities summary)
       /\ (In fieldmap (modalities s) -> w = w0)
       /\ (~ In fieldmap (modalities s) ->
           forall g, In g w <->
                     In g w0 /\ forall c, In c [6; 7; 8; 9] -> gcode g <> keyOf c).
Proof.
  rewrite finish_eq. destruct (formatIssues options l) as [[e0 w0]|]; split;
    try congruence.
  intros e w s [= <- <- <-]. exists w0. cbn [modalities withModalities].
  split; [reflexivity|]. split; [reflexivity|].
  destruct (in_dec str_eq_dec fieldmap _) as [Hin|Hnin].
  - split; [reflexivity|]. intros N. contradiction.
  - split; [intros; contradiction|].
    intros _ g. unfold filterWarnings. rewrite filter_In.
    rewrite arr_indexOf_neg_iff, fieldmapRelatedCodes_keys, in_map_iff.
    split; intros [Hg Hc]; (split; [assumption|]).
    + intros c Hc' Ec. apply Hc. exists c. auto.
    + intros (c & Ec & Hc'). apply (Hc c); auto.
Qed.

Lemma phase2_options (o o' : Options) (fileList : list File) (c : Ctx) :
  ignoreNiftiHeaders o = ignoreNiftiHeaders o' ->
  phase2 o fileList c = phase2 o' fileList c.
Proof.
  intros E. unfold phase2.
  assert (F : forall l c0,
             fold_left (fun c1 f => validateNifti o fileList f c1) l c0
             = fold_left (fun c1 f => validateNifti o' fileList f c1) l c0).
  { induction l as [|g l IH]; simpl; intros c0; [reflexivity|].
    unfold validateNifti at 2 4. rewrite E. apply IH. }
  now rewrite F.
Qed.

Lemma finish_ignoreWarnings (o o' : Options) (l : list Issue)
      (summary : Summary) :
  ignoreWarnings o = true -> ignoreWarnings o' = false ->
  match finish o l summary, finish o' l summary with
  | Some (e, w, s), Some (e', w', s') => w = [] /\ e = e' /\ s = s'
  | None, None => True
  | _, _ => False
  end.
Proof.
  intros Ht Hf. unfold finish, formatIssues.
  destruct (categorize l []) as [cat|]; [|exact I].
  rewrite !bySeverity_spec, Ht, Hf. simpl.
  destruct (JsArray.indexOf _ _ <? 0)%Z; auto.
Qed.

(** C6. With [ignoreWarnings] set the warnings passed on are empty, and
    the errors and the summary are those of a run without it; one run
    fails exactly when the other does.  This holds for the last callback
    on any issue list and summary, and for a whole run of [fullTest]. *)
Theorem ignoreWarnings_empties_warnings (raw raw' : RawOptions) :
  truthy (rawIgnoreWarnings raw) = true ->
  truthy (rawIgnoreWarnings raw') = false ->
  (forall l summary,
     match finish (parseOptions raw) l summary,
           finish (parseOptions raw') l summary with
     | Some (e, w, s), Some (e', w', s') => w = [] /\ e = e' /\ s = s'
     | None, None => True
     | _, _ => False
     end)
  /\ (truthy (rawIgnoreNiftiHeaders raw) = truthy (rawIgnoreNiftiHeaders raw') ->
      forall fileList,
        match fullTest (parseOptions raw) fileList,
              fullTest (parseOptions raw') fileList with
        | Some (e, w, s), Some (e', w', s') => w = [] /\ e = e' /\ s = s'
        | None, None => True
        | _, _ => False
        end).
Proof.
  intros Ht Hf.
  assert (Ht' : ignoreWarnings (parseOptions raw) = true)
    by (simpl; now rewrite Ht).
  assert (Hf' : ignoreWarnings (parseOptions raw') = false)
    by (simpl; now rewrite Hf).
  split.
  - intros l summary. now apply finish_ignoreWarnings.
  - intros Hn fileList. unfold fullTest.
    rewrite (phase2_options (parseOptions raw) (parseOptions raw'))
      by (simpl; now rewrite Hn).
    now apply finish_ignoreWarnings.
Qed.

(** C10. A code whose table entry has a severity other than "error" and
    "warning" has no group in either list, and [formatIssues] returns
    as long as every code has a table entry. *)
Theorem other_severity_dropped (options : Options) (l : list Issue)
        (c : nat) (meta : IssueMeta) :
  issuesTable c = Some meta ->
  metaSeverity meta <> "error" ->
  metaSeverity meta <> "warning" ->
  (forall e w, formatIssues options l = Some (e, w) ->
               forall g, In g (e ++ w) -> gcode g <> keyOf c)
  /\ ((forall i, In i l -> issuesTable (code i) <> None) ->
      formatIssues options l <> None).
Proof.
  intros T Ne Nw. split; [|apply formatIssues_total].
  intros e w E g Hin Ec.
  destruct (output_groups _ _ _ _ _ E Hin) as (k & m & Tk & -> & Hsev & _).
  simpl in Ec. apply keyOf_inj in Ec. subst k.
  rewrite T in Tk. injection Tk as <-.
  unfold isError, isWarning in Hsev. simpl in Hsev.
  destruct Hsev as [Hs|Hs]; apply eqb_true_iff in Hs; auto.
Qed.

(** C7, as the code has it.  An issue whose code is rated error, or
    warning when warnings are kept, is among the files of the group of
    its code.  For every issue list, the files of a group are the issues
    of its code, sorted by the relative path of their file, ascending,
    the issues on one and the same path in the order in which they were
    appended.  When no two issues of the same code are on the same
    path, appending the issues in another order gives the same groups
    with the same files, and the same output altogether when every code
    is an array index, the only keys that an object enumerates in
    numeric order.  Two code-1 issues on /sub-02/x and /sub-01/y come
    out as /sub-01/y then /sub-02/x in either order. *)
Theorem formatIssues_order (options : Options) (l : list Issue) :
  (forall e w i meta,
     formatIssues options l = Some (e, w) -> In i l ->
     issuesTable (code i) = Some meta ->
     metaSeverity meta = "error"
     \/ (metaSeverity meta = "warning" /\ ignoreWarnings options = false) ->
     exists g, In g (e ++ w) /\ gcode g = keyOf (code i) /\ In i (files g))
  /\ (forall e w g,
        formatIssues options l = Some (e, w) -> In g (e ++ w) ->
        exists k, gcode g = keyOf k
          /\ Permutation (files g) (filter (hasCode k) l)
          /\ StronglySorted pathLe (files g)
          /\ forall p, filter (onPath p) (files g)
                       = filter (onPath p) (filter (hasCode k) l))
  /\ (forall l',
        Permutation l l' ->
        (forall i j, In i l -> In j l -> code i = code j ->
                     relativePath (file i) = relativePath (file j) -> i = j) ->
        match formatIssues options l, formatIssues options l' with
        | Some (e, w), Some (e', w') =>
            (forall g, In g e <-> In g e') /\ (forall g, In g w <-> In g w')
        | None, None => True
        | _, _ => False
        end
        /\ ((forall i, In i l -> isArrayIndex (code i) = true) ->
            formatIssues options l' = formatIssues options l))
  /\ (let a := {| code := 1; file := sampleFile "/sub-02/x"; evidence := "x" |} in
      let b := {| code := 1; file := sampleFile "/sub-01/y"; evidence := "y" |} in
      forall l0 e w g,
        l0 = [a; b] \/ l0 = [b; a] ->
        formatIssues options l0 = Some (e, w) -> In g (e ++ w) ->
        files g = [b; a]).
Proof.
  split; [|split; [|split]].
  - intros e w i meta E Hi T Sev.
    pose proof (formatIssues_spec options l) as S. rewrite E in S.
    destruct S as (cat & I & -> & ->).
    assert (Hg : In (sortedGroup (groupOf (code i) meta l)) (sortedGroups cat))
      by (apply (sortedGroups_iff l cat _ I); exists (code i), meta; eauto).
    exists (sortedGroup (groupOf (code i) meta l)).
    split; [|split; [reflexivity|]].
    + apply in_or_app. destruct Sev as [Sev|[Sev Ig]].
      * left. apply filter_In. split; [assumption|].
        unfold isError. cbn [sortedGroup groupOf severity]. rewrite Sev.
        reflexivity.
      * right. rewrite Ig. apply filter_In. split; [assumption|].
        unfold isError, isWarning. cbn [sortedGroup groupOf severity].
        rewrite Sev. reflexivity.
    + cbn [sortedGroup groupOf files].
      apply (Permutation_in i (Permutation_sym (jsSort_perm _))).
      apply filter_In. split; [assumption|]. apply Nat.eqb_refl.
  - intros e w g E Hin.
    destruct (output_groups _ _ _ _ _ E Hin) as (k & m & _ & -> & _).
    exists k. cbn [sortedGroup groupOf gcode files].
    split; [reflexivity|]. split; [apply jsSort_perm|].
    split; [apply jsSort_sorted|]. intros p. apply jsSort_stable.
  - intros l' P T. split.
    + pose proof (formatIssues_spec options l) as S1.
      pose proof (formatIssues_spec options l') as S2.
      pose proof (formatIssues_throws_perm options l l' P) as N.
      destruct (formatIssues options l) as [[e1 w1]|],
               (formatIssues options l') as [[e2 w2]|].
      * destruct S1 as (cat1 & I1 & -> & ->), S2 as (cat2 & I2 & -> & ->).
        pose proof (sortedGroups_same l l' cat1 cat2 P T I1 I2) as Same.
        split; intros g.
        -- rewrite !filter_In, (Same g). reflexivity.
        -- destruct (ignoreWarnings options); [reflexivity|].
           rewrite !filter_In, (Same g). reflexivity.
      * destruct N as [_ N]. discriminate (N eq_refl).
      * destruct N as [N _]. discriminate (N eq_refl).
      * exact I.
    + intros X. now apply formatIssues_perm.
  - intros a b l0 e w g Hl0 E Hin.
    destruct (output_groups _ _ _ _ _ E Hin) as (k & m & _ & -> & _ & i & Hi & Hc).
    assert (Hk : k = 1)
      by (destruct Hl0; subst l0; simpl in Hi;
          destruct Hi as [<-|[<-|[]]]; exact (eq_sym Hc)).
    rewrite Hk. destruct Hl0; subst l0; reflexivity.
Qed.

End AggregationProperties.

Lemma fieldmap_warning_suppression_witness :
  let warning6 :=
    {| code := 6; file := sampleFile "/sub-01/func/sub-01_task-rest_bold.nii.gz";
       evidence := [] |} in
  let bold := map list_ascii_of_string ["bold"] in
  finish (H := sampleCollaborators) (mkOptions false false) [warning6]
         (sampleSummary bold)
  = Some ([], [], sampleSummary bold)
  /\ exists w0,
       formatIssues (H := sampleCollaborators) (mkOptions false false) [warning6]
       = Some ([], w0)
       /\ modalities (sampleSummary bold) = groupModalities bold
       /\ (In fieldmap bold -> [] = w0)
       /\ (~ In fieldmap bold ->
           forall g, In g [] <->
                     In g w0 /\ forall c, In c [6; 7; 8; 9] -> gcode g <> keyOf c).
Proof.
  intros warning6 bold.
  assert (E : finish (H := sampleCollaborators) (mkOptions false false)
                [warning6] (sampleSummary bold)
              = Some ([], [], sampleSummary bold)) by (vm_compute; reflexivity).
  split; [exact E|].
  exact (proj2 (@fieldmap_warning_suppression sampleCollaborators
                  (mkOptions false false) [warning6] (sampleSummary bold))
               [] [] (sampleSummary bold) E).
Defined.

Lemma ignoreWarnings_empties_warnings_witness :
  let raw := {| rawIgnoreWarnings := JsBool true;
                rawIgnoreNiftiHeaders := JsUndefined |} in
  let raw' := {| rawIgnoreWarnings := JsUndefined;
                 rawIgnoreNiftiHeaders := JsUndefined |} in
  let l := [ {| code := 6; file := sampleFile "/sub-01/fmap/sub-01_epi.nii.gz";
                evidence := [] |};
             {| code := 1; file := sampleFile "/sub-01/notes.txt";
                evidence := "notes.txt" |} ] in
  let summary := sampleSummary (map list_ascii_of_string ["epi"]) in
  truthy (rawIgnoreWarnings raw) = true
  /\ truthy (rawIgnoreWarnings raw') = false
  /\ match finish (H := sampleCollaborators) (parseOptions raw) l summary,
           finish (H := sampleCollaborators) (parseOptions raw') l summary with
     | Some (e, w, s), Some (e', w', s') => w = [] /\ e = e' /\ s = s'
     | None, None => True
     | _, _ => False
     end.
Proof.
  intros raw raw' l summary.
  split; [reflexivity|]. split; [reflexivity|].
  apply (proj1 (@ignoreWarnings_empties_warnings sampleCollaborators raw raw'
                  eq_refl eq_refl)).
Defined.

Lemma other_severity_dropped_witness :
  let l := [ {| code := 99; file := sampleFile "/sub-01/anat/sub-01_T1w.json";
                evidence := [] |};
             {| code := 1; file := sampleFile "/sub-01/notes.txt";
                evidence := "notes.txt" |} ] in
  let meta := {| metaSeverity := "ignore"; metaReason := "not reported" |} in
  issuesTable (Collaborators := sampleCollaborators) 99 = Some meta
  /\ (forall e w,
        formatIssues (H := sampleCollaborators) (mkOptions false false) l
        = Some (e, w) ->
        forall g, In g (e ++ w) -> gcode g <> keyOf 99)
  /\ ((forall i, In i l ->
         issuesTable (Collaborators := sampleCollaborators) (code i) <> None) ->
      formatIssues (H := sampleCollaborators) (mkOptions false false) l <> None).
Proof.
  intros l meta. split; [reflexivity|].
  apply (@other_severity_dropped sampleCollaborators (mkOptions false false)
           l 99 meta); [reflexivity| |]; vm_compute; discriminate.
Defined.

Lemma formatIssues_order_witness :
  let a := {| code := 1; file := sampleFile "/sub-02/x"; evidence := "x" |} in
  let b := {| code := 1; file := sampleFile "/sub-01/y"; evidence := "y" |} in
  Permutation [a; b] [b; a]
  /\ formatIssues (H := sampleCollaborators) (mkOptions false false) [b; a]
     = formatIssues (H := sampleCollaborators) (mkOptions false false) [a; b].
Proof.
  intros a b. split; [apply perm_swap|].
  destruct (@formatIssues_order sampleCollaborators (mkOptions false false)
              [a; b]) as (_ & _ & Order & _).
  apply (Order [b; a]); [apply perm_swap| |].
  - intros i j [<-|[<-|[]]] [<-|[<-|[]]] _ Hp; try reflexivity;
      discriminate Hp.
  - intros i [<-|[<-|[]]]; reflexivity.
Defined.

(** C7, as stated, fails: two issues of the same code on the same file
    come out in the order in which they were appended. *)
Lemma formatIssues_append_order_shows :
  let f := sampleFile "/sub-01/func/sub-01_task-rest_events.tsv" in
  let first := {| code := 1; file := f; evidence := "row 2" |} in
  let second := {| code := 1; file := f; evidence := "row 5" |} in
  Permutation [first; second] [second; first]
  /\ formatIssues (H := sampleCollaborators) (mkOptions false false)
       [first; second]
     <> formatIssues (H := sampleCollaborators) (mkOptions false false)
          [second; first].
Proof.
  intros f first second. split; [apply perm_swap|].
  vm_compute. intros E. discriminate E.
Qed.

(* ================================================================== *)
(** ** The first pass of fullTest *)
(* ================================================================== *)

Section FirstPass.

Context `{Collaborators}.






End FirstPass.


(* ================================================================== *)
(** ** quickTest *)
(* ================================================================== *)

Lemma startsWith_nil_false (p w : str) :
  JsString.startsWith p w = true -> p <> [] -> w <> [].
Proof. destruct p, w; simpl; congruence. Qed.

Lemma indexOf_ge (p w : str) : (-1 <= JsString.indexOf p w)%Z.
Proof.
  induction w as [|a w IH]; simpl.
  - destruct (JsString.startsWith p []); lia.
  - destruct (JsString.startsWith p (a :: w)); [lia|].
    destruct (JsString.indexOf p w <? 0)%Z eqn:E; lia.
Qed.

Lemma indexOf_zero_iff (p w : str) :
  (JsString.indexOf p w =? 0)%Z = true <-> JsString.startsWith p w = true.
Proof.
  destruct w as [|a w]; simpl.
  - destruct (JsString.startsWith p []); simpl; split; congruence.
  - destruct (JsString.startsWith p (a :: w)); [tauto|].
    pose proof (indexOf_ge p w).
    destruct (JsString.indexOf p w <? 0)%Z eqn:E; split; try discriminate; lia.
Qed.

Lemma startsAt0_iff (p : str) (v : option str) :
  p <> [] ->
  (startsAt0 p v = true <-> exists w, v = Some w /\ JsString.startsWith p w = true).
Proof.
  intros Hp. destruct v as [w|]; simpl.
  - rewrite andb_true_iff, indexOf_zero_iff. split.
    + intros [_ Hs]. eauto.
    + intros (w' & [= <-] & Hs). split; [|assumption].
      pose proof (startsWith_nil_false _ _ Hs Hp). now destruct w.
  - split; [discriminate|]. intros (w & E & _). discriminate.
Qed.

Lemma strIs_iff (lit : str) (v : option str) :
  strIs lit v = true <-> v = Some lit.
Proof.
  destruct v as [w|]; simpl; [rewrite eqb_true_iff|]; split; congruence.
Qed.

Lemma quickTest_exists (fileList : list File) :
  quickTest fileList = true <->
  exists f, In f fileList /\ quickTestFile f = true.
Proof.
  induction fileList as [|f l IH]; simpl.
  - split; [discriminate|]. intros (f & [] & _).
  - destruct (quickTestFile f) eqn:E.
    + split; [eauto|reflexivity].
    + rewrite IH. split; intros (g & Hg & Hq); eauto.
      destruct Hg as [<-|Hg]; [congruence|eauto].
Qed.

Lemma split_not_nil (sep : ascii) (w : str) : JsString.split sep w <> [].
Proof.
  destruct w as [|a w]; simpl; [discriminate|].
  destruct (Ascii.eqb a sep); [discriminate|].
  destruct (JsString.split sep w); discriminate.
Qed.

Lemma quickTestFile_iff (f : File) :
  quickTestFile f = true <->
  exists dirs d2 d1 fname,
    JsString.split "/" (relativePath f) = dirs ++ [d2; d1; fname]
    /\ nth_error (JsString.split "/" (relativePath f)) 1
       <> Some ("derivatives" : str)
    /\ JsString.includes ".nii" fname = true
    /\ In d1 (map list_ascii_of_string ["anat"; "func"; "dwi"])
    /\ (JsString.startsWith "ses-" d2 = true
        \/ JsString.startsWith "sub-" d2 = true).
Proof.
  unfold quickTestFile.
  set (parts := JsString.split "/" (relativePath f)).
  split.
  - destruct (JsString.truthy (relativePath f)); [|discriminate].
    destruct (strIs "derivatives" (nth_error parts 1)) eqn:D; [discriminate|].
    destruct (rev parts) as [|p0 [|d1 [|d2 above]]] eqn:R; intros Hq;
      try (cbn in Hq; rewrite ?andb_false_r in Hq; discriminate Hq).
    cbn [nth_error] in Hq.
    rewrite !andb_true_iff, !orb_true_iff, !strIs_iff in Hq.
    rewrite !startsAt0_iff in Hq by discriminate.
    destruct Hq as [[Hn Hd] Hs]. exists (rev above), d2, d1, p0.
    split; [|split; [|split; [|split]]].
    + rewrite <- (rev_involutive parts), R. simpl.
      now rewrite <- !app_assoc.
    + intros E. apply strIs_iff in E. congruence.
    + exact Hn.
    + simpl. destruct Hd as [[[= ->]|[= ->]]|[= ->]]; auto.
    + destruct Hs as [(w & [= <-] & Hs)|(w & [= <-] & Hs)]; auto.
  - intros (dirs & d2 & d1 & fname & E & D & Hn & Hd & Hs).
    assert (T : JsString.truthy (relativePath f) = true).
    { destruct (relativePath f) eqn:P; [|reflexivity].
      subst parts. try rewrite P in E. simpl in E.
      destruct dirs as [|? [|? ?]]; discriminate. }
    rewrite T.
    destruct (strIs "derivatives" (nth_error parts 1)) eqn:D';
      [apply strIs_iff in D'; contradiction|].
    rewrite E, rev_app_distr. cbn [rev app nth_error].
    rewrite !andb_true_iff, !orb_true_iff, !strIs_iff.
    rewrite !startsAt0_iff by discriminate.
    split; [split; [assumption|]|].
    + simpl in Hd. destruct Hd as [<-|[<-|[<-|[]]]]; auto.
    + destruct Hs; eauto.
Qed.

(** C5, as the code has it.  The quick test succeeds exactly when some
    file, whose first directory is not [derivatives], has a name that
    contains ".nii" and lies directly in a directory [anat], [func] or
    [dwi] that lies directly in a directory whose name starts with "ses-"
    or "sub-".  A tree with only a root participants.tsv fails it. *)
Theorem quickTest_characterization (fileList : list File) :
  (quickTest fileList = true <->
   exists f dirs d2 d1 fname,
     In f fileList
     /\ JsString.split "/" (relativePath f) = dirs ++ [d2; d1; fname]
     /\ nth_error (JsString.split "/" (relativePath f)) 1
        <> Some ("derivatives" : str)
     /\ JsString.includes ".nii" fname = true
     /\ In d1 (map list_ascii_of_string ["anat"; "func"; "dwi"])
     /\ (JsString.startsWith "ses-" d2 = true
         \/ JsString.startsWith "sub-" d2 = true))
  /\ quickTest [sampleFile "/participants.tsv"] = false.
Proof.
  split; [|reflexivity].
  rewrite quickTest_exists. split.
  - intros (f & Hf & Hq). apply quickTestFile_iff in Hq.
    destruct Hq as (dirs & d2 & d1 & fname & Hq). exists f, dirs, d2, d1, fname.
    tauto.
  - intros (f & dirs & d2 & d1 & fname & Hf & Hq). exists f.
    split; [assumption|]. apply quickTestFile_iff. eauto.
Qed.

Lemma quickTest_characterization_witness :
  quickTest [sampleFile "/sub-01/anat/sub-01_T1w.nii.gz"] = true.
Proof.
  apply (proj1 (quickTest_characterization _)).
  exists (sampleFile "/sub-01/anat/sub-01_T1w.nii.gz"),
    [[]], ("sub-01" : str), ("anat" : str), ("sub-01_T1w.nii.gz" : str).
  split; [simpl; auto|]. split; [reflexivity|].
  split; [discriminate|]. split; [reflexivity|].
  split; [simpl; auto|]. right. reflexivity.
Defined.

(** C5, as stated, fails: a file whose name only contains ".nii" passes
    the quick test although no file ends in a NIfTI extension, and so does
    an image under a [derivatives] directory that is not the first
    directory of its path. *)
Lemma quickTest_accepts_nii_inside_name :
  (let files := [sampleFile "/sub-01/anat/sub-01_T1w.nii.md5"] in
   quickTest files = true /\ specCouldBeBIDS files = false)
  /\ (let files :=
        [sampleFile "/sourcedata/derivatives/sub-01/anat/sub-01_T1w.nii.gz"] in
      quickTest files = true /\ specCouldBeBIDS files = false).
Proof. repeat split; vm_compute; reflexivity. Qed.

(* ================================================================== *)
(** ** The matcher and the relational reading of patterns *)
(* ================================================================== *)

Lemma strip_some (p w rest : str) : strip p w = Some rest -> w = p ++ rest.
Proof.
  revert w. induction p as [|a p IH]; intros [|b w]; simpl; try discriminate.
  - now intros [= ->].
  - now intros [= ->].
  - destruct (Ascii.eqb a b) eqn:E; [|discriminate].
    apply Ascii.eqb_eq in E. subst b. intros Hs. f_equal. now apply IH.
Qed.

Lemma starLoop_sound (p : ascii -> bool) (w : str) :
  forall i cs k res,
  starLoop p i w cs k = Some res ->
  exists u rest, w = u ++ rest /\ forallb p u = true
                 /\ k (MState (i + List.length u) rest cs) = Some res.
Proof.
  induction w as [|a w IH]; simpl; intros i cs k res E.
  - exists [], []. simpl. now rewrite Nat.add_0_r.
  - destruct (p a) eqn:Pa.
    + destruct (starLoop p (S i) w cs k) as [m|] eqn:L.
      * injection E as <-. destruct (IH _ _ _ _ L) as (u & rest & -> & Hu & Hk).
        exists (a :: u), rest. simpl. rewrite Pa, Nat.add_succ_r. auto.
      * exists [], (a :: w). simpl. now rewrite Nat.add_0_r.
    + exists [], (a :: w). simpl. now rewrite Nat.add_0_r.
Qed.

Lemma literal_sound (w : str) (s : mstate) (k : mstate -> option mstate)
      (res : mstate) :
  literal w s k = Some res -> exists t, advance w s t /\ k t = Some res.
Proof.
  unfold literal. destruct (strip w (inp s)) as [rest|] eqn:E; [|discriminate].
  intros Hk. exists (MState (pos s + List.length w) rest (caps s)).
  split; [|assumption]. apply strip_some in E. now repeat split.
Qed.

(** Whatever the matcher returns is a match in the relational reading. *)
Lemma rmatch_sound (r : regex) :
  forall s k res, rmatch r s k = Some res ->
  exists t, sem r s t /\ k t = Some res.
Proof.
  induction r as [| |w|c|c|c|r1 IH1 r2 IH2|r1 IH1 r2 IH2|r1 IH1|n r1 IH1|n];
    simpl; intros s k res E.
  - destruct (pos s =? 0) eqn:P; [|discriminate].
    apply Nat.eqb_eq in P. exists s. auto.
  - destruct (inp s) eqn:I; [|discriminate]. exists s. auto.
  - now apply literal_sound.
  - destruct (inp s) as [|a w'] eqn:I; [discriminate|].
    destruct (in_class c a) eqn:C; [|discriminate].
    exists (MState (S (pos s)) w' (caps s)). split; [|assumption].
    exists a. split; [assumption|]. repeat split; simpl; auto; lia.
  - destruct (inp s) as [|a w'] eqn:I; [discriminate|].
    destruct (in_class c a) eqn:C; [|discriminate].
    destruct (starLoop_sound _ _ _ _ _ _ E) as (u & rest & -> & Hu & Hk).
    exists (MState (S (pos s) + List.length u) rest (caps s)).
    split; [|assumption]. exists (a :: u). split; [discriminate|].
    split; [simpl; now rewrite C|]. repeat split; simpl; auto; lia.
  - destruct (starLoop_sound _ _ _ _ _ _ E) as (u & rest & I & Hu & Hk).
    exists (MState (pos s + List.length u) rest (caps s)).
    split; [|assumption]. exists u. split; [assumption|]. now repeat split.
  - destruct (IH1 _ _ _ E) as (m & S1 & E2).
    destruct (IH2 _ _ _ E2) as (t & S2 & Hk). exists t. eauto.
  - destruct (rmatch r1 s k) as [m|] eqn:E1.
    + injection E as <-. destruct (IH1 _ _ _ E1) as (t & S1 & Hk). eauto.
    + destruct (IH2 _ _ _ E) as (t & S2 & Hk). eauto.
  - destruct (rmatch r1 s _) as [m|] eqn:E1.
    + injection E as <-. destruct (IH1 _ _ _ E1) as (t & S1 & Hk).
      destruct (pos t =? pos s); [discriminate|]. eauto.
    + exists s. auto.
  - destruct (IH1 _ _ _ E) as (m & S1 & Hk). eauto.
  - destruct (capture n (caps s)) as [w|] eqn:C.
    + destruct (literal_sound _ _ _ _ E) as (t & A & Hk). exists t.
      split; assumption.
    + exists s. split; [reflexivity|assumption].
Qed.

Lemma searchFrom_sound (r : regex) (w : str) :
  forall i m, searchFrom r i w = Some m ->
  exists u v, w = u ++ v /\ sem r (MState (i + List.length u) v []) m.
Proof.
  induction w as [|a w IH]; simpl; intros i m E.
  - destruct (rmatch r (MState i [] []) _) as [m'|] eqn:R; [|discriminate].
    injection E as <-. destruct (rmatch_sound _ _ _ _ R) as (t & S & [= <-]).
    exists [], []. simpl. now rewrite Nat.add_0_r.
  - destruct (rmatch r (MState i (a :: w) []) _) as [m'|] eqn:R.
    + injection E as <-. destruct (rmatch_sound _ _ _ _ R) as (t & S & [= <-]).
      exists [], (a :: w). simpl. now rewrite Nat.add_0_r.
    + destruct (IH _ _ E) as (u & v & -> & S).
      exists (a :: u), v. simpl. rewrite Nat.add_succ_r. auto.
Qed.

(** An expression anchored with [^] can only match at the start. *)
Lemma exec_anchored (r : regex) (path : str) (m : mstate) :
  exec (Bol ;; r) path = Some m -> sem r (MState 0 path []) m.
Proof.
  unfold exec. intros E.
  destruct (searchFrom_sound _ _ _ _ E) as (u & v & -> & (s1 & [P ->] & S)).
  simpl in P. destruct u; [exact S|discriminate].
Qed.

Lemma capture_cons_other (n n0 : nat) (w : str) (cs : list (nat * str)) :
  n <> n0 -> capture n ((n0, w) :: cs) = capture n cs.
Proof.
  intros Hne. simpl. destruct (n =? n0) eqn:E; [|reflexivity].
  apply Nat.eqb_eq in E. contradiction.
Qed.

(** A pattern only touches the captures of its own groups. *)
Lemma sem_caps (r : regex) :
  forall s t n, sem r s t -> ~ In n (groups r) ->
  capture n (caps t) = capture n (caps s).
Proof.
  induction r as [| |w|c|c|c|r1 IH1 r2 IH2|r1 IH1 r2 IH2|r1 IH1|n0 r1 IH1|n0];
    simpl; intros s t n S Hn.
  - destruct S as [_ ->]. reflexivity.
  - destruct S as [_ ->]. reflexivity.
  - destruct S as (_ & _ & ->). reflexivity.
  - destruct S as (a & _ & _ & _ & ->). reflexivity.
  - destruct S as (w & _ & _ & _ & _ & ->). reflexivity.
  - destruct S as (w & _ & _ & _ & ->). reflexivity.
  - destruct S as (m & S1 & S2).
    rewrite (IH2 _ _ n S2), (IH1 _ _ n S1); auto; intros Hin; apply Hn;
      apply in_or_app; auto.
  - destruct S as [S|S]; [apply (IH1 _ _ n S)|apply (IH2 _ _ n S)];
      intros Hin; apply Hn; apply in_or_app; auto.
  - destruct S as [S| ->]; [now apply IH1|reflexivity].
  - destruct S as (m & S1 & ->). simpl caps.
    rewrite capture_cons_other by (intros ->; apply Hn; now left).
    apply IH1; [assumption|]. intros Hin. apply Hn. now right.
  - destruct (capture n0 (caps s)); [destruct S as (_ & _ & ->)|subst t];
      reflexivity.
Qed.

(* ================================================================== *)
(** ** The automaton and the strings a pattern consumes *)
(* ================================================================== *)

Lemma dfaRun_app (c0 : ascii) (q : nat) (u v : str) :
  dfaRun c0 q (u ++ v) = dfaRun c0 (dfaRun c0 q u) v.
Proof. apply fold_left_app. Qed.

Lemma In_allChars (a : ascii) : In a allChars.
Proof.
  unfold allChars. rewrite <- (ascii_nat_embedding a).
  apply in_map, in_seq. pose proof (nat_ascii_bounded a). lia.
Qed.

Lemma memState_iff (q : nat) (S : list nat) : memState q S = true <-> In q S.
Proof.
  unfold memState. rewrite existsb_exists. split.
  - intros (x & Hx & E). apply Nat.eqb_eq in E. now subst.
  - intros Hin. exists q. split; [assumption|apply Nat.eqb_refl].
Qed.

Lemma stepClass_sound (c0 : ascii) (c : cclass) (S : list nat) (q : nat)
      (a : ascii) :
  In q S -> in_class c a = true -> In (dfaStep c0 q a) (stepClass c0 c S).
Proof.
  intros Hq Ha. unfold stepClass. apply nodup_In, in_flat_map.
  exists q. split; [assumption|]. apply in_map. unfold classChars.
  apply filter_In. split; [apply In_allChars|assumption].
Qed.

Lemma saturate_incl (fuel : nat) (c0 : ascii) (c : cclass) :
  forall S q, In q S -> In q (saturate fuel c0 c S).
Proof.
  induction fuel as [|fuel IH]; simpl; intros S q Hq; [assumption|].
  apply IH, nodup_In, in_or_app. auto.
Qed.

Lemma closure_sound (c0 : ascii) (c : cclass) (S R : list nat) :
  closure c0 c S = Some R ->
  forall w q, In q S -> forallb (in_class c) w = true ->
  In (dfaRun c0 q w) R.
Proof.
  unfold closure. destruct (forallb _ _) eqn:Closed; [|discriminate].
  intros [= <-]. rewrite forallb_forall in Closed.
  assert (Step : forall q a, In q (saturate 6 c0 c S) -> in_class c a = true ->
                 In (dfaStep c0 q a) (saturate 6 c0 c S)).
  { intros q a Hq Ha. apply memState_iff, Closed.
    now apply stepClass_sound. }
  intros w q Hq. apply (saturate_incl 6 c0 c) in Hq. revert q Hq.
  induction w as [|a w IH]; simpl; intros q Hq Hw; [assumption|].
  apply andb_true_iff in Hw. destruct Hw as [Ha Hw].
  apply IH; [|assumption]. now apply Step.
Qed.

Lemma absorbs_nil_refl (c0 : ascii) (r : regex) :
  (forall S, post c0 r S = Some S) -> absorbs c0 r [].
Proof. intros E S R q P Hq. rewrite E in P. now injection P as <-. Qed.

Lemma absorbs_seq (c0 : ascii) (r1 r2 : regex) (w1 w2 : str) :
  absorbs c0 r1 w1 -> absorbs c0 r2 w2 -> absorbs c0 (r1 ;; r2) (w1 ++ w2).
Proof.
  intros A1 A2 S R q P Hq. simpl in P.
  destruct (post c0 r1 S) as [S1|] eqn:P1; [|discriminate].
  rewrite dfaRun_app. eapply A2; eauto.
Qed.

Lemma absorbs_lit (c0 : ascii) (w : str) : absorbs c0 (Lit w) w.
Proof.
  intros S R q [= <-] Hq. apply nodup_In, in_map_iff. eauto.
Qed.

Lemma absorbs_opt_skip (c0 : ascii) (r : regex) : absorbs c0 (Opt r) [].
Proof.
  intros S R q P Hq. simpl in P.
  destruct (post c0 r S) as [S1|]; [|discriminate]. injection P as <-.
  apply nodup_In, in_or_app. auto.
Qed.

Lemma absorbs_opt_take (c0 : ascii) (r : regex) (w : str) :
  absorbs c0 r w -> absorbs c0 (Opt r) w.
Proof.
  intros A S R q P Hq. simpl in P.
  destruct (post c0 r S) as [S1|] eqn:P1; [|discriminate]. injection P as <-.
  apply nodup_In, in_or_app. right. eapply A; eauto.
Qed.

(** What a match consumes: the characters between the two states, which
    [post] accounts for. *)
Lemma sem_consumes (r : regex) :
  forall s t, sem r s t ->
  exists w, inp s = w ++ inp t /\ pos t = pos s + List.length w
            /\ forall c0, absorbs c0 r w.
Proof.
  induction r as [| |w|c|c|c|r1 IH1 r2 IH2|r1 IH1 r2 IH2|r1 IH1|n0 r1 IH1|n0];
    simpl; intros s t S.
  - destruct S as [_ ->]. exists []. repeat split; auto.
    intros c0. now apply absorbs_nil_refl.
  - destruct S as [_ ->]. exists []. repeat split; auto.
    intros c0. now apply absorbs_nil_refl.
  - destruct S as (I & P & _). exists w. repeat split; auto.
    intros c0. apply absorbs_lit.
  - destruct S as (a & Ha & I & P & _). exists [a]. repeat split; auto.
    intros c0 S R q [= <-] Hq. now apply stepClass_sound.
  - destruct S as (w & Hne & Hw & I & P & _). exists w. repeat split; auto.
    intros c0 S R q Pc Hq. simpl in Pc.
    destruct w as [|a w]; [contradiction|]. simpl in Hw.
    apply andb_true_iff in Hw. destruct Hw as [Ha Hw]. simpl.
    eapply closure_sound; eauto. now apply stepClass_sound.
  - destruct S as (w & Hw & I & P & _). exists w. repeat split; auto.
    intros c0 S R q Pc Hq. simpl in Pc. eapply closure_sound; eauto.
  - destruct S as (m & S1 & S2).
    destruct (IH1 _ _ S1) as (w1 & I1 & P1 & A1).
    destruct (IH2 _ _ S2) as (w2 & I2 & P2 & A2).
    exists (w1 ++ w2). rewrite <- app_assoc, <- I2, length_app.
    repeat split; auto; [lia|]. intros c0. now apply absorbs_seq.
  - destruct S as [S|S].
    + destruct (IH1 _ _ S) as (w & I & P & A). exists w. repeat split; auto.
      intros c0 S0 R q Pc Hq. simpl in Pc.
      destruct (post c0 r1 S0) as [S1|] eqn:E1; [|discriminate].
      destruct (post c0 r2 S0) as [S2|]; [|discriminate]. injection Pc as <-.
      apply nodup_In, in_or_app. left. eapply A; eauto.
    + destruct (IH2 _ _ S) as (w & I & P & A). exists w. repeat split; auto.
      intros c0 S0 R q Pc Hq. simpl in Pc.
      destruct (post c0 r1 S0) as [S1|]; [|discriminate].
      destruct (post c0 r2 S0) as [S2|] eqn:E2; [|discriminate].
      injection Pc as <-.
      apply nodup_In, in_or_app. right. eapply A; eauto.
  - destruct S as [S| ->].
    + destruct (IH1 _ _ S) as (w & I & P & A). exists w. repeat split; auto.
      intros c0. now apply absorbs_opt_take.
    + exists []. repeat split; auto. intros c0. apply absorbs_opt_skip.
  - destruct S as (m & S1 & ->).
    destruct (IH1 _ _ S1) as (w & I & P & A). exists w. repeat split; auto.
  - assert (Vac : forall w c0, absorbs c0 (Backref n0) w)
      by (intros w c0 S0 R q Pc; discriminate Pc).
    destruct (capture n0 (caps s)) as [w|].
    + destruct S as (I & P & _). exists w. repeat split; auto.
    + subst t. exists []. repeat split; auto.
Qed.

(** What a group captures is what its body consumed. *)
Lemma sem_group (n : nat) (r : regex) (s t : mstate) :
  sem (Group n r) s t ->
  exists w m, sem r s m /\ inp s = w ++ inp t
              /\ inp t = inp m
              /\ caps t = (n, w) :: caps m
              /\ forall c0, absorbs c0 r w.
Proof.
  simpl. intros (m & S & ->).
  destruct (sem_consumes _ _ _ S) as (w & I & P & A).
  exists w, m. simpl. repeat split; auto.
  rewrite I, P. replace (pos s + List.length w - pos s) with (List.length w) by lia.
  now rewrite firstn_app, Nat.sub_diag, firstn_all, app_nil_r.
Qed.

Lemma dfaStep_le (c0 : ascii) (q : nat) (a : ascii) : q <= 5 -> dfaStep c0 q a <= 5.
Proof.
  intros L. unfold dfaStep. destruct (5 <=? q) eqn:E; [lia|].
  apply Nat.leb_gt in E.
  destruct (Ascii.eqb a _); [lia|]. destruct (Ascii.eqb a c0); lia.
Qed.

Lemma dfaRun_le (c0 : ascii) (w : str) : forall q, q <= 5 -> dfaRun c0 q w <= 5.
Proof.
  induction w as [|a w IH]; simpl; intros q L; [assumption|].
  apply IH. now apply dfaStep_le.
Qed.

Lemma dfaRun_final (c0 : ascii) (w : str) : dfaRun c0 5 w = 5.
Proof. induction w as [|a w IH]; simpl; auto. Qed.

(** The automaton ends in its final state on every string that contains
    the word. *)
Lemma dfaRun_occurs (c0 : ascii) (w : str) :
  c0 = "_"%char \/ c0 = "/"%char ->
  occurs (c0 :: list_ascii_of_string "ses-") w -> dfaRun c0 0 w = 5.
Proof.
  intros Hc (u & v & ->). rewrite !dfaRun_app.
  pose proof (dfaRun_le c0 u 0 (Nat.le_0_l 5)) as L.
  assert (E : dfaRun c0 (dfaRun c0 0 u) (c0 :: list_ascii_of_string "ses-") = 5).
  { generalize dependent (dfaRun c0 0 u). intros q L.
    destruct Hc; subst c0;
      do 6 (destruct q as [|q]; [reflexivity|]); lia. }
  rewrite E. apply dfaRun_final.
Qed.

(* ================================================================== *)
(** ** Substrings, splitting and joining *)
(* ================================================================== *)

Lemma startsWith_iff (p w : str) :
  JsString.startsWith p w = true <-> exists v, w = p ++ v.
Proof.
  revert w. induction p as [|a p IH]; intros w; simpl.
  - split; eauto.
  - destruct w as [|b w].
    + split; [discriminate|]. intros (v & E). discriminate.
    + rewrite andb_true_iff, Ascii.eqb_eq, IH. split.
      * intros [-> (v & ->)]. eauto.
      * intros (v & [= -> ->]). eauto.
Qed.

Lemma indexOf_unfold (p w : str) :
  JsString.indexOf p w
  = if JsString.startsWith p w then 0%Z
    else match w with
         | [] => (-1)%Z
         | _ :: w' =>
             if (JsString.indexOf p w' <? 0)%Z then (-1)%Z
             else (JsString.indexOf p w' + 1)%Z
         end.
Proof. destruct w; reflexivity. Qed.

Lemma includes_iff (p w : str) : JsString.includes p w = true <-> occurs p w.
Proof.
  unfold JsString.includes. induction w as [|a w IH];
    rewrite indexOf_unfold; destruct (JsString.startsWith p _) eqn:E.
  - split; [|reflexivity]. intros _. apply startsWith_iff in E.
    destruct E as (v & E). exists [], v. exact E.
  - split; [discriminate|]. intros (u & v & Eq). exfalso.
    assert (JsString.startsWith p [] = true); [|congruence].
    apply startsWith_iff. exists v.
    destruct u; [exact Eq|discriminate].
  - split; [|reflexivity]. intros _. apply startsWith_iff in E.
    destruct E as (v & E). exists [], v. exact E.
  - pose proof (indexOf_ge p w) as G.
    destruct (JsString.indexOf p w <? 0)%Z eqn:L.
    + split; [discriminate|]. intros (u & v & Eq). exfalso.
      destruct u as [|b u].
      * assert (JsString.startsWith p (a :: w) = true); [|congruence].
        apply startsWith_iff. eauto.
      * injection Eq as _ Eq.
        assert (occurs p w) as O by (exists u, v; exact Eq).
        apply IH in O. apply Z.ltb_lt in L. apply Z.leb_le in O. lia.
    + split; [|intros _; apply Z.leb_le; apply Z.ltb_ge in L; lia].
      intros _. apply Z.ltb_ge in L.
      destruct (proj1 IH) as (u & v & ->); [apply Z.leb_le; lia|].
      exists (a :: u), v. reflexivity.
Qed.

Lemma includes_false_iff (p w : str) :
  JsString.includes p w = false <-> ~ occurs p w.
Proof.
  rewrite <- includes_iff. destruct (JsString.includes p w); split;
    congruence.
Qed.

Lemma join_cons (sep a : ascii) (c : str) (cs : list str) :
  join sep ((a :: c) :: cs) = a :: join sep (c :: cs).
Proof. destruct cs; reflexivity. Qed.

Lemma join_split (sep : ascii) (w : str) : join sep (JsString.split sep w) = w.
Proof.
  induction w as [|a w IH]; [reflexivity|]. simpl.
  destruct (Ascii.eqb a sep) eqn:E.
  - apply Ascii.eqb_eq in E. subst a.
    destruct (JsString.split sep w) as [|c cs] eqn:S;
      [now apply split_not_nil in S|].
    simpl. simpl in IH. now rewrite IH.
  - destruct (JsString.split sep w) as [|c cs] eqn:S;
      [now apply split_not_nil in S|].
    rewrite join_cons. now rewrite IH.
Qed.

Lemma split_app_sep (sep : ascii) (u v : str) :
  noSep sep u -> JsString.split sep (u ++ sep :: v) = u :: JsString.split sep v.
Proof.
  unfold noSep. induction u as [|a u IH]; simpl; intros Hu.
  - now rewrite Ascii.eqb_refl.
  - apply andb_true_iff in Hu. destruct Hu as [Ha Hu].
    apply negb_true_iff in Ha. rewrite Ha, (IH Hu). reflexivity.
Qed.

Lemma alnum_noSlash (lab : str) :
  forallb (in_class Alnum) lab = true -> noSep "/" lab.
Proof.
  unfold noSep. induction lab as [|a lab IH]; simpl; [reflexivity|].
  intros Hl. apply andb_true_iff in Hl. destruct Hl as [Ha Hl].
  rewrite (IH Hl), andb_true_r. apply negb_true_iff.
  destruct (Ascii.eqb a "/") eqn:E; [|reflexivity].
  apply Ascii.eqb_eq in E. subst a. discriminate Ha.
Qed.

Lemma label_noSlash (prefix w : str) :
  noSep "/" prefix -> isLabel prefix w -> noSep "/" w.
Proof.
  intros Hp (lab & -> & _ & Hl). unfold noSep in *.
  rewrite forallb_app, Hp. now apply alnum_noSlash.
Qed.


Lemma sessionDir_shape (sub ses rest : str) :
  isLabel "sub-" sub -> isLabel "ses-" ses ->
  sessionDir ("/" ++ sub ++ "/" ++ ses ++ "/" ++ rest) = Some ses.
Proof.
  intros Hsub Hses. unfold sessionDir.
  change ("/" ++ sub ++ "/" ++ ses ++ "/" ++ rest)
    with ([] ++ "/"%char :: sub ++ "/"%char :: ses ++ "/"%char :: rest).
  rewrite split_app_sep by reflexivity.
  rewrite split_app_sep by (apply (label_noSlash "sub-"); auto; reflexivity).
  rewrite split_app_sep by (apply (label_noSlash "ses-"); auto; reflexivity).
  destruct (JsString.split "/" rest) as [|c cs] eqn:S;
    [now apply split_not_nil in S|].
  destruct Hses as (lab & -> & _).
  assert (Sw : JsString.startsWith "ses-" (list_ascii_of_string "ses-" ++ lab) = true)
    by (apply startsWith_iff; eauto).
  now rewrite Sw.
Qed.

(* ================================================================== *)
(** ** The subject-level expressions *)
(* ================================================================== *)

Lemma advance_nil (s : mstate) : advance [] s s.
Proof. unfold advance. simpl. auto. Qed.

Lemma sem_label (prefix : str) (s t : mstate) :
  sem (Lit prefix ;; alnums) s t -> exists w, isLabel prefix w /\ advance w s t.
Proof.
  intros (m & (I1 & P1 & C1) & (lab & Hne & Hl & I2 & P2 & C2)).
  exists (prefix ++ lab). split; [exists lab; auto|]. repeat split.
  - now rewrite I1, I2, app_assoc.
  - rewrite P2, P1, length_app. lia.
  - congruence.
Qed.

Lemma sem_capture_label (n : nat) (prefix : str) (s t : mstate) :
  sem (Group n (Lit prefix ;; alnums)) s t ->
  exists w, isLabel prefix w /\ inp s = w ++ inp t
            /\ caps t = (n, w) :: caps s
            /\ forall c0, absorbs c0 (Lit prefix ;; alnums) w.
Proof.
  intros S. destruct (sem_group _ _ _ _ S) as (w & m & Sm & I & It & C & A).
  destruct (sem_label _ _ _ Sm) as (w' & L & (I' & P' & C')).
  assert (w = w') by (rewrite <- It, I in I'; now apply app_inv_tail in I').
  subst w'. exists w. repeat split; auto. now rewrite C, C'.
Qed.

Lemma sem_sessionDirOpt (s t : mstate) :
  sem sessionDirOpt s t ->
  t = s
  \/ exists ses, isLabel "ses-" ses /\ inp s = ses ++ "/" ++ inp t
                 /\ caps t = (2, ses) :: caps s.
Proof.
  intros [(m & S & (I & P & C))| ->]; [right|now left].
  destruct (sem_capture_label _ _ _ _ S) as (ses & L & I' & C' & _).
  exists ses. repeat split; auto.
  - now rewrite I', I.
  - now rewrite C, C'.
Qed.

Lemma sem_sessionTokenOpt (s t : mstate) :
  sem sessionTokenOpt s t ->
  t = s
  \/ exists w, w = "_" ++ match capture 2 (caps s) with
                        | Some ses => ses
                        | None => []
                        end
               /\ inp s = w ++ inp t /\ caps t = (3, w) :: caps s.
Proof.
  intros [S| ->]; [right|now left].
  destruct (sem_group _ _ _ _ S) as (w & m & Sm & I & It & C & _).
  destruct Sm as (m1 & (I1 & P1 & C1) & Sb). simpl in Sb. rewrite C1 in Sb.
  exists w. destruct (capture 2 (caps s)) as [ses|].
  - destruct Sb as (I2 & P2 & C2).
    repeat split; [|assumption|now rewrite C, C2, C1].
    rewrite I2, <- It, I in I1. rewrite app_assoc in I1.
    now apply app_inv_tail in I1.
  - subst m1. repeat split; [|assumption|now rewrite C, C1].
    rewrite <- It, I in I1. rewrite <- (app_nil_r (list_ascii_of_string "_")).
    now apply app_inv_tail in I1.
Qed.

Lemma sem_dir (dir : option regex) (R : regex) (s t : mstate) :
  sem (match dir with Some d => d ;; R | None => R end) s t ->
  exists m, sem (dirOf dir) s m /\ sem R m t.
Proof.
  destruct dir as [d|]; simpl; [auto|].
  intros S. exists s. split; [apply advance_nil|assumption].
Qed.

Lemma keepsGroups123_spec (r : regex) (n : nat) :
  keepsGroups123 r = true -> n = 1 \/ n = 2 \/ n = 3 -> ~ In n (groups r).
Proof.
  unfold keepsGroups123. intros K Hn Hin. apply negb_true_iff in K.
  assert (existsb (fun n => (n =? 1) || (n =? 2) || (n =? 3)) (groups r) = true);
    [|congruence].
  apply existsb_exists. exists n. split; [assumption|].
  destruct Hn as [-> | [-> | ->]]; reflexivity.
Qed.


Lemma label_truthy (prefix w : str) : isLabel prefix w -> JsString.truthy w = true.
Proof.
  intros (lab & -> & Hne & _). destruct prefix; [|reflexivity].
  destruct lab; [contradiction|reflexivity].
Qed.


Lemma avoids_sound (c0 : ascii) (r : regex) (path : str) :
  c0 = "_"%char \/ c0 = "/"%char ->
  avoids c0 r = true ->
  absorbs c0 r path ->
  ~ occurs (c0 :: list_ascii_of_string "ses-") path.
Proof.
  intros Hc0 Hf A O. apply dfaRun_occurs in O; [|assumption].
  unfold avoids in Hf.
  destruct (post c0 r [0]) as [R|] eqn:P; [|discriminate].
  assert (Hin : In (dfaRun c0 0 path) R)
    by (apply (A [0] R 0 P); simpl; auto).
  rewrite O in Hin. apply memState_iff in Hin. rewrite Hin in Hf.
  discriminate.
Qed.






(** The scenarios of the specification, and two paths that show how far
    the expressions go: an underscore alone passes for the optional
    token when there is no session directory, and the unescaped dot
    before the extension matches any character. *)
Example anat_without_session :
  isAnat "/sub-01/anat/sub-01_T1w.nii.gz" = true
  /\ isBIDS "/sub-01/anat/sub-01_T1w.nii.gz" = true.
Proof. vm_compute. auto. Qed.

Example anat_session_directory_only :
  isBIDS "/sub-01/ses-01/anat/sub-01_T1w.nii.gz" = false.
Proof. vm_compute. reflexivity. Qed.

Example anat_double_underscore :
  isAnat "/sub-01/anat/sub-01__T1w.nii.gz" = true.
Proof. vm_compute. reflexivity. Qed.

Example anat_any_character_for_dot :
  isAnat "/sub-01/anat/sub-01_T1wXnii" = true.
Proof. vm_compute. reflexivity. Qed.

(* ================================================================== *)
(** ** Further properties of the driver and of the path grammar *)
(* ================================================================== *)

Lemma length_removeAt (t : str) (n : nat) (arr : list str) :
  nth_error arr n = Some t ->
  S (List.length (JsArray.removeAt n arr)) = List.length arr.
Proof.
  revert n. induction arr as [|y arr IH]; intros [|n]; simpl; try discriminate.
  - reflexivity.
  - intros Hn. now rewrite (IH _ Hn).
Qed.

Lemma length_splice_indexOf (t : str) (arr : list str) :
  In t arr ->
  S (List.length (JsArray.splice1 (JsArray.indexOf t arr) arr)) = List.length arr.
Proof.
  intros Hin. destruct (arr_indexOf_In _ _ Hin) as (n & Hn & Hnth).
  rewrite Hn. unfold JsArray.splice1.
  assert (n < List.length arr) by (apply nth_error_Some; congruence).
  replace (Z.to_nat _) with n
    by (destruct (Z.of_nat n <? 0)%Z eqn:L; lia).
  now apply length_removeAt with (t := t).
Qed.

Lemma length_splice_all (gs : list str) :
  NoDup gs -> forall l : list str,
  (forall t, In t gs -> In t l) ->
  List.length
    (fold_left (fun (ms : list str) (t : str) =>
                  JsArray.splice1 (JsArray.indexOf t ms) ms) gs l)
  + List.length gs = List.length l.
Proof.
  induction 1 as [|t gs Hnin Hnd IH]; intros l Hall; simpl.
  - lia.
  - rewrite Nat.add_succ_r, IH.
    + apply length_splice_indexOf, Hall. simpl. auto.
    + intros t' Hin. apply (count_occ_In str_eq_dec).
      rewrite count_splice_indexOf by (apply Hall; simpl; auto).
      destruct (str_eq_dec t t') as [->|_]; [contradiction|].
      assert (Hl : In t' l) by (apply Hall; simpl; auto).
      apply (count_occ_In str_eq_dec) in Hl. lia.
Qed.

Lemma groupStep_length (g : list str * str) (w : list str) :
  In g modalityGroups -> List.length (groupStep w g) <= List.length w.
Proof.
  intros Hg. destruct (modalityGroups_wf _ Hg) as [Hnd _].
  destruct (fires_dec g w) as [F|N]; [|now rewrite groupStep_skip].
  assert (L : 1 <= List.length (fst g)).
  { simpl in Hg. repeat (destruct Hg as [<-|Hg]; [simpl; lia|]). contradiction. }
  destruct g as [gs gn]. cbn [fst snd] in *.
  assert (M : groupMatches gs w = true) by now apply (groupMatches_iff (gs, gn)).
  unfold groupStep. rewrite M.
  assert (E : forall t, In t gs -> In t (w ++ [gn]))
    by (intros t Hin; apply in_or_app; left; now apply F).
  pose proof (length_splice_all gs Hnd (w ++ [gn]) E) as E'.
  rewrite length_app in E'. simpl in E'. lia.
Qed.

Lemma groupStep_count_other (g : list str * str) (w : list str) (x : str) :
  In g modalityGroups -> x <> fieldmap -> ~ In x (fst g) ->
  count_occ str_eq_dec (groupStep w g) x = count_occ str_eq_dec w x.
Proof.
  intros Hg Hx Hn. destruct (modalityGroups_wf _ Hg) as [Hnd Hname].
  destruct (fires_dec g w) as [F|N]; [|now rewrite groupStep_skip].
  rewrite groupStep_fires, count_occ_app, Hname, count_occ_single by assumption.
  destruct (str_eq_dec fieldmap x); [congruence|].
  destruct (in_dec str_eq_dec x (fst g)); [contradiction|]. lia.
Qed.

Lemma groupStep_count_label (g : list str * str) (w : list str) :
  In g modalityGroups ->
  count_occ str_eq_dec w fieldmap <= count_occ str_eq_dec (groupStep w g) fieldmap
  /\ (fires g w -> 1 <= count_occ str_eq_dec (groupStep w g) fieldmap).
Proof.
  intros Hg. destruct (modalityGroups_wf _ Hg) as [Hnd Hname].
  destruct (fires_dec g w) as [F|N].
  - rewrite groupStep_fires, count_occ_app, Hname, count_occ_single by assumption.
    destruct (str_eq_dec fieldmap fieldmap); [|congruence].
    destruct (in_dec str_eq_dec fieldmap (fst g)) as [Hin|]; [|lia].
    apply F, (count_occ_In str_eq_dec) in Hin. lia.
  - rewrite groupStep_skip by assumption. split; [lia|contradiction].
Qed.

Lemma groupStep_In (g : list str * str) (w : list str) (x : str) :
  In g modalityGroups -> In x (groupStep w g) -> In x w \/ x = fieldmap.
Proof.
  intros Hg Hin. destruct (modalityGroups_wf _ Hg) as [Hnd Hname].
  destruct (fires_dec g w) as [F|N]; [|rewrite groupStep_skip in Hin; auto].
  apply (count_occ_In str_eq_dec) in Hin.
  rewrite groupStep_fires, count_occ_app, Hname, count_occ_single in Hin
    by assumption.
  destruct (str_eq_dec fieldmap x); [auto|]. left.
  apply (count_occ_In str_eq_dec). lia.
Qed.

(** X1.  On any modality list, with or without duplicates, [groupModalities]
    only ever adds "fieldmap": every label of the result is a label of
    the input or "fieldmap"; a label that is neither "fieldmap" nor one
    of the tokens of the four rules keeps its number of occurrences; the
    result is never longer than the input; and it holds "fieldmap"
    exactly when the input did or some rule fired on its working list. *)
Theorem groupModalities_any_input (ms : list str) :
  (forall x, In x (groupModalities ms) -> In x ms \/ x = fieldmap)
  /\ (forall x, x <> fieldmap -> ~ In x ruleTokens ->
        count_occ str_eq_dec (groupModalities ms) x
        = count_occ str_eq_dec ms x)
  /\ List.length (groupModalities ms) <= List.length ms
  /\ (In fieldmap (groupModalities ms) <->
      In fieldmap ms
      \/ exists n g, nth_error modalityGroups n = Some g /\ fires g (working ms n)).
Proof.
  assert (Steps : forall n, n <= List.length modalityGroups ->
            (forall x, In x (working ms n) -> In x ms \/ x = fieldmap)
            /\ (forall x, x <> fieldmap -> ~ In x ruleTokens ->
                  count_occ str_eq_dec (working ms n) x
                  = count_occ str_eq_dec ms x)
            /\ List.length (working ms n) <= List.length ms
            /\ count_occ str_eq_dec ms fieldmap
               <= count_occ str_eq_dec (working ms n) fieldmap
            /\ (forall m g, m < n -> nth_error modalityGroups m = Some g ->
                  fires g (working ms m) ->
                  1 <= count_occ str_eq_dec (working ms n) fieldmap)
            /\ (In fieldmap (working ms n) ->
                In fieldmap ms
                \/ exists m g, m < n /\ nth_error modalityGroups m = Some g
                               /\ fires g (working ms m))).
  { induction n as [|n IH]; intros L.
    - change (working ms 0) with ms. repeat split; auto; try lia.
    - destruct IH as (I1 & I2 & I3 & I4 & I5 & I6); [lia|].
      destruct (nth_error modalityGroups n) as [g|] eqn:E;
        [|apply nth_error_None in E; lia].
      assert (Hg : In g modalityGroups) by (eapply nth_error_In; eauto).
      rewrite (working_S _ _ _ E).
      destruct (groupStep_count_label g (working ms n) Hg) as [C1 C2].
      repeat split.
      + intros x Hx. apply (groupStep_In _ _ _ Hg) in Hx.
        destruct Hx as [Hx|Hx]; auto.
      + intros x Hx Hn. rewrite groupStep_count_other; auto.
        intros Hin. apply Hn. unfold ruleTokens. apply in_flat_map. eauto.
      + etransitivity; [now apply groupStep_length|assumption].
      + lia.
      + intros m g' Lm Em F. assert (m < n \/ m = n) as [Lt| ->] by lia.
        * specialize (I5 _ _ Lt Em F). lia.
        * rewrite E in Em. injection Em as <-. auto.
      + intros Hin. destruct (fires_dec g (working ms n)) as [F|N].
        * right. exists n, g. auto.
        * rewrite groupStep_skip in Hin by assumption.
          destruct (I6 Hin) as [?|(m & g' & Lm & Em & F)]; auto.
          right. exists m, g'. repeat split; auto. }
  rewrite <- (working_all ms (List.length modalityGroups)) by lia.
  destruct (Steps (List.length modalityGroups) (Nat.le_refl _))
    as (I1 & I2 & I3 & I4 & I5 & I6).
  repeat split; auto.
  - intros Hin. destruct (I6 Hin) as [?|(m & g & _ & Em & F)]; eauto.
  - intros [Hin|(n & g & En & F)]; apply (count_occ_In str_eq_dec).
    + apply (count_occ_In str_eq_dec) in Hin. lia.
    + apply (I5 n g); auto. apply nth_error_Some. congruence.
Qed.

Lemma pushUnique_NoDup (x : str) (arr : list str) :
  NoDup arr -> NoDup (JsArray.pushUnique x arr).
Proof.
  intros Hnd. unfold JsArray.pushUnique.
  destruct (JsArray.indexOf x arr =? -1)%Z eqn:E; [|assumption].
  apply arr_indexOf_m1_iff in E.
  apply NoDup_app; [assumption|repeat constructor; auto|].
  intros y Hy [<-|[]]. contradiction.
Qed.

Lemma pushUnique_In (x y : str) (arr : list str) :
  In y (JsArray.pushUnique x arr) <-> In y arr \/ y = x.
Proof.
  unfold JsArray.pushUnique.
  destruct (JsArray.indexOf x arr =? -1)%Z eqn:E.
  - rewrite in_app_iff. simpl. intuition congruence.
  - split; [auto|]. intros [?| ->]; [assumption|].
    destruct (in_dec str_eq_dec x arr) as [|N]; [assumption|].
    apply arr_indexOf_m1_iff in N. congruence.
Qed.

Lemma collectLabel_NoDup (k path : str) (arr : list str) :
  NoDup arr -> NoDup (collectLabel k path arr).
Proof.
  intros Hnd. unfold collectLabel.
  destruct (extractLabel k path); [now apply pushUnique_NoDup|assumption].
Qed.

Section SummaryProperties.

Context `{Collaborators}.

Lemma collectTask_facts (f : File) (o : option JsonObject) (s : Summary) :
  sessions (collectTask f o s) = sessions s
  /\ subjects (collectTask f o s) = subjects s
  /\ modalities (collectTask f o s) = modalities s
  /\ totalFiles (collectTask f o s) = totalFiles s
  /\ size (collectTask f o s) = size s
  /\ (NoDup (tasks s) -> NoDup (tasks (collectTask f o s))).
Proof.
  unfold collectTask.
  destruct (-1 <? JsString.indexOf "task" (name f))%Z; [|tauto].
  destruct o as [obj|]; [|tauto].
  destruct (TaskName obj) as [task|]; [|tauto].
  destruct (JsString.truthy task); [|tauto].
  simpl. repeat split. apply pushUnique_NoDup.
Qed.

(** The summary after the iteratee has run on one file. *)
Lemma validateFile_summary (f : File) (c : Ctx) :
  let s := collectStats f (summary c) in
  summary (validateFile f c)
  = if negb (isBIDS (relativePath f)) then s
    else if isImage f then
           withModalities s
             (JsArray.pushUnique (modalitySuffix (relativePath f)) (modalities s))
         else if hasExt ".tsv" f then s
              else if hasExt ".bvec" f then s
                   else if hasExt ".bval" f then s
                        else if hasExt ".json" f
                             then collectTask f (snd (json f (readFile f))) s
                             else s.
Proof.
  unfold validateFile, isImage.
  destruct (negb (isBIDS (relativePath f))); [reflexivity|].
  destruct (JsString.endsWith ".nii" (name f)
            || JsString.endsWith ".nii.gz" (name f)); [reflexivity|].
  destruct (hasExt ".tsv" f).
  { destruct (JsString.endsWith "_events.tsv" (name f)); reflexivity. }
  destruct (hasExt ".bvec" f); [reflexivity|].
  destruct (hasExt ".bval" f); [reflexivity|].
  destruct (hasExt ".json" f); [|reflexivity].
  destruct (json f (readFile f)) as [found jsObj]. reflexivity.
Qed.

Lemma validateFile_accounting (f : File) (c : Ctx) :
  totalFiles (summary (validateFile f c)) = totalFiles (summary c)
  /\ size (summary (validateFile f c)) = size (summary c) + fileSize f
  /\ (summaryNoDup (summary c) -> summaryNoDup (summary (validateFile f c))).
Proof.
  rewrite validateFile_summary. cbv zeta.
  set (s := collectStats f (summary c)).
  assert (S0 : totalFiles s = totalFiles (summary c)
               /\ size s = size (summary c) + fileSize f
               /\ (summaryNoDup (summary c) -> summaryNoDup s)).
  { subst s. unfold collectStats, summaryNoDup. simpl.
    split; [reflexivity|split; [reflexivity|]].
    intros (N1 & N2 & N3 & N4).
    repeat split; try apply collectLabel_NoDup; assumption. }
  destruct S0 as (S1 & S2 & S3).
  destruct (collectTask_facts f (snd (json f (readFile f))) s)
    as (T1 & T2 & T3 & T4 & T5 & T6).
  assert (J : totalFiles (collectTask f (snd (json f (readFile f))) s)
              = totalFiles (summary c)
              /\ size (collectTask f (snd (json f (readFile f))) s)
                 = size (summary c) + fileSize f
              /\ (summaryNoDup (summary c) ->
                  summaryNoDup (collectTask f (snd (json f (readFile f))) s))).
  { split; [congruence|split; [congruence|]]. intros N. apply S3 in N.
    destruct N as (N1 & N2 & N3 & N4). unfold summaryNoDup.
    rewrite T1, T2, T3. auto. }
  destruct (negb (isBIDS (relativePath f))); [tauto|].
  destruct (isImage f).
  { simpl. split; [assumption|split; [assumption|]].
    intros N; apply S3 in N. destruct N as (N1 & N2 & N3 & N4).
    unfold summaryNoDup; simpl. repeat split; auto.
    now apply pushUnique_NoDup. }
  destruct (hasExt ".tsv" f); [tauto|].
  destruct (hasExt ".bvec" f); [tauto|].
  destruct (hasExt ".bval" f); [tauto|].
  destruct (hasExt ".json" f); tauto.
Qed.

Lemma phase1_accounting (fileList : list File) :
  forall c,
  totalFiles (summary (phase1 fileList c)) = totalFiles (summary c)
  /\ size (summary (phase1 fileList c))
     = size (summary c) + list_sum (map fileSize fileList)
  /\ (summaryNoDup (summary c) -> summaryNoDup (summary (phase1 fileList c))).
Proof.
  unfold phase1. induction fileList as [|f l IH]; simpl; intros c.
  - split; [reflexivity|split; [lia|auto]].
  - destruct (IH (validateFile f c)) as (I1 & I2 & I3).
    destruct (validateFile_accounting f c) as (V1 & V2 & V3).
    split; [congruence|split; [lia|auto]].
Qed.

Lemma validateNifti_summary (options : Options) (fileList : list File)
      (f : File) (c : Ctx) :
  summary (validateNifti options fileList f c) = summary c.
Proof.
  unfold validateNifti. destruct (ignoreNiftiHeaders options); [reflexivity|].
  destruct (readNiftiHeader f); reflexivity.
Qed.

Lemma phase2_summary (options : Options) (fileList : list File) (c : Ctx) :
  summary (phase2 options fileList c) = summary c.
Proof.
  unfold phase2. simpl.
  generalize (niftis c). intros l. revert c.
  induction l as [|g l IH]; simpl; intros c; [reflexivity|].
  now rewrite IH, validateNifti_summary.
Qed.

(** X2.  The iteratee of the first pass keeps the four label lists of
    the summary free of duplicates, and so they are after both passes
    of a run on any file list. *)
Theorem summary_lists_stay_duplicate_free :
  (forall f c, summaryNoDup (summary c) ->
               summaryNoDup (summary (validateFile f c)))
  /\ (forall options fileList,
        summaryNoDup
          (summary (phase2 options fileList
                      (phase1 fileList (initialCtx fileList))))).
Proof.
  split.
  - intros f c. apply validateFile_accounting.
  - intros options fileList. rewrite phase2_summary.
    apply phase1_accounting. unfold summaryNoDup. simpl.
    repeat split; constructor.
Qed.

(** X3.  The summary a run passes to its callback counts every file of
    the list and adds up their sizes, whether their paths are valid or
    not; its sessions, subjects and tasks are those of the first pass,
    without duplicates, and its modalities are the grouped modalities of
    the first pass. *)
Theorem fullTest_summary (options : Options) (fileList : list File)
        (e w : list IssueGroup) (s : Summary) :
  fullTest options fileList = Some (e, w, s) ->
  totalFiles s = List.length fileList
  /\ size s = list_sum (map fileSize fileList)
  /\ sessions s = sessions (summary (phase1 fileList (initialCtx fileList)))
  /\ subjects s = subjects (summary (phase1 fileList (initialCtx fileList)))
  /\ tasks s = tasks (summary (phase1 fileList (initialCtx fileList)))
  /\ modalities s
     = groupModalities
         (modalities (summary (phase1 fileList (initialCtx fileList))))
  /\ NoDup (sessions s) /\ NoDup (subjects s) /\ NoDup (tasks s).
Proof.
  unfold fullTest. rewrite phase2_summary, finish_eq.
  destruct (formatIssues options _) as [[e0 w0]|]; [|discriminate].
  intros [= <- <- <-].
  destruct (phase1_accounting fileList (initialCtx fileList)) as (A1 & A2 & A3).
  destruct A3 as (N1 & N2 & N3 & N4);
    [unfold summaryNoDup; simpl; repeat split; constructor|].
  simpl in *. repeat split; auto.
Qed.

End SummaryProperties.

Lemma fullTest_summary_witness :
  let fileList :=
    [sampleFile "/sub-01/anat/sub-01_T1w.nii.gz";
     sampleFile "/sub-01/func/sub-01_task-rest_bold.nii.gz";
     sampleFile "/sub-02/anat/sub-02_T1w.nii.gz"] in
  exists e w s,
    fullTest (H := sampleCollaborators) (mkOptions false false) fileList
    = Some (e, w, s)
    /\ totalFiles s = 3
    /\ subjects s = map list_ascii_of_string ["01"; "02"].
Proof.
  intros fileList.
  destruct (fullTest (H := sampleCollaborators) (mkOptions false false) fileList)
    as [[[e w] s]|] eqn:E; [|vm_compute in E; discriminate E].
  exists e, w, s. split; [reflexivity|].
  destruct (@fullTest_summary sampleCollaborators _ _ _ _ _ E)
    as (T & _ & _ & Sub & _).
  split; [exact T|]. rewrite Sub. vm_compute. reflexivity.
Defined.

Lemma indexOf_char_nil (c : ascii) : JsString.indexOf [c] [] = (-1)%Z.
Proof. reflexivity. Qed.

Lemma indexOf_char_cons (c a : ascii) (w : str) :
  JsString.indexOf [c] (a :: w)
  = if Ascii.eqb c a then 0%Z
    else if (JsString.indexOf [c] w <? 0)%Z then (-1)%Z
         else (JsString.indexOf [c] w + 1)%Z.
Proof.
  rewrite indexOf_unfold. cbn [JsString.startsWith].
  destruct (Ascii.eqb c a); reflexivity.
Qed.

Lemma noSep_app (sep : ascii) (u v : str) :
  noSep sep (u ++ v) <-> noSep sep u /\ noSep sep v.
Proof. unfold noSep. rewrite forallb_app. apply andb_true_iff. Qed.

Lemma noSep_cons (sep a : ascii) (u : str) :
  noSep sep (a :: u) <-> a <> sep /\ noSep sep u.
Proof.
  unfold noSep. cbn [forallb]. rewrite andb_true_iff, negb_true_iff.
  rewrite Ascii.eqb_neq. tauto.
Qed.

(** The first occurrence of a character after a stretch that is free of it. *)
Lemma indexOf_char_app (c : ascii) (u w : str) :
  noSep c u ->
  JsString.indexOf [c] (u ++ w)
  = if (JsString.indexOf [c] w <? 0)%Z then (-1)%Z
    else (Z.of_nat (List.length u) + JsString.indexOf [c] w)%Z.
Proof.
  induction u as [|a u IH]; intros Hu.
  - cbn [app List.length]. pose proof (indexOf_ge [c] w).
    destruct (JsString.indexOf [c] w <? 0)%Z eqn:E; [|reflexivity].
    apply Z.ltb_lt in E. lia.
  - apply noSep_cons in Hu. destruct Hu as [Ha Hu].
    cbn [app]. rewrite indexOf_char_cons, (IH Hu).
    assert (N : Ascii.eqb c a = false) by (apply Ascii.eqb_neq; congruence).
    rewrite N. pose proof (indexOf_ge [c] w).
    destruct (JsString.indexOf [c] w <? 0)%Z eqn:E; [reflexivity|].
    apply Z.ltb_ge in E.
    replace (_ <? 0)%Z with false by (symmetry; apply Z.ltb_ge; lia).
    cbn [List.length]. lia.
Qed.

Lemma indexOf_char_absent (c : ascii) (u : str) :
  noSep c u -> JsString.indexOf [c] u = (-1)%Z.
Proof.
  intros Hu. rewrite <- (app_nil_r u), (indexOf_char_app c u [] Hu).
  reflexivity.
Qed.

Lemma indexOf_char_first (c : ascii) (u v : str) :
  noSep c u -> JsString.indexOf [c] (u ++ c :: v) = Z.of_nat (List.length u).
Proof.
  intros Hu. rewrite (indexOf_char_app c u _ Hu), indexOf_char_cons.
  rewrite Ascii.eqb_refl. simpl. lia.
Qed.

Lemma clampIndex_inside (len : Z) (n : nat) :
  (Z.of_nat n <= len)%Z -> JsString.clampIndex len (Z.of_nat n) = n.
Proof.
  intros Hn. unfold JsString.clampIndex.
  replace (Z.of_nat n <? 0)%Z with false by (symmetry; apply Z.ltb_ge; lia).
  rewrite Z.min_l by assumption. apply Nat2Z.id.
Qed.

Lemma clampIndex_beyond (len : nat) (i : Z) :
  (Z.of_nat len <= i)%Z -> JsString.clampIndex (Z.of_nat len) i = len.
Proof.
  intros Hn. unfold JsString.clampIndex.
  replace (i <? 0)%Z with false by (symmetry; apply Z.ltb_ge; lia).
  rewrite Z.min_r by assumption. apply Nat2Z.id.
Qed.

Lemma clampIndex_m1 (len : nat) :
  JsString.clampIndex (Z.of_nat len) (-1) = len - 1.
Proof. unfold JsString.clampIndex. simpl. lia. Qed.

Lemma slice0 (k : Z) (w : str) :
  JsString.slice 0 k w
  = firstn (JsString.clampIndex (Z.of_nat (List.length w)) k) w.
Proof.
  unfold JsString.slice.
  replace (JsString.clampIndex (Z.of_nat (List.length w)) 0) with 0
    by (unfold JsString.clampIndex; simpl; lia).
  now rewrite Nat.sub_0_r.
Qed.

Lemma slice0_prefix (u v : str) :
  JsString.slice 0 (Z.of_nat (List.length u)) (u ++ v) = u.
Proof.
  rewrite slice0, clampIndex_inside by (rewrite length_app; lia).
  rewrite firstn_app, Nat.sub_diag, firstn_all. simpl. apply app_nil_r.
Qed.

Lemma slice0_m1 (w : str) : JsString.slice 0 (-1) w = removelast w.
Proof.
  rewrite slice0, clampIndex_m1, Nat.sub_1_r. symmetry.
  apply removelast_firstn_len.
Qed.

Lemma sliceFrom_prefix (u v : str) :
  JsString.sliceFrom (Z.of_nat (List.length u)) (u ++ v) = v.
Proof.
  unfold JsString.sliceFrom.
  rewrite clampIndex_inside by (rewrite length_app; lia).
  rewrite skipn_app, Nat.sub_diag, skipn_all. reflexivity.
Qed.

Lemma sliceFrom_all (u : str) (i : Z) :
  (Z.of_nat (List.length u) <= i)%Z -> JsString.sliceFrom i u = [].
Proof.
  intros Hi. unfold JsString.sliceFrom. rewrite clampIndex_beyond by assumption.
  apply skipn_all.
Qed.

(** What the two cuts, at the first [/] and at the first [_], leave of
    [a ++ tail] when [a] holds neither character. *)
Lemma cut_token (a tail : str) :
  noSep "/" a -> noSep "_" a ->
  (tail = [] \/ exists c rest, tail = c :: rest /\ (c = "/" \/ c = "_")%char) ->
  let item := a ++ tail in
  let item1 := JsString.slice 0 (JsString.indexOf "/" item) item in
  (if (-1 <? JsString.indexOf "_" item1)%Z
   then JsString.slice 0 (JsString.indexOf "_" item1) item1
   else item1)
  = match tail with [] => removelast a | _ :: _ => a end.
Proof.
  intros Hs Hu Ht. cbv zeta.
  change (list_ascii_of_string "/") with ["/"%char].
  change (list_ascii_of_string "_") with ["_"%char].
  destruct Ht as [-> | (c & rest & -> & [-> | ->])].
  - rewrite app_nil_r, (indexOf_char_absent _ _ Hs), slice0_m1.
    assert (N : noSep "_" (removelast a)).
    { destruct a as [|x a] using rev_ind; [assumption|].
      rewrite removelast_last. now apply noSep_app in Hu. }
    rewrite (indexOf_char_absent _ _ N). reflexivity.
  - rewrite (indexOf_char_first _ _ _ Hs), slice0_prefix.
    rewrite (indexOf_char_absent _ _ Hu). reflexivity.
  - set (item := a ++ "_"%char :: rest).
    assert (P : exists t, JsString.slice 0 (JsString.indexOf ["/"%char] item) item
                          = a ++ t /\ (t = [] \/ exists t', t = "_"%char :: t')).
    { rewrite slice0. subst item.
      set (m := JsString.clampIndex _ _).
      assert (M : List.length a <= m).
      { subst m. rewrite (indexOf_char_app _ _ _ Hs), indexOf_char_cons.
        change (Ascii.eqb "/" "_") with false. cbv iota.
        pose proof (indexOf_ge ["/"%char] rest) as G.
        destruct (JsString.indexOf ["/"%char] rest <? 0)%Z eqn:E.
        - cbn [Z.ltb Z.compare]. rewrite clampIndex_m1, length_app. simpl. lia.
        - apply Z.ltb_ge in E.
          replace (_ <? 0)%Z with false by (symmetry; apply Z.ltb_ge; lia).
          rewrite length_app. cbn [List.length].
          unfold JsString.clampIndex.
          replace (_ <? 0)%Z with false by (symmetry; apply Z.ltb_ge; lia).
          lia. }
      rewrite firstn_app.
      rewrite firstn_all2 by assumption.
      exists (firstn (m - List.length a) ("_"%char :: rest)). split; [reflexivity|].
      destruct (m - List.length a); simpl; eauto. }
    destruct P as (t & -> & [-> | (t' & ->)]).
    + rewrite app_nil_r, (indexOf_char_absent _ _ Hu). reflexivity.
    + rewrite (indexOf_char_first _ _ _ Hu), slice0_prefix.
      replace (-1 <? _)%Z with true by (symmetry; apply Z.ltb_lt; lia).
      reflexivity.
Qed.

Lemma extractLabel_token (key pre lab tail : str) :
  JsString.indexOf (key ++ "-") (pre ++ key ++ "-" ++ lab ++ tail)
  = Z.of_nat (List.length pre) ->
  noSep "/" (key ++ "-" ++ lab) -> noSep "_" (key ++ "-" ++ lab) ->
  (tail = [] \/ exists c rest, tail = c :: rest /\ (c = "/" \/ c = "_")%char) ->
  extractLabel key (pre ++ key ++ "-" ++ lab ++ tail)
  = Some (match tail with [] => removelast lab | _ :: _ => lab end).
Proof.
  intros Hi Hs Hu Ht. unfold extractLabel. rewrite Hi.
  assert (T : JsString.truthy (pre ++ key ++ "-" ++ lab ++ tail) = true).
  { destruct pre; [destruct key|]; reflexivity. }
  rewrite T. cbn [andb].
  replace (-1 <? _)%Z with true by (symmetry; apply Z.ltb_lt; lia).
  rewrite sliceFrom_prefix.
  replace (key ++ "-" ++ lab ++ tail) with ((key ++ "-" ++ lab) ++ tail)
    by (now rewrite <- !app_assoc).
  rewrite (cut_token _ tail Hs Hu Ht). f_equal.
  assert (K : forall l, JsString.sliceFrom (Z.of_nat (List.length key) + 1)
                          (key ++ "-" ++ l) = l).
  { intros l. replace (Z.of_nat (List.length key) + 1)%Z
      with (Z.of_nat (List.length (key ++ "-"))) by (rewrite length_app; simpl; lia).
    rewrite app_assoc. apply sliceFrom_prefix. }
  destruct tail as [|c rest]; [|apply K].
  destruct lab as [|x lab] using rev_ind.
  - rewrite app_nil_r.
    change (list_ascii_of_string "-") with ["-"%char].
    rewrite removelast_last. apply sliceFrom_all. lia.
  - clear IHlab. rewrite !app_assoc, removelast_last, <- app_assoc. rewrite K.
    now rewrite removelast_last.
Qed.

(** X4.  The label collected for a key ("sub" or "ses") is what follows
    the first occurrence of [key-] in the path, up to the next [/] or
    [_].  When the path ends right after the label, with neither
    character behind it, [slice(0, -1)] drops the last character of the
    label. *)
Theorem extractLabel_first_token (key pre lab tail : str) :
  JsString.indexOf (key ++ "-") (pre ++ key ++ "-" ++ lab ++ tail)
  = Z.of_nat (List.length pre) ->
  noSep "/" (key ++ "-" ++ lab) -> noSep "_" (key ++ "-" ++ lab) ->
  (tail = [] \/ exists c rest, tail = c :: rest /\ (c = "/" \/ c = "_")%char) ->
  extractLabel key (pre ++ key ++ "-" ++ lab ++ tail)
  = Some (match tail with [] => removelast lab | _ :: _ => lab end).
Proof. exact (extractLabel_token key pre lab tail). Qed.

Lemma extractLabel_first_token_witness :
  extractLabel "sub" "/derivatives/sub-01_T1w.nii" = Some (list_ascii_of_string "01")
  /\ extractLabel "sub" "/sourcedata/sub-01" = Some (list_ascii_of_string "0").
Proof.
  split.
  - apply (extractLabel_first_token "sub" "/derivatives/" "01" "_T1w.nii");
      [reflexivity|reflexivity|reflexivity|].
    right. exists "_"%char, (list_ascii_of_string "T1w.nii"). split; [reflexivity|].
    right; reflexivity.
  - apply (extractLabel_first_token "sub" "/sourcedata/" "01" []);
      [reflexivity|reflexivity|reflexivity|left; reflexivity].
Defined.

Lemma alnum_noSep (c : ascii) (lab : str) :
  in_class Alnum c = false ->
  forallb (in_class Alnum) lab = true -> noSep c lab.
Proof.
  intros Hc. unfold noSep. induction lab as [|a lab IH]; [reflexivity|].
  cbn [forallb]. intros Hl. apply andb_true_iff in Hl. destruct Hl as [Ha Hl].
  rewrite (IH Hl), andb_true_r. apply negb_true_iff, Ascii.eqb_neq.
  intros ->. congruence.
Qed.

Lemma indexOf_skip (p : str) (a : ascii) (w : str) (n : nat) :
  JsString.startsWith p (a :: w) = false ->
  JsString.indexOf p w = Z.of_nat n ->
  JsString.indexOf p (a :: w) = Z.of_nat (S n).
Proof.
  intros Hs Hi. rewrite indexOf_unfold, Hs, Hi.
  replace (Z.of_nat n <? 0)%Z with false by (symmetry; apply Z.ltb_ge; lia).
  lia.
Qed.

(** A session directory right after an alphanumeric label is the first
    place where "ses-" occurs. *)
Lemma indexOf_ses_after_label (lab v : str) :
  forallb (in_class Alnum) lab = true ->
  JsString.indexOf "ses-" (lab ++ "/ses-" ++ v)
  = Z.of_nat (S (List.length lab)).
Proof.
  induction lab as [|a lab IH]; intros Hl; [reflexivity|].
  cbn [forallb] in Hl. apply andb_true_iff in Hl. destruct Hl as [Ha Hl].
  cbn [app List.length]. apply indexOf_skip; [|now apply IH].
  destruct (JsString.startsWith "ses-" (a :: lab ++ "/ses-" ++ v)) eqn:E;
    [exfalso|reflexivity].
  destruct lab as [|b [|c [|d lab]]];
    cbn [JsString.startsWith list_ascii_of_string app] in E;
    repeat (apply andb_true_iff in E; destruct E as [? E]);
    try discriminate.
  cbn [forallb] in Hl.
  repeat (apply andb_true_iff in Hl; destruct Hl as [? Hl]).
  match goal with
  | X : Ascii.eqb "-" d = true |- _ => apply Ascii.eqb_eq in X; subst d
  end.
  discriminate.
Qed.

Lemma extractLabel_dirs (sub ses rest : str) :
  forallb (in_class Alnum) sub = true ->
  forallb (in_class Alnum) ses = true ->
  extractLabel "sub" ("/sub-" ++ sub ++ "/" ++ rest) = Some sub
  /\ extractLabel "sub" ("/sub-" ++ sub ++ "/ses-" ++ ses ++ "/" ++ rest)
     = Some sub
  /\ extractLabel "ses" ("/sub-" ++ sub ++ "/ses-" ++ ses ++ "/" ++ rest)
     = Some ses.
Proof.
  intros Hsub Hses.
  assert (Sl : in_class Alnum "/" = false) by reflexivity.
  assert (Ul : in_class Alnum "_" = false) by reflexivity.
  assert (N : forall key lab, forallb (in_class Alnum) key = true ->
                forallb (in_class Alnum) lab = true ->
                noSep "/" (key ++ "-" ++ lab) /\ noSep "_" (key ++ "-" ++ lab)).
  { intros key lab Hk Hlab.
    split; apply noSep_app; (split; [now apply alnum_noSep|]);
      apply (noSep_app _ "-" lab); (split; [reflexivity|now apply alnum_noSep]). }
  assert (T : forall v : str,
             exists c rest0, "/" ++ v = c :: rest0 /\ (c = "/" \/ c = "_")%char)
    by (intros v; exists "/"%char, v; split; [reflexivity|left; reflexivity]).
  repeat split.
  - destruct (N "sub" sub eq_refl Hsub) as [N1 N2].
    exact (extractLabel_token "sub" "/" sub ("/" ++ rest)
             eq_refl N1 N2 (or_intror (T rest))).
  - destruct (N "sub" sub eq_refl Hsub) as [N1 N2].
    exact (extractLabel_token "sub" "/" sub ("/ses-" ++ ses ++ "/" ++ rest)
             eq_refl N1 N2 (or_intror (T _))).
  - destruct (N "ses" ses eq_refl Hses) as [N1 N2].
    assert (I : JsString.indexOf ("ses" ++ "-")
                  (("/sub-" ++ sub ++ "/") ++ "ses" ++ "-" ++ ses ++ "/" ++ rest)
                = Z.of_nat (List.length ("/sub-" ++ sub ++ "/"))).
    { change (("/sub-" ++ sub ++ "/") ++ "ses" ++ "-" ++ ses ++ "/" ++ rest)
        with ("/sub-" ++ (sub ++ "/") ++ "ses-" ++ ses ++ "/" ++ rest).
      rewrite <- (app_assoc sub "/").
      change ("/" ++ "ses-" ++ ses ++ "/" ++ rest)
        with ("/ses-" ++ (ses ++ "/" ++ rest)).
      change ("ses" ++ "-") with (list_ascii_of_string "ses-").
      pose proof (indexOf_ses_after_label sub (ses ++ "/" ++ rest) Hsub) as I0.
      do 5 (apply indexOf_skip; [reflexivity|]).
      rewrite I0. f_equal.
      change (S (List.length sub) = List.length (sub ++ "/")).
      rewrite length_app. simpl. lia. }
    pose proof (extractLabel_token "ses" ("/sub-" ++ sub ++ "/") ses
                  ("/" ++ rest) I N1 N2 (or_intror (T rest))) as E.
    cbn [app list_ascii_of_string] in E.
    rewrite <- !app_assoc in E. exact E.
Qed.

(** X5.  On the standard layout the collected labels are the ones of the
    directories: [/sub-<sub>/...] gives the subject [<sub>], and
    [/sub-<sub>/ses-<ses>/...] gives the subject [<sub>] and the session
    [<ses>], for alphanumeric labels. *)
Theorem extractLabel_layout (sub ses rest : str) :
  forallb (in_class Alnum) sub = true ->
  forallb (in_class Alnum) ses = true ->
  extractLabel "sub" ("/sub-" ++ sub ++ "/" ++ rest) = Some sub
  /\ extractLabel "sub" ("/sub-" ++ sub ++ "/ses-" ++ ses ++ "/" ++ rest)
     = Some sub
  /\ extractLabel "ses" ("/sub-" ++ sub ++ "/ses-" ++ ses ++ "/" ++ rest)
     = Some ses.
Proof. exact (extractLabel_dirs sub ses rest). Qed.

Lemma extractLabel_layout_witness :
  extractLabel "sub" "/sub-01/ses-pre/anat/sub-01_ses-pre_T1w.nii"
  = Some (list_ascii_of_string "01")
  /\ extractLabel "ses" "/sub-01/ses-pre/anat/sub-01_ses-pre_T1w.nii"
     = Some (list_ascii_of_string "pre").
Proof.
  destruct (extractLabel_layout "01" "pre" "anat/sub-01_ses-pre_T1w.nii"
              eq_refl eq_refl) as (_ & E1 & E2).
  split; [exact E1|exact E2].
Defined.

(** X6.  No label is collected for a key exactly when the path is empty
    or [key-] does not occur in it. *)
Theorem extractLabel_absent (key path : str) :
  extractLabel key path = None
  <-> path = [] \/ ~ occurs (key ++ "-") path.
Proof.
  unfold extractLabel.
  destruct (JsString.includes (key ++ "-") path) eqn:I.
  - assert (O := proj1 (includes_iff _ _) I).
    unfold JsString.includes in I. apply Z.leb_le in I.
    replace (-1 <? _)%Z with true by (symmetry; apply Z.ltb_lt; lia).
    destruct path as [|a path]; cbn [JsString.truthy andb].
    + split; auto.
    + split; [discriminate|]. intros [E|N]; [discriminate|contradiction].
  - assert (O := proj1 (includes_false_iff _ _) I).
    unfold JsString.includes in I. apply Z.leb_gt in I.
    replace (-1 <? _)%Z with false by (symmetry; apply Z.ltb_ge; lia).
    rewrite andb_false_r. split; auto.
Qed.

Lemma split_app (sep : ascii) (u v : str) :
  JsString.split sep (u ++ sep :: v)
  = JsString.split sep u ++ JsString.split sep v.
Proof.
  induction u as [|a u IH]; cbn [app JsString.split].
  - now rewrite Ascii.eqb_refl.
  - rewrite IH. destruct (Ascii.eqb a sep); [reflexivity|].
    destruct (JsString.split sep u) as [|c cs] eqn:S;
      [now apply split_not_nil in S|reflexivity].
Qed.

Lemma split_noSep (sep : ascii) (v : str) :
  noSep sep v -> JsString.split sep v = [v].
Proof.
  induction v as [|a v IH]; intros Hv; [reflexivity|].
  apply noSep_cons in Hv. destruct Hv as [Ha Hv].
  cbn [JsString.split]. rewrite (IH Hv).
  now replace (Ascii.eqb a sep) with false
    by (symmetry; apply Ascii.eqb_neq; assumption).
Qed.

Lemma last_split (sep : ascii) (pre v : str) :
  noSep sep v ->
  last (JsString.split sep (pre ++ sep :: v)) [] = v
  /\ last (JsString.split sep v) [] = v.
Proof.
  intros Hv. rewrite split_app, (split_noSep _ _ Hv). split; [|reflexivity].
  apply last_last.
Qed.

(** X7.  The modality recorded for an image is the text between the last
    underscore of its path (or the start of the path when it has none)
    and the first dot after it. *)
Theorem modalitySuffix_last_piece (path pre suffix ext : str) :
  path = suffix ++ "." ++ ext \/ path = pre ++ "_" ++ suffix ++ "." ++ ext ->
  noSep "_" suffix -> noSep "." suffix -> noSep "_" ext ->
  modalitySuffix path = suffix.
Proof.
  intros Hp Hu Hd He. unfold modalitySuffix.
  assert (N : noSep "_" (suffix ++ "." ++ ext)).
  { apply noSep_app. split; [assumption|].
    apply (noSep_app _ "." ext). split; [reflexivity|assumption]. }
  assert (L : last (JsString.split "_" path) [] = suffix ++ "." ++ ext).
  { destruct Hp as [-> | ->]; [apply (last_split "_" [] _ N)|].
    apply (last_split "_" pre _ N). }
  rewrite L.
  change (list_ascii_of_string ".") with ["."%char].
  cbn [app]. rewrite (indexOf_char_first _ _ _ Hd). apply slice0_prefix.
Qed.

Lemma modalitySuffix_last_piece_witness :
  modalitySuffix "/sub-01/func/sub-01_task-rest_bold.nii.gz"
  = list_ascii_of_string "bold".
Proof.
  apply (modalitySuffix_last_piece _ "/sub-01/func/sub-01_task-rest" "bold"
           "nii.gz"); [right; reflexivity|reflexivity|reflexivity|reflexivity].
Defined.

Lemma endsWith_last (p w : str) (a : ascii) :
  JsString.endsWith (p ++ [a]) w = true -> exists u, w = u ++ [a].
Proof.
  unfold JsString.endsWith. rewrite rev_app_distr. cbn [rev app].
  destruct w as [|x w] using rev_ind.
  - discriminate.
  - rewrite rev_app_distr. cbn [rev app JsString.startsWith].
    intros E. apply andb_true_iff in E. destruct E as [E _].
    apply Ascii.eqb_eq in E. subst x. eauto.
Qed.

Lemma endsWith_clash (p q w : str) (a b : ascii) :
  a <> b ->
  JsString.endsWith (p ++ [a]) w = true ->
  JsString.endsWith (q ++ [b]) w = false.
Proof.
  intros Hab Ha.
  destruct (JsString.endsWith (q ++ [b]) w) eqn:Hb; [exfalso|reflexivity].
  apply endsWith_last in Ha, Hb. destruct Ha as (u & ->).
  destruct Hb as (u' & E). apply app_inj_tail in E. destruct E as [_ E].
  contradiction.
Qed.

(** The extensions the first pass looks at end in six different
    characters, so at most one of its tests holds for a name. *)
Lemma extensions_exclusive (f : File) :
  (isImage f = true -> isText f = false)
  /\ (hasExt ".tsv" f = true ->
      hasExt ".bvec" f = false /\ hasExt ".bval" f = false
      /\ hasExt ".json" f = false)
  /\ (hasExt ".bvec" f = true ->
      hasExt ".bval" f = false /\ hasExt ".json" f = false)
  /\ (hasExt ".bval" f = true -> hasExt ".json" f = false).
Proof.
  assert (C : forall (p q : str) (a b : ascii), a <> b ->
                JsString.endsWith (p ++ [a]) (name f) = true ->
                hasExt (q ++ [b]) f = false).
  { intros p q a b Hab Ha. unfold hasExt.
    rewrite (endsWith_clash p q _ a b Hab Ha). apply andb_false_r. }
  assert (D : forall (p : str) (a : ascii),
                hasExt (p ++ [a]) f = true ->
                JsString.endsWith (p ++ [a]) (name f) = true).
  { intros p a E. unfold hasExt in E. now apply andb_true_iff in E. }
  assert (I : forall (p : str) (a : ascii), a <> "v"%char -> a <> "c"%char ->
                a <> "l"%char -> a <> "n"%char ->
                JsString.endsWith (p ++ [a]) (name f) = true -> isText f = false).
  { intros p a N1 N2 N3 N4 E. unfold isText.
    rewrite (C p ".ts" a "v"%char N1 E : hasExt ".tsv" f = false).
    rewrite (C p ".bve" a "c"%char N2 E : hasExt ".bvec" f = false).
    rewrite (C p ".bva" a "l"%char N3 E : hasExt ".bval" f = false).
    rewrite (C p ".jso" a "n"%char N4 E : hasExt ".json" f = false).
    reflexivity. }
  split; [|split; [|split]].
  - unfold isImage. intros E. apply orb_true_iff in E.
    destruct E as [E|E].
    + apply (I ".ni" "i"%char); try discriminate. exact E.
    + apply (I ".nii.g" "z"%char); try discriminate. exact E.
  - intros E. pose proof (D ".ts" "v"%char E) as E'. repeat split.
    + exact (C ".ts" ".bve" "v"%char "c"%char ltac:(discriminate) E').
    + exact (C ".ts" ".bva" "v"%char "l"%char ltac:(discriminate) E').
    + exact (C ".ts" ".jso" "v"%char "n"%char ltac:(discriminate) E').
  - intros E. pose proof (D ".bve" "c"%char E) as E'. split.
    + exact (C ".bve" ".bva" "c"%char "l"%char ltac:(discriminate) E').
    + exact (C ".bve" ".jso" "c"%char "n"%char ltac:(discriminate) E').
  - intros E. pose proof (D ".bva" "l"%char E) as E'.
    exact (C ".bva" ".jso" "l"%char "n"%char ltac:(discriminate) E').
Qed.

Section FirstPassShape.

Context `{Collaborators}.

Lemma validateFile_fields (f : File) (c : Ctx) :
  niftis (validateFile f c)
  = niftis c ++ (if isBIDS (relativePath f) && isImage f then [f] else [])
  /\ events (validateFile f c)
     = events c ++ (if isBIDS (relativePath f) && isEventsFile f
                    then [relativePath f] else [])
  /\ calls (validateFile f c)
     = calls c ++ (if isBIDS (relativePath f) && isText f
                   then [CallReadFile f; validatorCall f] else [])
  /\ issues (validateFile f c) = issues c ++ firstPassIssues f
  /\ headers (validateFile f c) = headers c.
Proof.
  destruct (extensions_exclusive f) as (X1 & X2 & X3 & X4).
  unfold validateFile, firstPassIssues, isEventsFile, validatorCall.
  fold (isImage f).
  destruct (isBIDS (relativePath f)); cbn [negb andb].
  2:{ cbn. now rewrite !app_nil_r. }
  destruct (isImage f) eqn:I.
  { specialize (X1 eq_refl). rewrite X1. unfold isText in X1.
    apply orb_false_iff in X1. destruct X1 as [X1 J].
    apply orb_false_iff in X1. destruct X1 as [X1 B].
    apply orb_false_iff in X1. destruct X1 as [T V].
    rewrite T, V, B, J. cbn. now rewrite !app_nil_r. }
  unfold isText.
  destruct (hasExt ".tsv" f) eqn:T.
  { cbn [orb andb].
    destruct (JsString.endsWith "_events.tsv" (name f)); cbn;
      now rewrite ?app_nil_r. }
  destruct (hasExt ".bvec" f) eqn:V.
  { cbn. now rewrite ?app_nil_r. }
  destruct (hasExt ".bval" f) eqn:B.
  { cbn. now rewrite ?app_nil_r. }
  destruct (hasExt ".json" f) eqn:J.
  { destruct (json f (readFile f)) as [found jsObj]. cbn.
    now rewrite ?app_nil_r. }
  cbn. now rewrite !app_nil_r.
Qed.

Lemma phase1_fields (fileList : list File) :
  forall c,
  niftis (phase1 fileList c)
  = niftis c
    ++ filter (fun f => isBIDS (relativePath f) && isImage f) fileList
  /\ events (phase1 fileList c)
     = events c
       ++ map relativePath
            (filter (fun f => isBIDS (relativePath f) && isEventsFile f) fileList)
  /\ calls (phase1 fileList c)
     = calls c
       ++ flat_map (fun f => [CallReadFile f; validatorCall f])
            (filter (fun f => isBIDS (relativePath f) && isText f) fileList)
  /\ issues (phase1 fileList c) = issues c ++ flat_map firstPassIssues fileList
  /\ headers (phase1 fileList c) = headers c.
Proof.
  unfold phase1. induction fileList as [|f l IH]; intros c.
  - cbn. now rewrite !app_nil_r.
  - cbn [fold_left filter flat_map].
    destruct (IH (validateFile f c)) as (I1 & I2 & I3 & I4 & I5).
    destruct (validateFile_fields f c) as (V1 & V2 & V3 & V4 & V5).
    rewrite I1, I2, I3, I4, I5, V1, V2, V3, V4, V5.
    destruct (isBIDS (relativePath f) && isImage f),
             (isBIDS (relativePath f) && isEventsFile f),
             (isBIDS (relativePath f) && isText f);
      cbn [map flat_map app]; rewrite <- ?app_assoc, ?app_nil_r;
      repeat split; reflexivity.
Qed.

(** X9.  What the first pass leaves behind.  The deferred images are the
    valid files named [*.nii] or [*.nii.gz], in the order of the list;
    the events are the paths of the valid [*_events.tsv] files; a file
    is read, and handed to the validator of its extension, exactly when
    it is valid and has one of the four text extensions; the issues are
    those the validators returned plus one issue of code 1 per invalid
    file; and no header has been read. *)
Theorem first_pass_shape (fileList : list File) :
  let c := phase1 fileList (initialCtx fileList) in
  niftis c = filter (fun f => isBIDS (relativePath f) && isImage f) fileList
  /\ (forall p, In p (events c) <->
        exists f, In f fileList /\ isBIDS (relativePath f) = true
                  /\ isEventsFile f = true /\ relativePath f = p)
  /\ (forall call, In call (calls c) <->
        exists f, In f fileList /\ isBIDS (relativePath f) = true
                  /\ isText f = true
                  /\ (call = CallReadFile f \/ call = validatorCall f))
  /\ Permutation (issues c) (flat_map firstPassIssues fileList)
  /\ headers c = [].
Proof.
  cbv zeta.
  destruct (phase1_fields fileList (initialCtx fileList))
    as (I1 & I2 & I3 & I4 & I5).
  rewrite I1, I2, I3, I4, I5. cbn [initialCtx niftis events calls issues headers app].
  split; [reflexivity|]. split; [|split; [|split; [apply Permutation_refl|reflexivity]]].
  - intros p. rewrite in_map_iff. split.
    + intros (f & <- & Hf). apply filter_In in Hf. destruct Hf as [Hf E].
      apply andb_true_iff in E. destruct E as [B E]. eauto.
    + intros (f & Hf & B & E & <-). exists f. split; [reflexivity|].
      apply filter_In. now rewrite B, E.
  - intros call. rewrite in_flat_map. split.
    + intros (f & Hf & Hc). apply filter_In in Hf. destruct Hf as [Hf E].
      apply andb_true_iff in E. destruct E as [B E]. exists f.
      repeat split; auto. destruct Hc as [<-|[<-|[]]]; auto.
    + intros (f & Hf & B & E & Hc). exists f. split.
      * apply filter_In. now rewrite B, E.
      * destruct Hc as [-> | ->]; simpl; auto.
Qed.

End FirstPassShape.

Section SummaryMembers.

Context `{Collaborators}.

Lemma pushSome_In (o : option str) (arr : list str) (x : str) :
  In x (pushSome o arr) <-> In x arr \/ o = Some x.
Proof.
  destruct o as [y|]; simpl.
  - rewrite pushUnique_In. split; intros [?|E]; auto.
    + right. now subst.
    + right. congruence.
  - split; [auto|]. intros [?|?]; [assumption|discriminate].
Qed.

Lemma validateFile_lists (f : File) (c : Ctx) :
  subjects (summary (validateFile f c))
  = pushSome (extractLabel "sub" (relativePath f)) (subjects (summary c))
  /\ sessions (summary (validateFile f c))
     = pushSome (extractLabel "ses" (relativePath f)) (sessions (summary c))
  /\ modalities (summary (validateFile f c))
     = pushSome (modalityOf f) (modalities (summary c))
  /\ tasks (summary (validateFile f c))
     = pushSome (taskOf f) (tasks (summary c)).
Proof.
  rewrite validateFile_summary. cbv zeta.
  destruct (extensions_exclusive f) as (X1 & X2 & X3 & X4).
  unfold modalityOf, taskOf.
  destruct (isBIDS (relativePath f)); cbn [negb andb];
    [|repeat split; reflexivity].
  destruct (isImage f) eqn:I.
  { specialize (X1 eq_refl). unfold isText in X1.
    apply orb_false_iff in X1. destruct X1 as [_ J]. rewrite J.
    repeat split; reflexivity. }
  destruct (hasExt ".tsv" f) eqn:T.
  { destruct (X2 eq_refl) as (_ & _ & J). rewrite J. repeat split; reflexivity. }
  destruct (hasExt ".bvec" f) eqn:V.
  { destruct (X3 eq_refl) as (_ & J). rewrite J. repeat split; reflexivity. }
  destruct (hasExt ".bval" f) eqn:B.
  { rewrite (X4 eq_refl). repeat split; reflexivity. }
  destruct (hasExt ".json" f) eqn:J; [|repeat split; reflexivity].
  cbn [andb]. unfold collectTask, JsString.includes.
  replace (0 <=? JsString.indexOf "task" (name f))%Z
    with (-1 <? JsString.indexOf "task" (name f))%Z
    by (destruct (-1 <? _)%Z eqn:E1, (0 <=? _)%Z eqn:E2; try reflexivity;
        [apply Z.ltb_lt in E1; apply Z.leb_gt in E2
        |apply Z.ltb_ge in E1; apply Z.leb_le in E2]; lia).
  destruct (-1 <? JsString.indexOf "task" (name f))%Z;
    [|repeat split; reflexivity].
  destruct (snd (json f (readFile f))) as [obj|]; [|repeat split; reflexivity].
  destruct (TaskName obj) as [task|]; [|repeat split; reflexivity].
  destruct (JsString.truthy task); repeat split; reflexivity.
Qed.

Lemma phase1_lists (fileList : list File) (x : str) :
  forall c,
  (In x (subjects (summary (phase1 fileList c))) <->
   In x (subjects (summary c))
   \/ exists f, In f fileList /\ extractLabel "sub" (relativePath f) = Some x)
  /\ (In x (sessions (summary (phase1 fileList c))) <->
      In x (sessions (summary c))
      \/ exists f, In f fileList /\ extractLabel "ses" (relativePath f) = Some x)
  /\ (In x (modalities (summary (phase1 fileList c))) <->
      In x (modalities (summary c))
      \/ exists f, In f fileList /\ modalityOf f = Some x)
  /\ (In x (tasks (summary (phase1 fileList c))) <->
      In x (tasks (summary c))
      \/ exists f, In f fileList /\ taskOf f = Some x).
Proof.
  unfold phase1. induction fileList as [|f l IH]; intros c.
  - cbn. repeat split; auto; intros [?|(f & [] & _)]; assumption.
  - cbn [fold_left].
    destruct (IH (validateFile f c)) as (I1 & I2 & I3 & I4).
    destruct (validateFile_lists f c) as (V1 & V2 & V3 & V4).
    rewrite I1, I2, I3, I4, V1, V2, V3, V4, !pushSome_In.
    repeat split.
    all: try (intros [[?|E]|(g & Hg & E)];
              [left; assumption
              |right; exists f; split; [left; reflexivity|exact E]
              |right; exists g; split; [right; assumption|exact E]]).
    all: intros [?|(g & [<-|Hg] & E)];
      [left; left; assumption
      |left; right; exact E
      |right; exists g; split; assumption].
Qed.

(** X8.  What the first pass lists in the summary.  A subject or session
    label is listed exactly when some file of the list, valid or not,
    yields it; a modality exactly when it is the suffix of a valid image;
    a task exactly when it is the non-empty [TaskName] of the parsed
    contents of a valid [.json] file whose name contains "task". *)
Theorem summary_members (fileList : list File) (x : str) :
  let s := summary (phase1 fileList (initialCtx fileList)) in
  (In x (subjects s) <->
   exists f, In f fileList /\ extractLabel "sub" (relativePath f) = Some x)
  /\ (In x (sessions s) <->
      exists f, In f fileList /\ extractLabel "ses" (relativePath f) = Some x)
  /\ (In x (modalities s) <->
      exists f, In f fileList /\ isBIDS (relativePath f) = true
                /\ isImage f = true /\ modalitySuffix (relativePath f) = x)
  /\ (In x (tasks s) <->
      exists f obj, In f fileList /\ isBIDS (relativePath f) = true
                    /\ hasExt ".json" f = true /\ occurs "task" (name f)
                    /\ snd (json f (readFile f)) = Some obj
                    /\ TaskName obj = Some x /\ x <> []).
Proof.
  cbv zeta.
  destruct (phase1_lists fileList x (initialCtx fileList)) as (I1 & I2 & I3 & I4).
  rewrite I1, I2, I3, I4. cbn [initialCtx summary subjects sessions modalities tasks].
  repeat split.
  all: try (intros [[]|E]; exact E).
  all: try (intros E; right; exact E).
  - intros [[]|(f & Hf & E)]. unfold modalityOf in E.
    destruct (isBIDS (relativePath f)) eqn:B; [|discriminate].
    destruct (isImage f) eqn:I; [|discriminate]. injection E as E. eauto 6.
  - intros (f & Hf & B & I & E). right. exists f. split; [assumption|].
    unfold modalityOf. now rewrite B, I, E.
  - intros [[]|(f & Hf & E)]. unfold taskOf in E.
    destruct (isBIDS (relativePath f)) eqn:B; [|discriminate].
    destruct (hasExt ".json" f) eqn:J; [|discriminate].
    destruct (JsString.includes "task" (name f)) eqn:T; [|discriminate].
    cbn [andb] in E. apply includes_iff in T.
    destruct (snd (json f (readFile f))) as [obj|] eqn:O; [|discriminate].
    destruct (TaskName obj) as [task|] eqn:N; [|discriminate].
    destruct task as [|a task]; cbn [JsString.truthy] in E; [discriminate|].
    inversion E; subst x.
    exists f, obj. repeat split; auto. discriminate.
  - intros (f & obj & Hf & B & J & T & O & N & X). right. exists f.
    split; [assumption|]. unfold taskOf.
    apply includes_iff in T. rewrite B, J, T, O, N. cbn [andb].
    destruct x; [contradiction|reflexivity].
Qed.

End SummaryMembers.

Section SecondPass.

Context `{Collaborators}.

Lemma validateNifti_fields (options : Options) (fileList : list File)
      (f : File) (c : Ctx) :
  let c' := validateNifti options fileList f c in
  niftis c' = niftis c /\ jsonContentsDict c' = jsonContentsDict c
  /\ bContentsDict c' = bContentsDict c /\ events c' = events c
  /\ headers c'
     = headers c ++ (if ignoreNiftiHeaders options then []
                     else readableHeaders [f])
  /\ issues c' = issues c ++ secondPassIssues options fileList c f
  /\ calls c'
     = calls c
       ++ (if ignoreNiftiHeaders options then [CallNIFTI f]
           else match readNiftiHeader f with
                | inl _ => [CallReadNiftiHeader f; CallNIFTI f]
                | inr _ => [CallReadNiftiHeader f]
                end).
Proof.
  cbv zeta. unfold validateNifti, secondPassIssues, readableHeaders.
  cbn [flat_map].
  destruct (ignoreNiftiHeaders options).
  - cbn. rewrite !app_nil_r. repeat split; reflexivity.
  - destruct (readNiftiHeader f); cbn; rewrite ?app_nil_r;
      repeat split; reflexivity.
Qed.

Lemma secondPassIssues_ext (options : Options) (fileList : list File)
      (c c' : Ctx) (f : File) :
  jsonContentsDict c' = jsonContentsDict c ->
  bContentsDict c' = bContentsDict c -> events c' = events c ->
  secondPassIssues options fileList c' f = secondPassIssues options fileList c f.
Proof. intros E1 E2 E3. unfold secondPassIssues. now rewrite E1, E2, E3. Qed.

Lemma nifti_loop (options : Options) (fileList : list File) (l : list File) :
  forall c,
  let c' := fold_left (fun c f => validateNifti options fileList f c) l c in
  niftis c' = niftis c /\ jsonContentsDict c' = jsonContentsDict c
  /\ bContentsDict c' = bContentsDict c /\ events c' = events c
  /\ headers c'
     = headers c ++ (if ignoreNiftiHeaders options then []
                     else readableHeaders l)
  /\ issues c'
     = issues c ++ flat_map (secondPassIssues options fileList c) l
  /\ calls c'
     = calls c
       ++ flat_map (fun f =>
                      if ignoreNiftiHeaders options then [CallNIFTI f]
                      else match readNiftiHeader f with
                           | inl _ => [CallReadNiftiHeader f; CallNIFTI f]
                           | inr _ => [CallReadNiftiHeader f]
                           end) l.
Proof.
  cbv zeta. induction l as [|f l IH]; intros c.
  - cbn. destruct (ignoreNiftiHeaders options); rewrite !app_nil_r;
      repeat split; reflexivity.
  - cbn [fold_left flat_map].
    destruct (IH (validateNifti options fileList f c))
      as (I1 & I2 & I3 & I4 & I5 & I6 & I7).
    destruct (validateNifti_fields options fileList f c)
      as (V1 & V2 & V3 & V4 & V5 & V6 & V7).
    rewrite I1, I2, I3, I4, I5, I6, I7, V1, V2, V3, V4, V5, V6, V7.
    rewrite (flat_map_ext _ _
               (fun g => secondPassIssues_ext options fileList c _ g V2 V3 V4)).
    unfold readableHeaders. cbn [flat_map].
    destruct (ignoreNiftiHeaders options);
      rewrite <- ?app_assoc, ?app_nil_r; repeat split; reflexivity.
Qed.

Lemma phase2_shape (options : Options) (fileList : list File)
        (c : Ctx) :
  let c' := phase2 options fileList c in
  niftis c' = niftis c /\ jsonContentsDict c' = jsonContentsDict c
  /\ bContentsDict c' = bContentsDict c /\ events c' = events c
  /\ summary c' = summary c
  /\ headers c'
     = headers c ++ (if ignoreNiftiHeaders options then []
                     else readableHeaders (niftis c))
  /\ Permutation (issues c')
       (issues c ++ flat_map (secondPassIssues options fileList c) (niftis c)
        ++ headerFields (headers c') ++ session fileList)
  /\ (forall f, In (CallReadNiftiHeader f) (calls c') <->
        In (CallReadNiftiHeader f) (calls c)
        \/ (ignoreNiftiHeaders options = false /\ In f (niftis c)))
  /\ (forall f, In (CallNIFTI f) (calls c') <->
        In (CallNIFTI f) (calls c)
        \/ (In f (niftis c)
            /\ (ignoreNiftiHeaders options = true
                \/ exists header, readNiftiHeader f = inl header))).
Proof.
  cbv zeta.
  destruct (nifti_loop options fileList (niftis c) c)
    as (I1 & I2 & I3 & I4 & I5 & I6 & I7).
  unfold phase2.
  cbn [pushIssues niftis jsonContentsDict bContentsDict events headers
       issues calls summary].
  rewrite I1, I2, I3, I4, I5, I6, I7, <- !app_assoc.
  repeat split; try reflexivity.
  - pose proof (phase2_summary options fileList c) as S. unfold phase2 in S.
    exact S.
  - intros Hin. apply in_app_or in Hin. destruct Hin as [Hin|Hin]; [auto|].
    right. apply in_flat_map in Hin. destruct Hin as (g & Hg & Hc).
    destruct (ignoreNiftiHeaders options).
    + destruct Hc as [Hc|[]]; discriminate.
    + split; [reflexivity|].
      destruct (readNiftiHeader g); simpl in Hc;
        intuition (try discriminate; congruence).
  - intros [Hin|[E Hin]]; apply in_or_app; [auto|]. right.
    apply in_flat_map. exists f. split; [assumption|]. rewrite E.
    destruct (readNiftiHeader f); simpl; auto.
  - intros Hin. apply in_app_or in Hin. destruct Hin as [Hin|Hin]; [auto|].
    right. apply in_flat_map in Hin. destruct Hin as (g & Hg & Hc).
    destruct (ignoreNiftiHeaders options).
    + destruct Hc as [Hc|[]]. injection Hc as ->. auto.
    + destruct (readNiftiHeader g) as [h|e] eqn:R; simpl in Hc.
      * destruct Hc as [Hc|[Hc|[]]]; [discriminate|]. injection Hc as <-.
        split; [assumption|]. right. eauto.
      * destruct Hc as [Hc|[]]. discriminate.
  - intros [Hin|[Hin E]]; apply in_or_app; [auto|]. right.
    apply in_flat_map. exists f. split; [assumption|].
    destruct E as [E|(h & E)]; [rewrite E; simpl; auto|].
    destruct (ignoreNiftiHeaders options); [simpl; auto|].
    rewrite E. simpl. auto.
Qed.

(** X10.  What the second pass does.  It changes neither the deferred
    images nor the dictionaries, events and summary of the first pass.
    With [ignoreNiftiHeaders] no header is read and [NIFTI] is called
    on every deferred image; without it every image has its header read,
    [NIFTI] is called only on those whose header could be read, and an
    unreadable header contributes just its error.  The issues of the
    images are followed by those of [headerFields] on the headers read
    and of [session] on the file list. *)
Theorem second_pass_shape (options : Options) (fileList : list File)
        (c : Ctx) :
  let c' := phase2 options fileList c in
  niftis c' = niftis c /\ jsonContentsDict c' = jsonContentsDict c
  /\ bContentsDict c' = bContentsDict c /\ events c' = events c
  /\ summary c' = summary c
  /\ headers c'
     = headers c ++ (if ignoreNiftiHeaders options then []
                     else readableHeaders (niftis c))
  /\ Permutation (issues c')
       (issues c ++ flat_map (secondPassIssues options fileList c) (niftis c)
        ++ headerFields (headers c') ++ session fileList)
  /\ (forall f, In (CallReadNiftiHeader f) (calls c') <->
        In (CallReadNiftiHeader f) (calls c)
        \/ (ignoreNiftiHeaders options = false /\ In f (niftis c)))
  /\ (forall f, In (CallNIFTI f) (calls c') <->
        In (CallNIFTI f) (calls c)
        \/ (In f (niftis c)
            /\ (ignoreNiftiHeaders options = true
                \/ exists header, readNiftiHeader f = inl header))).
Proof. exact (phase2_shape options fileList c). Qed.

End SecondPass.

Lemma filter_or_perm (p q : Issue -> bool) (l : list Issue) :
  (forall i, In i l -> p i = true -> q i = true -> False) ->
  Permutation (filter (fun i => p i || q i) l) (filter p l ++ filter q l).
Proof.
  induction l as [|i l IH]; intros D; [constructor|].
  assert (IH' := IH (fun j Hj => D j (or_intror Hj))).
  cbn [filter]. destruct (p i) eqn:P, (q i) eqn:Q; cbn [orb app].
  - exfalso. exact (D i (or_introl eq_refl) P Q).
  - now constructor.
  - now apply Permutation_cons_app.
  - exact IH'.
Qed.

Lemma sorted_filter_keys (A : Type) (R : nat -> nat -> Prop)
      (P : nat * A -> bool) (cat : list (nat * A)) :
  StronglySorted R (map fst cat) ->
  StronglySorted R (map fst (filter P cat)).
Proof.
  induction cat as [|e cat IH]; cbn [map filter]; intros S; [constructor|].
  inversion S as [|x xs S' F]; subst.
  destruct (P e); [|now apply IH]. cbn [map]. constructor; [now apply IH|].
  rewrite Forall_forall in *. intros k Hk. apply F.
  apply in_map_iff in Hk. destruct Hk as (e' & <- & He').
  apply filter_In in He'. apply in_map. tauto.
Qed.

Section Conservation.

Context `{Collaborators}.

Lemma entry_fields (l : list Issue) (e : nat * IssueGroup) :
  entryOK l e ->
  exists meta, issuesTable (fst e) = Some meta
    /\ gcode (sortedGroup (snd e)) = keyOf (fst e)
    /\ severity (sortedGroup (snd e)) = metaSeverity meta
    /\ files (sortedGroup (snd e))
       = jsSort compareFiles (filter (hasCode (fst e)) l).
Proof.
  intros (meta & T & E). exists meta. rewrite E. repeat split. exact T.
Qed.

Lemma groups_files (sev : str) (l : list Issue) (cat : Categorized) :
  NoDup (map fst cat) -> Forall (entryOK l) cat ->
  Permutation
    (flat_map files
       (filter (fun g => JsString.eqb (severity g) sev) (sortedGroups cat)))
    (filter (fun i => existsb (Nat.eqb (code i)) (map fst cat)
                      && severityIs sev i) l).
Proof.
  induction cat as [|e cat IH]; intros N F.
  - cbn. clear. induction l as [|i l IHl]; [apply perm_nil|exact IHl].
  - inversion N as [|x xs Nx N']; subst. inversion F as [|y ys Fe F']; subst.
    destruct (entry_fields l e Fe) as (meta & T & _ & S & Fl).
    unfold sortedGroups. cbn [map filter]. fold (sortedGroups cat).
    rewrite S.
    rewrite (filter_ext _
               (fun i => (hasCode (fst e) i && severityIs sev i)
                         || (existsb (Nat.eqb (code i)) (map fst cat)
                             && severityIs sev i)))
      by (intros i; unfold hasCode; apply andb_orb_distrib_l).
    rewrite filter_or_perm.
    2:{ intros i _ P Q. apply andb_true_iff in P, Q.
        destruct P as [P _], Q as [Q _]. apply Nat.eqb_eq in P.
        apply existsb_exists in Q. destruct Q as (k & Hk & Q).
        apply Nat.eqb_eq in Q. apply Nx. congruence. }
    assert (First : filter (fun i => hasCode (fst e) i && severityIs sev i) l
                    = if JsString.eqb (metaSeverity meta) sev
                      then filter (hasCode (fst e)) l else []).
    { assert (G : forall i, hasCode (fst e) i && severityIs sev i
                            = hasCode (fst e) i
                              && JsString.eqb (metaSeverity meta) sev).
      { intros i. unfold hasCode, severityIs.
        destruct (code i =? fst e) eqn:C; [|reflexivity].
        apply Nat.eqb_eq in C. now rewrite C, T. }
      rewrite (filter_ext _ _ G).
      destruct (JsString.eqb (metaSeverity meta) sev).
      - apply filter_ext. intros i. apply andb_true_r.
      - rewrite (filter_ext _ (fun _ => false))
          by (intros i; apply andb_false_r).
        clear. induction l as [|i l IHl]; [reflexivity|exact IHl]. }
    rewrite First.
    destruct (JsString.eqb (metaSeverity meta) sev); cbn [flat_map app].
    + apply Permutation_app; [|now apply IH]. rewrite Fl. apply jsSort_perm.
    + now apply IH.
Qed.

Lemma sorted_NoDup (ks : list nat) : StronglySorted keyBefore ks -> NoDup ks.
Proof.
  induction 1 as [|k ks S IH F]; constructor; [|assumption].
  intros Hin. rewrite Forall_forall in F. destruct (F k Hin) as [N _].
  now apply N.
Qed.

Lemma groups_keys (P : IssueGroup -> bool) (l : list Issue) (cat : Categorized) :
  StronglySorted keyBefore (map fst cat) -> Forall (entryOK l) cat ->
  exists ks, StronglySorted keyBefore ks
             /\ map gcode (filter P (sortedGroups cat)) = map keyOf ks.
Proof.
  intros S F.
  exists (map fst (filter (fun e => P (sortedGroup (snd e))) cat)).
  split; [now apply sorted_filter_keys|].
  clear S. induction cat as [|e cat IH]; [reflexivity|].
  inversion F as [|y ys Fe F']; subst.
  destruct (entry_fields l e Fe) as (meta & _ & G & _).
  unfold sortedGroups. cbn [map filter]. fold (sortedGroups cat).
  destruct (P (sortedGroup (snd e))); cbn [map]; rewrite (IH F');
    [now rewrite G|reflexivity].
Qed.

(** X12.  [formatIssues] neither loses nor duplicates an issue.  The
    files of the error groups are, taken together, exactly the issues
    whose code the table rates "error", and likewise for the warnings
    unless [ignoreWarnings] empties them; in both lists there is one
    group per code, the codes that are array indices first and in
    ascending order, the other codes after them.  It throws exactly
    when some issue has a code the table does not know. *)
Theorem formatIssues_conservation (options : Options) (l : list Issue) :
  match formatIssues options l with
  | Some (e, w) =>
      Permutation (flat_map files e) (filter (severityIs "error") l)
      /\ Permutation (flat_map files w)
           (if ignoreWarnings options then []
            else filter (severityIs "warning") l)
      /\ (exists ks, StronglySorted keyBefore ks /\ map gcode e = map keyOf ks)
      /\ (exists ks, StronglySorted keyBefore ks /\ map gcode w = map keyOf ks)
      /\ (forall i, In i l -> issuesTable (code i) <> None)
  | None => exists i, In i l /\ issuesTable (code i) = None
  end.
Proof.
  pose proof (formatIssues_spec options l) as S.
  destruct (formatIssues options l) as [[e w]|]; [|exact S].
  destruct S as (cat & (Sorted & Entries & Keys) & -> & ->).
  assert (All : forall sev,
             Permutation
               (filter (fun i => existsb (Nat.eqb (code i)) (map fst cat)
                                 && severityIs sev i) l)
               (filter (severityIs sev) l)).
  { intros sev. rewrite (filter_ext_in _ (severityIs sev)); [reflexivity|].
    intros i Hi.
    replace (existsb (Nat.eqb (code i)) (map fst cat)) with true; [reflexivity|].
    symmetry. apply existsb_exists. exists (code i).
    split; [apply Keys; eauto|apply Nat.eqb_refl]. }
  assert (W : filter (fun g => negb (isError g) && isWarning g) (sortedGroups cat)
              = filter (fun g => JsString.eqb (severity g) "warning")
                       (sortedGroups cat)).
  { apply filter_ext. intros g. unfold isError, isWarning.
    destruct (JsString.eqb (severity g) "warning") eqn:E;
      [|apply andb_false_r].
    unfold JsString.eqb in E.
    destruct (list_eq_dec ascii_dec (severity g) "warning") as [E'|];
      [|discriminate].
    rewrite E'. reflexivity. }
  split; [|split; [|split; [|split]]].
  - rewrite <- (All "error").
    apply (groups_files "error" l cat (sorted_NoDup _ Sorted) Entries).
  - destruct (ignoreWarnings options); [constructor|].
    rewrite W, <- (All "warning").
    apply (groups_files "warning" l cat (sorted_NoDup _ Sorted) Entries).
  - apply (groups_keys isError l cat Sorted Entries).
  - destruct (ignoreWarnings options);
      [exists []; split; [constructor|reflexivity]|].
    apply (groups_keys _ l cat Sorted Entries).
  - intros i Hi. exact (catInv_table l cat i (conj Sorted (conj Entries Keys)) Hi).
Qed.

End Conservation.

Section Reported.

Context `{Collaborators}.

Lemma formatIssues_keeps_error (options : Options) (l : list Issue)
      (e w : list IssueGroup) (i : Issue) (meta : IssueMeta) :
  formatIssues options l = Some (e, w) -> In i l ->
  issuesTable (code i) = Some meta -> metaSeverity meta = "error" ->
  exists g, In g e /\ gcode g = keyOf (code i) /\ In i (files g).
Proof.
  intros E Hi T Sev. pose proof (formatIssues_spec options l) as S.
  rewrite E in S. destruct S as (cat & (Sorted & Entries & Keys) & -> & _).
  assert (K : In (code i) (map fst cat)) by (apply Keys; eauto).
  apply in_map_iff in K. destruct K as (en & Ek & Hen).
  rewrite Forall_forall in Entries.
  destruct (entry_fields l en (Entries en Hen)) as (meta' & T' & G & S & Fl).
  rewrite Ek, T in T'. injection T' as <-.
  exists (sortedGroup (snd en)). repeat split.
  - apply filter_In. split.
    + unfold sortedGroups. apply (in_map (fun e0 => sortedGroup (snd e0))), Hen.
    + unfold isError. rewrite S, Sev. reflexivity.
  - now rewrite G, Ek.
  - rewrite Fl. apply (Permutation_in i (Permutation_sym (jsSort_perm _))).
    apply filter_In. split; [assumption|]. unfold hasCode. rewrite Ek.
    apply Nat.eqb_refl.
Qed.

(** X11.  Nothing rated an error is lost on the way to the callback.
    Every file with an invalid path has its issue of code 1 among the
    issues of the run, and every issue of the run whose code the table
    rates "error" is in the files of the error group keyed by its
    code. *)
Theorem errors_are_reported (options : Options) (fileList : list File)
        (e w : list IssueGroup) (s : Summary) :
  fullTest options fileList = Some (e, w, s) ->
  let c := phase2 options fileList (phase1 fileList (initialCtx fileList)) in
  (forall f, In f fileList -> isBIDS (relativePath f) = false ->
             In {| code := 1; file := f; evidence := name f |} (issues c))
  /\ (forall i meta, In i (issues c) -> issuesTable (code i) = Some meta ->
                     metaSeverity meta = "error" ->
                     exists g, In g e /\ gcode g = keyOf (code i)
                               /\ In i (files g)).
Proof.
  intros E. cbv zeta. split.
  - intros f Hf B.
    destruct (phase2_shape options fileList
                (phase1 fileList (initialCtx fileList)))
      as (_ & _ & _ & _ & _ & _ & P & _).
    apply (Permutation_in _ (Permutation_sym P)). apply in_or_app. left.
    destruct (phase1_fields fileList (initialCtx fileList))
      as (_ & _ & _ & I & _).
    rewrite I. apply in_or_app. right. apply in_flat_map. exists f.
    split; [assumption|]. unfold firstPassIssues. rewrite B. left. reflexivity.
  - intros i meta Hi T Sev. unfold fullTest in E. rewrite finish_eq in E.
    destruct (formatIssues options _) as [[e0 w0]|] eqn:F; [|discriminate].
    injection E as <- _ _.
    exact (formatIssues_keeps_error options _ e0 w0 i meta F Hi T Sev).
Qed.

End Reported.

Lemma errors_are_reported_witness :
  let f := sampleFile "/notes.txt" in
  exists e w s,
    fullTest (H := sampleCollaborators) (mkOptions false false)
             [sampleFile "/sub-01/anat/sub-01_T1w.nii.gz"; f] = Some (e, w, s)
    /\ exists g, In g e /\ gcode g = keyOf 1
                 /\ In {| code := 1; file := f; evidence := name f |} (files g).
Proof.
  intros f.
  destruct (fullTest (H := sampleCollaborators) (mkOptions false false)
              [sampleFile "/sub-01/anat/sub-01_T1w.nii.gz"; f])
    as [[[e w] s]|] eqn:E; [|vm_compute in E; discriminate E].
  exists e, w, s. split; [reflexivity|].
  destruct (@errors_are_reported sampleCollaborators _ _ _ _ _ E) as [A B].
  assert (V : isBIDS (relativePath f) = false) by (vm_compute; reflexivity).
  exact (B {| code := 1; file := f; evidence := name f |}
           {| metaSeverity := "error"; metaReason := "invalid path" |}
           (A f (or_intror (or_introl eq_refl)) V) eq_refl eq_refl).
Defined.

Lemma strip_app (p rest : str) : strip p (p ++ rest) = Some rest.
Proof.
  induction p as [|a p IH]; [reflexivity|]. cbn [app strip].
  now rewrite Ascii.eqb_refl.
Qed.

Lemma mstate_eta (t : mstate) : t = MState (pos t) (inp t) (caps t).
Proof. now destruct t. Qed.

Lemma advance_eq (w : str) (s t : mstate) :
  advance w s t -> t = MState (pos s + List.length w) (inp t) (caps s).
Proof. intros (_ & P & C). rewrite (mstate_eta t) at 1. now rewrite P, C. Qed.

Lemma literal_complete (w : str) (s t : mstate) (k : mstate -> option mstate) :
  advance w s t -> literal w s k = k t.
Proof.
  intros A. unfold literal. destruct A as (I & P & C).
  rewrite I, strip_app. rewrite (mstate_eta t), P, C. reflexivity.
Qed.

(** The greedy loop tries every run of class characters. *)
Lemma starLoop_complete (p : ascii -> bool) (u : str) :
  forall rest i cs k,
  forallb p u = true ->
  k (MState (i + List.length u) rest cs) <> None ->
  starLoop p i (u ++ rest) cs k <> None.
Proof.
  induction u as [|a u IH]; intros rest i cs k Hu Hk.
  - cbn [app List.length] in *. rewrite Nat.add_0_r in Hk.
    destruct rest as [|b rest]; [exact Hk|]. cbn [starLoop].
    destruct (p b); [|exact Hk].
    destruct (starLoop p (S i) rest cs k); [discriminate|exact Hk].
  - cbn [forallb] in Hu. apply andb_true_iff in Hu. destruct Hu as [Ha Hu].
    cbn [app starLoop]. rewrite Ha.
    cbn [List.length] in Hk. rewrite Nat.add_succ_r in Hk.
    specialize (IH rest (S i) cs k Hu Hk).
    destruct (starLoop p (S i) (u ++ rest) cs k); [discriminate|contradiction].
Qed.

Lemma sem_pos (r : regex) (s t : mstate) : sem r s t -> pos s <= pos t.
Proof. intros S. destruct (sem_consumes r s t S) as (w & _ & P & _). lia. Qed.

Lemma consuming_sem (r : regex) :
  consuming r = true -> forall s t, sem r s t -> pos s < pos t.
Proof.
  induction r as [| |w|c|c|c|r1 IH1 r2 IH2|r1 IH1 r2 IH2|r1 IH1|n r1 IH1|n];
    cbn [consuming sem]; intros C s t S; try discriminate.
  - destruct S as (_ & P & _). destruct w; [discriminate|]. simpl in P. lia.
  - destruct S as (a & _ & _ & P & _). simpl in P. lia.
  - destruct S as (w & N & _ & _ & P & _). destruct w; [contradiction|].
    simpl in P. lia.
  - destruct S as (m & S1 & S2). apply orb_true_iff in C.
    pose proof (sem_pos _ _ _ S1). pose proof (sem_pos _ _ _ S2).
    destruct C as [C|C]; [specialize (IH1 C _ _ S1)|specialize (IH2 C _ _ S2)];
      lia.
  - apply andb_true_iff in C. destruct C as [C1 C2].
    destruct S as [S|S]; [now apply IH1|now apply IH2].
  - destruct S as (m & S1 & ->). cbn [pos]. now apply IH1.
Qed.

(** Whenever the relational reading has a match that the continuation
    accepts, the backtracking matcher returns some match. *)
Lemma rmatch_complete (r : regex) :
  optsOK r = true ->
  forall s t k, sem r s t -> k t <> None -> rmatch r s k <> None.
Proof.
  induction r as [| |w|c|c|c|r1 IH1 r2 IH2|r1 IH1 r2 IH2|r1 IH1|n r1 IH1|n];
    cbn [optsOK sem rmatch]; intros O s t k S Hk.
  - destruct S as [P ->]. rewrite P. exact Hk.
  - destruct S as [I ->]. rewrite I. exact Hk.
  - now rewrite (literal_complete w s t k S).
  - destruct S as (a & C & A). pose proof (advance_eq _ _ _ A) as E.
    destruct A as (I & _). rewrite I. cbn [app]. rewrite C.
    cbn [List.length] in E. rewrite Nat.add_1_r in E. now rewrite <- E.
  - destruct S as (w & N & F & A). pose proof (advance_eq _ _ _ A) as E.
    destruct A as (I & _). rewrite I. destruct w as [|a w]; [contradiction|].
    cbn [forallb] in F. apply andb_true_iff in F. destruct F as [Fa F].
    cbn [app]. rewrite Fa. apply (starLoop_complete _ w); [assumption|].
    cbn [List.length] in E. rewrite Nat.add_succ_r in E.
    cbn [Nat.add]. now rewrite <- E.
  - destruct S as (w & F & A). pose proof (advance_eq _ _ _ A) as E.
    destruct A as (I & _). rewrite I.
    apply (starLoop_complete _ w); [assumption|]. now rewrite <- E.
  - apply andb_true_iff in O. destruct O as [O1 O2].
    destruct S as (m & S1 & S2).
    apply (IH1 O1 s m); [assumption|]. now apply (IH2 O2 m t).
  - apply andb_true_iff in O. destruct O as [O1 O2].
    destruct (rmatch r1 s k) eqn:E1; [discriminate|].
    destruct S as [S|S]; [|now apply (IH2 O2 s t)].
    exfalso. now apply (IH1 O1 s t k S Hk).
  - apply andb_true_iff in O. destruct O as [C O1].
    destruct (rmatch r1 s _) eqn:E1; [discriminate|].
    destruct S as [S| ->]; [|exact Hk]. exfalso.
    refine (IH1 O1 s t _ S _ E1).
    pose proof (consuming_sem r1 C s t S) as L.
    replace (pos t =? pos s) with false by (symmetry; apply Nat.eqb_neq; lia).
    exact Hk.
  - destruct S as (m & S1 & ->). now apply (IH1 O s m).
  - destruct (capture n (caps s)) as [w|]; [|now subst].
    now rewrite (literal_complete w s t k S).
Qed.

(** A match of an anchored expression at offset 0 is what [exec]
    returns a match for. *)
Lemma exec_complete (r : regex) (path : str) (t : mstate) :
  optsOK r = true -> sem r (MState 0 path []) t ->
  exists m, exec r path = Some m /\ sem r (MState 0 path []) m.
Proof.
  intros O S. unfold exec.
  destruct (rmatch r (MState 0 path []) (fun m => Some m)) as [m|] eqn:E.
  - exists m. split.
    + destruct path; cbn [searchFrom]; now rewrite E.
    + destruct (rmatch_sound _ _ _ _ E) as (t' & S' & [= <-]). exact S'.
  - exfalso. now apply (rmatch_complete r O _ t (fun m => Some m) S).
Qed.

Lemma test_iff (r : regex) (path : str) :
  optsOK r = true ->
  (test (Bol ;; r) path = true <-> exists t, sem r (MState 0 path []) t).
Proof.
  intros O. unfold test. split.
  - destruct (exec (Bol ;; r) path) as [m|] eqn:E; [|discriminate].
    intros _. exists m. now apply exec_anchored.
  - intros (t & S).
    destruct (exec_complete (Bol ;; r) path t) as (m & -> & _); auto.
    exists (MState 0 path []). split; [split; reflexivity|exact S].
Qed.

(** Plain patterns: matches and strings of the language correspond. *)
Lemma sem_lang (r : regex) :
  plain r = true ->
  forall s t, sem r s t -> exists w, lang r w /\ inp s = w ++ inp t.
Proof.
  induction r as [| |w|c|c|c|r1 IH1 r2 IH2|r1 IH1 r2 IH2|r1 IH1|n r1 IH1|n];
    cbn [plain sem lang]; intros P s t S; try discriminate.
  - destruct S as (I & _). eauto.
  - destruct S as (a & C & I & _). exists [a]. eauto.
  - destruct S as (w & N & F & I & _). eauto.
  - destruct S as (w & F & I & _). eauto.
  - apply andb_true_iff in P. destruct P as [P1 P2].
    destruct S as (m & S1 & S2).
    destruct (IH1 P1 _ _ S1) as (u & L1 & I1).
    destruct (IH2 P2 _ _ S2) as (v & L2 & I2).
    exists (u ++ v). split; [eauto|]. now rewrite I1, I2, app_assoc.
  - apply andb_true_iff in P. destruct P as [P1 P2].
    destruct S as [S|S]; [destruct (IH1 P1 _ _ S) as (w & L & I)
                         |destruct (IH2 P2 _ _ S) as (w & L & I)]; eauto.
  - destruct S as [S| ->]; [|exists []; auto].
    destruct (IH1 P _ _ S) as (w & L & I). eauto.
  - destruct S as (m & S1 & ->). destruct (IH1 P _ _ S1) as (w & L & I).
    exists w. auto.
Qed.

Lemma lang_sem (r : regex) :
  forall w, lang r w ->
  forall i rest cs,
  exists cs', sem r (MState i (w ++ rest) cs) (MState (i + List.length w) rest cs').
Proof.
  induction r as [| |p|c|c|c|r1 IH1 r2 IH2|r1 IH1 r2 IH2|r1 IH1|n r1 IH1|n];
    cbn [lang sem]; intros w L i rest cs; try contradiction.
  - subst w. exists cs. now repeat split.
  - destruct L as (a & C & ->). exists cs, a. now repeat split.
  - destruct L as (N & F). exists cs, w. now repeat split.
  - exists cs, w. now repeat split.
  - destruct L as (u & v & -> & L1 & L2).
    destruct (IH1 u L1 i (v ++ rest) cs) as (cs1 & S1).
    destruct (IH2 v L2 (i + List.length u) rest cs1) as (cs2 & S2).
    exists cs2, (MState (i + List.length u) (v ++ rest) cs1).
    rewrite <- app_assoc, length_app, Nat.add_assoc. auto.
  - destruct L as [L|L]; [destruct (IH1 w L i rest cs) as (cs' & S)
                         |destruct (IH2 w L i rest cs) as (cs' & S)]; eauto.
  - destruct L as [L| ->]; [destruct (IH1 w L i rest cs) as (cs' & S); eauto|].
    exists cs. right. cbn [app List.length]. now rewrite Nat.add_0_r.
  - destruct (IH1 w L i rest cs) as (cs' & S).
    eexists. eexists. split; [exact S|]. cbn [pos inp caps]. reflexivity.
Qed.

Lemma steps_lit (w : str) (cs : list (nat * str)) : steps (Lit w) w cs cs.
Proof. intros i rest. cbn. now repeat split. Qed.

Lemma steps_seq (r1 r2 : regex) (u v : str) (cs cs1 cs2 : list (nat * str)) :
  steps r1 u cs cs1 -> steps r2 v cs1 cs2 -> steps (r1 ;; r2) (u ++ v) cs cs2.
Proof.
  intros S1 S2 i rest. exists (MState (i + List.length u) (v ++ rest) cs1).
  rewrite <- app_assoc, length_app, Nat.add_assoc. split; [apply S1|apply S2].
Qed.

Lemma steps_plus (c : cclass) (w : str) (cs : list (nat * str)) :
  w <> [] -> forallb (in_class c) w = true -> steps (Plus c) w cs cs.
Proof. intros N F i rest. exists w. now repeat split. Qed.

Lemma steps_group (n : nat) (r : regex) (w : str) (cs cs' : list (nat * str)) :
  steps r w cs cs' -> steps (Group n r) w cs ((n, w) :: cs').
Proof.
  intros S i rest. exists (MState (i + List.length w) rest cs').
  split; [apply S|]. cbn [pos inp caps].
  replace (i + List.length w - i) with (List.length w) by lia.
  rewrite firstn_app, Nat.sub_diag, firstn_all. cbn [firstn].
  now rewrite app_nil_r.
Qed.

Lemma steps_opt_take (r : regex) (w : str) (cs cs' : list (nat * str)) :
  steps r w cs cs' -> steps (Opt r) w cs cs'.
Proof. intros S i rest. left. apply S. Qed.

Lemma steps_opt_skip (r : regex) (cs : list (nat * str)) : steps (Opt r) [] cs cs.
Proof. intros i rest. right. cbn [app List.length]. now rewrite Nat.add_0_r. Qed.

Lemma steps_backref (n : nat) (cs : list (nat * str)) :
  steps (Backref n)
        (match capture n cs with Some w => w | None => [] end) cs cs.
Proof.
  intros i rest. cbn [sem caps]. destruct (capture n cs) as [w|].
  - now repeat split.
  - cbn [app List.length]. now rewrite Nat.add_0_r.
Qed.

Lemma steps_label (n : nat) (prefix w : str) (cs : list (nat * str)) :
  isLabel prefix w ->
  steps (Group n (Lit prefix ;; alnums)) w cs ((n, w) :: cs).
Proof.
  intros (lab & -> & N & F). apply steps_group.
  apply (steps_seq _ _ _ _ _ cs); [apply steps_lit|now apply steps_plus].
Qed.

Lemma steps_lang (r : regex) :
  forall w, lang r w -> forall cs, exists cs', steps r w cs cs'.
Proof.
  induction r as [| |p|c|c|c|r1 IH1 r2 IH2|r1 IH1 r2 IH2|r1 IH1|n r1 IH1|n];
    cbn [lang]; intros w L cs; try contradiction.
  - subst w. exists cs. apply steps_lit.
  - destruct L as (a & C & ->). exists cs. intros i rest.
    exists a. now repeat split.
  - destruct L as (N & F). exists cs. now apply steps_plus.
  - exists cs. intros i rest. exists w. now repeat split.
  - destruct L as (u & v & -> & L1 & L2).
    destruct (IH1 u L1 cs) as (cs1 & S1). destruct (IH2 v L2 cs1) as (cs2 & S2).
    exists cs2. now apply (steps_seq _ _ _ _ _ cs1).
  - destruct L as [L|L]; [destruct (IH1 w L cs) as (cs' & S)
                         |destruct (IH2 w L cs) as (cs' & S)];
      exists cs'; intros i rest; [left|right]; apply S.
  - destruct L as [L| ->].
    + destruct (IH1 w L cs) as (cs' & S). exists cs'. now apply steps_opt_take.
    + exists cs. apply steps_opt_skip.
  - destruct (IH1 w L cs) as (cs' & S). exists ((n, w) :: cs').
    now apply steps_group.
Qed.

Lemma steps_caps (r : regex) (w : str) (cs cs' : list (nat * str)) (n : nat) :
  steps r w cs cs' -> ~ In n (groups r) -> capture n cs' = capture n cs.
Proof. intros S N. exact (sem_caps r _ _ n (S 0 []) N). Qed.

(** A subject-level expression matches every path of its shape. *)
Lemma skeleton_match (dir : option regex) (tail : regex)
      (sub d tl : str) (sesDir sesTok : str) :
  keepsGroups123 (dirOf dir) = true ->
  isLabel "sub-" sub -> lang (dirOf dir) d -> lang tail tl ->
  (sesDir = [] /\ (sesTok = [] \/ sesTok = list_ascii_of_string "_")
   \/ exists ses, isLabel "ses-" ses /\ sesDir = ses ++ "/"
                  /\ sesTok = "_" ++ ses) ->
  exists t,
    sem (skeleton dir tail)
        (MState 0 ("/" ++ sub ++ "/" ++ sesDir ++ d ++ sub ++ sesTok ++ tl) [])
        t.
Proof.
  intros Kd Lsub Ld Ltl Hses.
  assert (Sdir : exists cs2,
             steps sessionDirOpt sesDir [(1, sub)] cs2
             /\ capture 1 cs2 = Some sub
             /\ sesTok = match capture 2 cs2 with
                         | Some ses => "_" ++ ses
                         | None => sesTok
                         end
             /\ (capture 2 cs2 = None ->
                 sesTok = [] \/ sesTok = list_ascii_of_string "_")).
  { destruct Hses as [(-> & Hy)|(ses & Lses & -> & ->)].
    - exists [(1, sub)]. split; [apply steps_opt_skip|]. auto.
    - exists [(2, ses); (1, sub)]. split; [|split; [reflexivity|]].
      + apply steps_opt_take.
        apply (steps_seq _ _ _ _ _ [(2, ses); (1, sub)]);
          [now apply steps_label|apply steps_lit].
      + split; [reflexivity|discriminate]. }
  destruct Sdir as (cs2 & S2 & K1 & Etok & Htok).
  destruct (steps_lang _ d Ld cs2) as (cs3 & S3).
  assert (K1' : capture 1 cs3 = Some sub).
  { rewrite (steps_caps _ _ _ _ 1 S3); [exact K1|].
    apply keepsGroups123_spec; auto. }
  assert (K2' : capture 2 cs3 = capture 2 cs2).
  { apply (steps_caps _ _ _ _ 2 S3). apply keepsGroups123_spec; auto. }
  assert (S4 : steps (Backref 1) sub cs3 cs3).
  { pose proof (steps_backref 1 cs3) as B. now rewrite K1' in B. }
  assert (S5 : exists cs5, steps sessionTokenOpt sesTok cs3 cs5).
  { destruct (capture 2 cs2) as [ses|] eqn:K2.
    - exists ((3, sesTok) :: cs3). apply steps_opt_take, steps_group.
      rewrite Etok. apply (steps_seq _ _ _ _ _ cs3); [apply steps_lit|].
      pose proof (steps_backref 2 cs3) as B. now rewrite K2' in B.
    - destruct (Htok eq_refl) as [-> | ->].
      + exists cs3. apply steps_opt_skip.
      + exists ((3, list_ascii_of_string "_") :: cs3).
        apply steps_opt_take, steps_group.
        rewrite <- (app_nil_r (list_ascii_of_string "_")).
        apply (steps_seq _ _ _ _ _ cs3); [apply steps_lit|].
        pose proof (steps_backref 2 cs3) as B. now rewrite K2' in B. }
  destruct S5 as (cs5 & S5).
  destruct (steps_lang _ tl Ltl cs5) as (cs6 & S6).
  assert (Send : steps (Backref 1 ;; sessionTokenOpt ;; tail)
                       (sub ++ sesTok ++ tl) cs3 cs6).
  { apply (steps_seq _ _ _ _ _ cs3); [exact S4|].
    apply (steps_seq _ _ _ _ _ cs5); assumption. }
  assert (Srest : steps (match dir with
                         | Some d0 => d0 ;; Backref 1 ;; sessionTokenOpt ;; tail
                         | None => Backref 1 ;; sessionTokenOpt ;; tail
                         end) (d ++ sub ++ sesTok ++ tl) cs2 cs6).
  { destruct dir as [d0|]; cbn [dirOf] in *.
    - apply (steps_seq _ _ _ _ _ cs3); assumption.
    - cbn [lang] in Ld. subst d. cbn [app].
      assert (cs3 = cs2) as <-; [|exact Send].
      pose proof (S3 0 []) as X. cbn in X. destruct X as (_ & _ & X).
      exact X. }
  assert (All : steps (Lit "/" ;; subjectDir ;; Lit "/" ;; sessionDirOpt ;;
                       match dir with
                       | Some d0 => d0 ;; Backref 1 ;; sessionTokenOpt ;; tail
                       | None => Backref 1 ;; sessionTokenOpt ;; tail
                       end)
                      ("/" ++ sub ++ "/" ++ sesDir ++ d ++ sub ++ sesTok ++ tl)
                      [] cs6).
  { apply (steps_seq _ _ _ _ _ []); [apply steps_lit|].
    apply (steps_seq _ _ _ _ _ [(1, sub)]); [now apply steps_label|].
    apply (steps_seq _ _ _ _ _ [(1, sub)]); [apply steps_lit|].
    apply (steps_seq _ _ _ _ _ cs2); assumption. }
  specialize (All 0 []). rewrite app_nil_r in All. cbn [Nat.add] in All.
  set (path := "/" ++ sub ++ "/" ++ sesDir ++ d ++ sub ++ sesTok ++ tl) in *.
  exists (MState (List.length path) [] cs6).
  unfold skeleton. exists (MState 0 path []). split; [split; reflexivity|].
  destruct All as (m1 & A1 & m2 & A2 & m3 & A3 & m4 & A4 & A5).
  exists m1. split; [exact A1|]. exists m2. split; [exact A2|].
  exists m3. split; [exact A3|]. exists m4. split; [exact A4|].
  destruct dir as [d0|].
  - destruct A5 as (m5 & A5 & m6 & A6 & m7 & A7 & A8).
    exists m5. split; [exact A5|]. exists m6. split; [exact A6|].
    exists m7. split; [exact A7|].
    exists (MState (List.length path) [] cs6). split; [exact A8|].
    split; reflexivity.
  - destruct A5 as (m6 & A6 & m7 & A7 & A8).
    exists m6. split; [exact A6|]. exists m7. split; [exact A7|].
    exists (MState (List.length path) [] cs6). split; [exact A8|].
    split; reflexivity.
Qed.

(** Every match of a subject-level expression, with the strings its
    parts took and what it left in the second and third captures. *)
Lemma skeleton_parse (dir : option regex) (tail : regex) (path : str)
      (t : mstate) :
  keepsGroups123 (dirOf dir) = true -> keepsGroups123 tail = true ->
  plain (dirOf dir) = true -> plain tail = true ->
  exec (skeleton dir tail) path = Some t ->
  exists sub d tl,
    isLabel "sub-" sub /\ lang (dirOf dir) d /\ lang tail tl
    /\ (forall c0, absorbs c0 tail tl)
    /\ ((capture 2 (caps t) = None
         /\ exists y, (y = [] \/ y = list_ascii_of_string "_")
                      /\ path = "/" ++ sub ++ "/" ++ d ++ sub ++ y ++ tl)
        \/ (exists ses,
              isLabel "ses-" ses /\ capture 2 (caps t) = Some ses
              /\ ((capture 3 (caps t) = None
                   /\ path = "/" ++ sub ++ "/" ++ ses ++ "/" ++ d ++ sub ++ tl)
                  \/ (capture 3 (caps t) = Some ("_" ++ ses)
                      /\ path = "/" ++ sub ++ "/" ++ ses ++ "/" ++ d ++ sub
                                 ++ "_" ++ ses ++ tl)))).
Proof.
  intros Kd Kt Pd Pt E. unfold skeleton in E. apply exec_anchored in E.
  destruct E as (s1 & (I0 & _ & C0) & s2 & Ssub & s3 & (I2 & _ & C2)
                 & s4 & Sses & Srest).
  simpl in I0, C0.
  destruct (sem_capture_label _ _ _ _ Ssub) as (sub & Lsub & I1 & C1 & Asub).
  apply sem_dir in Srest.
  destruct Srest as (s5 & Sd & s6 & Sb & s7 & Stok & s8 & Stail & (I8 & ->)).
  destruct (sem_lang _ Pd _ _ Sd) as (d & Ld & I4).
  destruct (sem_consumes _ _ _ Stail) as (tl & I7 & _ & Atl).
  destruct (sem_lang _ Pt _ _ Stail) as (tl' & Ltl & I7').
  assert (tl' = tl) as -> by (rewrite I7 in I7'; now apply app_inv_tail in I7').
  rewrite I8, app_nil_r in I7.
  pose proof (fun n Hn => sem_caps _ _ _ n Sd (keepsGroups123_spec _ n Kd Hn)) as Cd.
  pose proof (fun n Hn => sem_caps _ _ _ n Stail (keepsGroups123_spec _ n Kt Hn)) as Ct.
  exists sub, d, tl. split; [assumption|]. split; [assumption|].
  split; [assumption|]. split; [assumption|].
  apply sem_sessionDirOpt in Sses. apply sem_sessionTokenOpt in Stok.
  simpl in Sb.
  destruct Sses as [->|(ses & Lses & I3 & C3)].
  - assert (K1 : capture 1 (caps s5) = Some sub)
      by (rewrite Cd by auto; rewrite C2, C1; reflexivity).
    assert (K2 : capture 2 (caps s5) = None)
      by (rewrite Cd by auto; rewrite C2, C1, C0; reflexivity).
    rewrite K1 in Sb. destruct Sb as (I5 & _ & C5). rewrite C5, K2 in Stok.
    left. destruct Stok as [->|(w & -> & I6 & C6)].
    + split; [rewrite Ct by auto; now rewrite C5|].
      exists []. split; [now left|].
      rewrite I0, I1, I2, I4, I5, I7. reflexivity.
    + split; [rewrite Ct by auto; rewrite C6; simpl; exact K2|].
      exists (list_ascii_of_string "_"). split; [now right|].
      rewrite I0, I1, I2, I4, I5, I6, I7. reflexivity.
  - assert (K1 : capture 1 (caps s5) = Some sub)
      by (rewrite Cd by auto; rewrite C3, C2, C1; reflexivity).
    assert (K2 : capture 2 (caps s5) = Some ses)
      by (rewrite Cd by auto; rewrite C3; reflexivity).
    assert (K3 : capture 3 (caps s5) = None)
      by (rewrite Cd by auto; rewrite C3, C2, C1, C0; reflexivity).
    rewrite K1 in Sb. destruct Sb as (I5 & _ & C5). rewrite C5, K2 in Stok.
    right. exists ses. split; [assumption|].
    destruct Stok as [->|(w & -> & I6 & C6)].
    + split; [rewrite Ct by auto; now rewrite C5|].
      left. split; [rewrite Ct by auto; now rewrite C5|].
      rewrite I0, I1, I2, I3, I4, I5, I7. rewrite <- ?app_assoc. reflexivity.
    + split; [rewrite Ct by auto; rewrite C6; simpl; exact K2|].
      right. split; [rewrite Ct by auto; rewrite C6; reflexivity|].
      rewrite I0, I1, I2, I3, I4, I5, I6, I7.
      rewrite <- !app_assoc. reflexivity.
Qed.

Lemma noSep_split (c : ascii) (a b x y : str) :
  noSep c a -> noSep c b -> a ++ c :: x = b ++ c :: y -> a = b /\ x = y.
Proof.
  revert b. induction a as [|p a IH]; intros [|q b] Ha Hb E.
  - injection E as E. auto.
  - apply noSep_cons in Hb. destruct Hb as [Hq _]. injection E as E _.
    congruence.
  - apply noSep_cons in Ha. destruct Ha as [Hp _]. injection E as E _.
    congruence.
  - apply noSep_cons in Ha, Hb. destruct Ha as [_ Ha], Hb as [_ Hb].
    injection E as -> E. destruct (IH b Ha Hb E) as [-> ->]. auto.
Qed.

Lemma label_split (p1 p2 a b x y : str) :
  noSep "/" p1 -> noSep "/" p2 -> isLabel p1 a -> isLabel p2 b ->
  a ++ "/" ++ x = b ++ "/" ++ y -> a = b /\ x = y.
Proof.
  intros N1 N2 La Lb. apply noSep_split.
  - exact (label_noSlash _ _ N1 La).
  - exact (label_noSlash _ _ N2 Lb).
Qed.

Lemma startsWith_app (p v : str) : JsString.startsWith p (p ++ v) = true.
Proof. apply startsWith_iff. eauto. Qed.

(** [conditionalMatch] on a subject-level expression accepts exactly the
    paths of the shape. *)
Lemma skeleton_iff (dir : option regex) (tail : regex) (dirs : list str)
      (path : str) :
  keepsGroups123 (dirOf dir) = true -> keepsGroups123 tail = true ->
  plain (dirOf dir) = true -> plain tail = true ->
  optsOK (skeleton dir tail) = true ->
  avoids "_" tail = true ->
  (forall d, lang (dirOf dir) d <-> In d dirs) -> dirsOK dirs ->
  (conditionalMatch (skeleton dir tail) path = true
   <-> sessionShaped dirs tail path).
Proof.
  intros Kd Kt Pd Pt O Av Hdirs [NoSes Det]. unfold conditionalMatch. split.
  - destruct (exec (skeleton dir tail) path) as [m|] eqn:E; [|discriminate].
    intros Hc.
    destruct (skeleton_parse _ _ _ _ Kd Kt Pd Pt E)
      as (sub & d & tl & Lsub & Ld & Ltl & _ & Shape).
    exists sub, d, tl. split; [assumption|]. split; [now apply Hdirs|].
    split; [assumption|].
    destruct Shape as [(_ & y & Hy & Hp)|(ses & Lses & K2 & [(K3 & _)|(_ & Hp)])].
    + left. eauto.
    + unfold truthyCapture in Hc. rewrite K2, K3 in Hc.
      rewrite (label_truthy _ _ Lses) in Hc. discriminate.
    + right. eauto.
  - intros (sub & d & tl & Lsub & Hd & Ltl & Shape).
    assert (Ld : lang (dirOf dir) d) by now apply Hdirs.
    assert (Ex : exists sesDir sesTok,
               path = "/" ++ sub ++ "/" ++ sesDir ++ d ++ sub ++ sesTok ++ tl
               /\ (sesDir = [] /\ (sesTok = [] \/ sesTok = list_ascii_of_string "_")
                   \/ exists ses, isLabel "ses-" ses /\ sesDir = ses ++ "/"
                                  /\ sesTok = "_" ++ ses)).
    { destruct Shape as [(y & Hy & ->)|(ses & Lses & ->)].
      - exists [], y. split; [reflexivity|]. left. auto.
      - exists (ses ++ "/"), ("_" ++ ses). rewrite <- !app_assoc.
        split; [reflexivity|]. right. eauto. }
    destruct Ex as (sesDir & sesTok & Hp & Hses).
    destruct (skeleton_match dir tail sub d tl sesDir sesTok Kd Lsub Ld Ltl Hses)
      as (t & S).
    rewrite <- Hp in S.
    destruct (exec_complete _ _ _ O S) as (m & E & _). rewrite E.
    destruct (skeleton_parse _ _ _ _ Kd Kt Pd Pt E)
      as (sub' & d' & tl' & Lsub' & Ld' & Ltl' & Atl' & Shape').
    apply Hdirs in Ld'.
    assert (Slash : noSep "/" "sub-") by reflexivity.
    assert (Slash' : noSep "/" "ses-") by reflexivity.
    assert (SubPre : forall x, exists x', sub ++ x = "sub-" ++ x').
    { intros x. destruct Lsub as (lab & -> & _). exists (lab ++ x).
      now rewrite <- app_assoc. }
    assert (SesPre : forall ses x, isLabel "ses-" ses ->
               JsString.startsWith "ses-" (ses ++ x) = true).
    { intros ses x (lab & -> & _). rewrite <- app_assoc.
      apply startsWith_app. }
    destruct Shape' as [(K2 & y' & Hy' & Hp')
                       |(ses' & Lses' & K2 & [(K3 & Hp')|(K3 & Hp')])].
    + unfold truthyCapture. rewrite K2. reflexivity.
    + (* a match that took a session directory and no token *)
      exfalso. rewrite Hp in Hp'.
      injection Hp' as Hp'.
      destruct (label_split _ _ _ _ _ _ Slash Slash Lsub Lsub' Hp') as [<- Hq].
      destruct Hses as [(-> & Hy)|(ses & Lses & -> & ->)].
      * cbn [app] in Hq. destruct (SubPre (sesTok ++ tl)) as (x' & Ex).
        rewrite Ex in Hq.
        pose proof (NoSes d x' Hd) as F. rewrite Hq in F.
        now rewrite (SesPre ses' _ Lses') in F.
      * rewrite <- app_assoc in Hq.
        destruct (label_split _ _ _ _ _ _ Slash' Slash' Lses Lses' Hq) as [<- Hr].
        pose proof (Det d d' _ _ Hd Ld' Hr) as <-.
        apply app_inv_head in Hr. apply app_inv_head in Hr.
        refine (avoids_sound "_" tail tl' (or_introl eq_refl) Av (Atl' _) _).
        destruct Lses as (lab & -> & _). exists [], (lab ++ tl).
        rewrite <- Hr. cbn [app]. rewrite <- app_assoc. reflexivity.
    + unfold truthyCapture. rewrite K2, K3. rewrite (label_truthy _ _ Lses').
      reflexivity.
Qed.

Lemma dirsOK_one (d : str) :
  (forall x, JsString.startsWith "ses-" (d ++ "sub-" ++ x) = false) ->
  dirsOK [d].
Proof.
  intros N. split.
  - intros d0 x [<-|[]]. apply N.
  - intros d0 d1 x x' [<-|[]] [<-|[]] _. reflexivity.
Qed.

Lemma dirsOK_cont : dirsOK contDirs.
Proof.
  split.
  - intros d x [<-|[<-|[]]]; reflexivity.
  - intros d d' x x' [<-|[<-|[]]] [<-|[<-|[]]] E; try reflexivity;
      discriminate E.
Qed.

Lemma lang_dir_lit (name d : str) :
  lang (dirOf (Some (Lit name ;; Lit "/"))) d <-> In d [name ++ "/"].
Proof.
  cbn [dirOf lang In]. split.
  - intros (u & v & -> & -> & ->). auto.
  - intros [<-|[]]. eauto.
Qed.

Lemma lang_dir_none (d : str) : lang (dirOf None) d <-> In d noDir.
Proof. cbn. split; [intros ->; auto|intros [<-|[]]; reflexivity]. Qed.

Lemma lang_dir_cont (d : str) :
  lang (dirOf (Some (alts [Lit "func"; Lit "beh"] ;; Lit "/"))) d
  <-> In d contDirs.
Proof.
  cbn [dirOf lang alts contDirs map In]. split.
  - intros (u & v & -> & [-> | ->] & ->); auto.
  - intros [<-|[<-|[]]]; [exists (list_ascii_of_string "func")
                          |exists (list_ascii_of_string "beh")];
      exists (list_ascii_of_string "/"); auto.
Qed.

Ltac skeleton_instance dir hdir hok :=
  match goal with
  | |- conditionalMatch ?re ?p = true <-> sessionShaped ?dirs ?tl ?p =>
      change re with (skeleton dir tl);
      apply (skeleton_iff dir tl dirs p);
      [vm_compute; reflexivity ..|exact hdir|exact hok]
  end.

Lemma scans_iff (path : str) :
  conditionalMatch scansRe path = true
  <-> sessionShaped noDir (tailOf scansRe) path.
Proof.
  skeleton_instance (@None regex) lang_dir_none
    (dirsOK_one [] (fun x => eq_refl)).
Qed.

Lemma funcSes_iff (path : str) :
  conditionalMatch funcSesRe path = true
  <-> sessionShaped noDir (tailOf funcSesRe) path.
Proof.
  skeleton_instance (@None regex) lang_dir_none
    (dirsOK_one [] (fun x => eq_refl)).
Qed.

Lemma anatSes_iff (path : str) :
  conditionalMatch anatSesRe path = true
  <-> sessionShaped noDir (tailOf anatSesRe) path.
Proof.
  skeleton_instance (@None regex) lang_dir_none
    (dirsOK_one [] (fun x => eq_refl)).
Qed.

Lemma dwiSes_iff (path : str) :
  conditionalMatch dwiSesRe path = true
  <-> sessionShaped noDir (tailOf dwiSesRe) path.
Proof.
  skeleton_instance (@None regex) lang_dir_none
    (dirsOK_one [] (fun x => eq_refl)).
Qed.

Lemma anat_iff (path : str) :
  isAnat path = true <-> sessionShaped anatDir (tailOf anatRe) path.
Proof.
  unfold isAnat.
  skeleton_instance (Some (Lit "anat" ;; Lit "/")) (lang_dir_lit "anat")
    (dirsOK_one "anat/" (fun x => eq_refl)).
Qed.

Lemma dwi_iff (path : str) :
  isDWI path = true <-> sessionShaped dwiDir (tailOf dwiRe) path.
Proof.
  unfold isDWI.
  skeleton_instance (Some (Lit "dwi" ;; Lit "/")) (lang_dir_lit "dwi")
    (dirsOK_one "dwi/" (fun x => eq_refl)).
Qed.

Lemma fmap_iff (path : str) :
  isFieldMap path = true <-> sessionShaped fmapDir (tailOf fmapRe) path.
Proof.
  unfold isFieldMap.
  skeleton_instance (Some (Lit "fmap" ;; Lit "/")) (lang_dir_lit "fmap")
    (dirsOK_one "fmap/" (fun x => eq_refl)).
Qed.

Lemma func_iff (path : str) :
  isFunc path = true <-> sessionShaped funcDir (tailOf funcRe) path.
Proof.
  unfold isFunc.
  skeleton_instance (Some (Lit "func" ;; Lit "/")) (lang_dir_lit "func")
    (dirsOK_one "func/" (fun x => eq_refl)).
Qed.

Lemma beh_iff (path : str) :
  isBehavioral path = true <-> sessionShaped behDir (tailOf behRe) path.
Proof.
  unfold isBehavioral.
  skeleton_instance (Some (Lit "beh" ;; Lit "/")) (lang_dir_lit "beh")
    (dirsOK_one "beh/" (fun x => eq_refl)).
Qed.

Lemma funcBold_iff (path : str) :
  isFuncBold path = true <-> sessionShaped funcDir (tailOf funcBoldRe) path.
Proof.
  unfold isFuncBold.
  skeleton_instance (Some (Lit "func" ;; Lit "/")) (lang_dir_lit "func")
    (dirsOK_one "func/" (fun x => eq_refl)).
Qed.

Lemma cont_iff (path : str) :
  isCont path = true <-> sessionShaped contDirs (tailOf contRe) path.
Proof.
  unfold isCont.
  skeleton_instance (Some (alts [Lit "func"; Lit "beh"] ;; Lit "/"))
    lang_dir_cont dirsOK_cont.
Qed.

(** X13.  What [conditionalMatch] accepts, for every expression of the
    file that goes through it: exactly the paths made of a subject
    directory, an optional session directory, the directory of the
    category, and a file name that repeats the subject label, repeats
    the session label if and only if there is a session directory, and
    goes on with a string of the rest of the expression.  Without a
    session directory one more underscore may follow the subject label,
    because the back-reference to the unset session group matches the
    empty string. *)
Theorem subject_level_paths (path : str) :
  (isAnat path = true <-> sessionShaped anatDir (tailOf anatRe) path)
  /\ (isDWI path = true <-> sessionShaped dwiDir (tailOf dwiRe) path)
  /\ (isFieldMap path = true <-> sessionShaped fmapDir (tailOf fmapRe) path)
  /\ (isFunc path = true <-> sessionShaped funcDir (tailOf funcRe) path)
  /\ (isBehavioral path = true <-> sessionShaped behDir (tailOf behRe) path)
  /\ (isFuncBold path = true
      <-> sessionShaped funcDir (tailOf funcBoldRe) path)
  /\ (isCont path = true <-> sessionShaped contDirs (tailOf contRe) path)
  /\ (isSessionLevel path = true
      <-> sessionShaped noDir (tailOf scansRe) path
          \/ sessionShaped noDir (tailOf funcSesRe) path
          \/ sessionShaped noDir (tailOf anatSesRe) path
          \/ sessionShaped noDir (tailOf dwiSesRe) path).
Proof.
  split; [apply anat_iff|]. split; [apply dwi_iff|].
  split; [apply fmap_iff|]. split; [apply func_iff|].
  split; [apply beh_iff|]. split; [apply funcBold_iff|].
  split; [apply cont_iff|].
  unfold isSessionLevel. rewrite !orb_true_iff.
  rewrite scans_iff, funcSes_iff, anatSes_iff, dwiSes_iff. tauto.
Qed.

Lemma unchecked_sem (names : regex) (path : str) :
  plain names = true -> optsOK names = true ->
  (test (Bol ;; Lit "/" ;; names ;; Lit "/" ;; Star AnyChar ;; Eol) path = true
   <-> exists name rest,
         lang names name /\ forallb (in_class AnyChar) rest = true
         /\ path = "/" ++ name ++ "/" ++ rest).
Proof.
  intros P O. rewrite test_iff by (cbn [optsOK]; now rewrite O). split.
  - intros (t & m1 & (I1 & _) & m2 & S2 & m3 & (I3 & _) & m4
            & (rest & F & I4 & _) & (I5 & ->)).
    destruct (sem_lang _ P _ _ S2) as (name & L & I2).
    exists name, rest. split; [assumption|]. split; [assumption|].
    cbn [inp] in I1. rewrite I1, I2, I3, I4, I5, app_nil_r. reflexivity.
  - intros (name & rest & L & F & ->).
    destruct (steps_lang _ name L []) as (cs & S).
    assert (All : steps (Lit "/" ;; names ;; Lit "/" ;; Star AnyChar)
                        ("/" ++ name ++ "/" ++ rest) [] cs).
    { apply (steps_seq _ _ _ _ _ []); [apply steps_lit|].
      apply (steps_seq _ _ _ _ _ cs); [exact S|].
      apply (steps_seq _ _ _ _ _ cs); [apply steps_lit|].
      intros i r. exists rest. now repeat split. }
    specialize (All 0 []). rewrite app_nil_r in All.
    destruct All as (m1 & A1 & m2 & A2 & m3 & A3 & A4).
    eexists. exists m1. split; [exact A1|]. exists m2. split; [exact A2|].
    exists m3. split; [exact A3|]. eexists. split; [exact A4|].
    split; reflexivity.
Qed.

Lemma unchecked_trees_shape (path : str) :
  (isCodeOrDerivatives path = true
   <-> exists rest, forallb (in_class AnyChar) rest = true
                    /\ (path = "/code/" ++ rest
                        \/ path = "/derivatives/" ++ rest))
  /\ (isVersionControl path = true
      <-> exists rest, forallb (in_class AnyChar) rest = true
                       /\ path = "/.git/" ++ rest)
  /\ (isCodeOrDerivatives path = true \/ isVersionControl path = true ->
      isBIDS path = true).
Proof.
  split; [|split].
  - unfold isCodeOrDerivatives, codeOrDerivativesRe.
    rewrite unchecked_sem by reflexivity. cbn [alts lang]. split.
    + intros (name & rest & [-> | ->] & F & ->); exists rest; auto.
    + intros (rest & F & [-> | ->]);
        [exists (list_ascii_of_string "code")
        |exists (list_ascii_of_string "derivatives")]; exists rest; auto.
  - unfold isVersionControl, versionControlRe.
    rewrite unchecked_sem by reflexivity. cbn [lang]. split.
    + intros (name & rest & (u & v & -> & -> & ->) & F & ->). exists rest. auto.
    + intros (rest & F & ->). exists (list_ascii_of_string ".git"), rest.
      split; [|auto]. exists (list_ascii_of_string "."),
                            (list_ascii_of_string "git"). auto.
  - unfold isBIDS. intros [-> | ->]; rewrite ?orb_true_r; reflexivity.
Qed.

(** X18.  [isCodeOrDerivatives] accepts exactly the paths under [/code/]
    and [/derivatives/], and [isVersionControl] exactly those under
    [/.git/], whatever follows as long as it holds no line break; all
    of them are valid for [isBIDS]. *)
Theorem unchecked_trees (path : str) :
  (isCodeOrDerivatives path = true
   <-> exists rest, forallb (in_class AnyChar) rest = true
                    /\ (path = "/code/" ++ rest
                        \/ path = "/derivatives/" ++ rest))
  /\ (isVersionControl path = true
      <-> exists rest, forallb (in_class AnyChar) rest = true
                       /\ path = "/.git/" ++ rest)
  /\ (isCodeOrDerivatives path = true \/ isVersionControl path = true ->
      isBIDS path = true).
Proof. exact (unchecked_trees_shape path). Qed.

Lemma subject_level_shape (path : str) :
  isSubjectLevel path = true
  <-> exists sub c, isLabel "sub-" sub /\ in_class AnyChar c = true
                    /\ path = "/" ++ sub ++ "/" ++ sub ++ "_sessions"
                               ++ [c] ++ "tsv".
Proof.
  unfold isSubjectLevel, sessionsRe. rewrite test_iff by reflexivity. split.
  - intros (t & m1 & (I1 & _ & C1) & m2 & S2 & m3 & (I3 & _ & C3) & m4 & S4
            & m5 & (I5 & _) & m6 & (c & Hc & I6 & _) & m7 & (I7 & _)
            & (I8 & ->)).
    destruct (sem_capture_label _ _ _ _ S2) as (sub & L & I2 & C2 & _).
    cbn [sem] in S4. rewrite C3, C2 in S4. cbn [capture Nat.eqb] in S4.
    destruct S4 as (I4 & _).
    exists sub, c. split; [assumption|]. split; [assumption|].
    cbn [inp] in I1. rewrite I1, I2, I3, I4, I5, I6, I7, I8. reflexivity.
  - intros (sub & c & L & Hc & ->).
    assert (B : steps (Backref 1) sub [(1, sub)] [(1, sub)])
      by exact (steps_backref 1 [(1, sub)]).
    assert (All : steps (Lit "/" ;; subjectDir ;; Lit "/" ;; Backref 1 ;;
                         Lit "_sessions" ;; dot ;; Lit "tsv")
                        ("/" ++ sub ++ "/" ++ sub ++ "_sessions" ++ [c] ++ "tsv")
                        [] [(1, sub)]).
    { apply (steps_seq _ _ _ _ _ []); [apply steps_lit|].
      apply (steps_seq _ _ _ _ _ [(1, sub)]); [now apply steps_label|].
      apply (steps_seq _ _ _ _ _ [(1, sub)]); [apply steps_lit|].
      apply (steps_seq _ _ _ _ _ [(1, sub)]); [exact B|].
      apply (steps_seq _ _ _ _ _ [(1, sub)]); [apply steps_lit|].
      apply (steps_seq _ _ _ _ _ [(1, sub)]); [|apply steps_lit].
      intros i r. exists c. now repeat split. }
    specialize (All 0 []). rewrite app_nil_r in All.
    destruct All as (m1 & A1 & m2 & A2 & m3 & A3 & m4 & A4 & m5 & A5 & m6 & A6
                     & A7).
    eexists. exists m1. split; [exact A1|]. exists m2. split; [exact A2|].
    exists m3. split; [exact A3|]. exists m4. split; [exact A4|].
    exists m5. split; [exact A5|]. exists m6. split; [exact A6|].
    eexists. split; [exact A7|]. split; reflexivity.
Qed.

(** X19.  [isSubjectLevel] accepts exactly
    [/sub-<label>/sub-<label>_sessions<c>tsv], with the same label twice
    and any one character that is not a line break where the dot is. *)
Theorem subject_level_file (path : str) :
  isSubjectLevel path = true
  <-> exists sub c, isLabel "sub-" sub /\ in_class AnyChar c = true
                    /\ path = "/" ++ sub ++ "/" ++ sub ++ "_sessions"
                               ++ [c] ++ "tsv".
Proof. exact (subject_level_shape path). Qed.

Lemma class_clean (c : cclass) (a : ascii) :
  in_class c a = true -> in_class AnyChar a = true.
Proof.
  destruct c; [| |auto]; unfold in_class, between; intros H;
    apply negb_true_iff, orb_false_iff;
    repeat rewrite ?orb_true_iff, ?andb_true_iff, ?Nat.leb_le in H;
    split; apply Nat.eqb_neq; lia.
Qed.

Lemma forallb_class_clean (c : cclass) (w : str) :
  forallb (in_class c) w = true -> forallb (in_class AnyChar) w = true.
Proof.
  induction w as [|a w IH]; [reflexivity|]. cbn [forallb].
  intros H. apply andb_true_iff in H. destruct H as [Ha Hw].
  now rewrite (class_clean c a Ha), (IH Hw).
Qed.

(** What a pattern with clean literals consumes is clean, and so is what
    it captures. *)
Lemma sem_clean (r : regex) :
  litsClean r = true ->
  forall s t, sem r s t ->
  (forall n w, capture n (caps s) = Some w ->
               forallb (in_class AnyChar) w = true) ->
  exists w, inp s = w ++ inp t /\ pos t = pos s + List.length w
            /\ forallb (in_class AnyChar) w = true
            /\ (forall n w', capture n (caps t) = Some w' ->
                             forallb (in_class AnyChar) w' = true).
Proof.
  induction r as [| |p|c|c|c|r1 IH1 r2 IH2|r1 IH1 r2 IH2|r1 IH1|n r1 IH1|n];
    cbn [litsClean sem]; intros L s t S Hc.
  - destruct S as [_ ->]. exists []. cbn. rewrite Nat.add_0_r. auto.
  - destruct S as [_ ->]. exists []. cbn. rewrite Nat.add_0_r. auto.
  - destruct S as (I & P & C). exists p. rewrite C. auto.
  - destruct S as (a & Ca & I & P & C). exists [a]. rewrite C.
    repeat split; auto. cbn [forallb]. now rewrite (class_clean c a Ca).
  - destruct S as (w & _ & F & I & P & C). exists w. rewrite C.
    repeat split; auto. now apply (forallb_class_clean c).
  - destruct S as (w & F & I & P & C). exists w. rewrite C.
    repeat split; auto. now apply (forallb_class_clean c).
  - apply andb_true_iff in L. destruct L as [L1 L2].
    destruct S as (m & S1 & S2).
    destruct (IH1 L1 _ _ S1 Hc) as (u & I1 & P1 & F1 & C1).
    destruct (IH2 L2 _ _ S2 C1) as (v & I2 & P2 & F2 & C2).
    exists (u ++ v). rewrite forallb_app, F1, F2, length_app.
    repeat split; auto; [now rewrite I1, I2, app_assoc|lia].
  - apply andb_true_iff in L. destruct L as [L1 L2].
    destruct S as [S|S]; [now apply IH1|now apply IH2].
  - destruct S as [S| ->]; [now apply IH1|].
    exists []. cbn. rewrite Nat.add_0_r. auto.
  - destruct S as (m & S1 & ->).
    destruct (IH1 L _ _ S1 Hc) as (w & I & P & F & C).
    exists w. cbn [pos inp caps]. repeat split; auto.
    intros k w'. cbn [capture].
    destruct (k =? n); [|apply C]. intros [= <-].
    rewrite I, P. replace (pos s + List.length w - pos s) with (List.length w)
      by lia.
    rewrite firstn_app, Nat.sub_diag, firstn_all. cbn [firstn].
    now rewrite app_nil_r.
  - destruct (capture n (caps s)) as [w|] eqn:K.
    + destruct S as (I & P & C). exists w. rewrite C.
      repeat split; auto. exact (Hc n w K).
    + subst t. exists []. cbn. rewrite Nat.add_0_r. auto.
Qed.

Lemma sem_endsEol (r : regex) :
  endsEol r = true -> forall s t, sem r s t -> inp t = [].
Proof.
  induction r as [| |p|c|c|c|r1 IH1 r2 IH2|r1 IH1 r2 IH2|r1 IH1|n r1 IH1|n];
    cbn [endsEol sem]; intros E s t S; try discriminate.
  - destruct S as [I ->]. exact I.
  - destruct S as (m & _ & S2). now apply (IH2 E m).
Qed.

Lemma wellAnchored_exec (r : regex) (path : str) (m : mstate) :
  wellAnchored r = true -> exec r path = Some m ->
  JsString.startsWith "/" path = true
  /\ forallb (in_class AnyChar) path = true.
Proof.
  unfold wellAnchored.
  destruct r as [| | | | | |r0 r1| | | |]; try discriminate.
  destruct r0; try discriminate.
  destruct r1 as [| | | | | |r1 r2| | | |]; try discriminate.
  destruct r1 as [| |w| | | | | | | |]; try discriminate.
  destruct w as [|a w]; try discriminate.
  destruct (Ascii.eqb a "/") eqn:A.
  2:{ destruct a as [[] [] [] [] [] [] [] []]; try discriminate. }
  apply Ascii.eqb_eq in A. subst a.
  intros W E. apply andb_true_iff in W. destruct W as [L En].
  apply exec_anchored in E.
  assert (L' : litsClean (Lit ("/"%char :: w) ;; r2) = true).
  { cbn [litsClean] in *. apply andb_true_iff in L. destruct L as [L1 L2].
    cbn [forallb]. now rewrite L1, L2. }
  destruct (sem_clean _ L' _ _ E) as (p & I & _ & F & _);
    [intros n w0; discriminate|].
  assert (T : inp m = []).
  { destruct E as (m1 & _ & S2). exact (sem_endsEol _ En _ _ S2). }
  cbn [inp] in I. rewrite T, app_nil_r in I. subst p. split; [|exact F].
  destruct E as (m1 & (I1 & _) & _). cbn [inp] in I1. rewrite I1. reflexivity.
Qed.

Lemma test_clean (r : regex) (path : str) :
  wellAnchored r = true -> test r path = true ->
  JsString.startsWith "/" path = true
  /\ forallb (in_class AnyChar) path = true.
Proof.
  intros W. unfold test. destruct (exec r path) as [m|] eqn:E; [|discriminate].
  intros _. exact (wellAnchored_exec r path m W E).
Qed.

Lemma conditionalMatch_clean (r : regex) (path : str) :
  wellAnchored r = true -> conditionalMatch r path = true ->
  JsString.startsWith "/" path = true
  /\ forallb (in_class AnyChar) path = true.
Proof.
  intros W. unfold conditionalMatch.
  destruct (exec r path) as [m|] eqn:E; [|discriminate].
  intros _. exact (wellAnchored_exec r path m W E).
Qed.

Lemma fixedName_clean (path : str) :
  existsb (JsString.eqb path) fixedTopLevelNames = true ->
  JsString.startsWith "/" path = true
  /\ forallb (in_class AnyChar) path = true.
Proof.
  intros E. apply existsb_exists in E. destruct E as (n & Hn & E).
  unfold JsString.eqb in E.
  destruct (list_eq_dec ascii_dec path n) as [->|]; [|discriminate].
  unfold fixedTopLevelNames in Hn. cbn [map In] in Hn.
  repeat (destruct Hn as [<-|Hn]; [split; reflexivity|]). contradiction.
Qed.

(** X17.  A path that [isBIDS] accepts starts with a slash and holds
    neither a line feed nor a carriage return. *)
Theorem valid_paths_are_absolute (path : str) :
  isBIDS path = true ->
  JsString.startsWith "/" path = true
  /\ forallb (in_class AnyChar) path = true.
Proof.
  unfold isBIDS, isTopLevel, isCodeOrDerivatives, isSessionLevel,
    isSubjectLevel, isAnat, isDWI, isFunc, isBehavioral, isCont, isFieldMap,
    isVersionControl.
  rewrite !orb_true_iff.
  intros H. repeat match type of H with _ \/ _ => destruct H as [H|H] end;
    first [ now apply fixedName_clean
          | refine (test_clean _ _ _ H); reflexivity
          | refine (conditionalMatch_clean _ _ _ H); reflexivity ].
Qed.

Lemma valid_paths_are_absolute_witness :
  JsString.startsWith "/" "/sub-01/anat/sub-01_T1w.nii.gz" = true
  /\ forallb (in_class AnyChar) "/sub-01/anat/sub-01_T1w.nii.gz" = true.
Proof.
  apply (valid_paths_are_absolute "/sub-01/anat/sub-01_T1w.nii.gz").
  vm_compute. reflexivity.
Defined.

Lemma lang_entity (key : str) (c : cclass) (w : str) :
  key <> [] ->
  (lang (Opt (Lit key ;; Plus c)) w
   <-> exists v, optLabel c v /\ w = entity key v []).
Proof.
  intros K. cbn [lang]. split.
  - intros [(u & x & -> & -> & N & F)| ->].
    + exists (Some x). cbn. now rewrite app_nil_r.
    + exists None. now cbn.
  - intros ([x|] & L & ->); cbn in *.
    + left. exists key, x. rewrite app_nil_r. tauto.
    + now right.
Qed.

Lemma lang_alts (rs : list regex) (w : str) :
  rs <> [] -> (lang (alts rs) w <-> exists r, In r rs /\ lang r w).
Proof.
  induction rs as [|r rs IH]; [contradiction|]. intros _.
  destruct rs as [|r' rs].
  - cbn [alts]. split; [intros L; exists r; cbn; auto|].
    intros (r0 & [<-|[]] & L). exact L.
  - change (alts (r :: r' :: rs)) with (Alt r (alts (r' :: rs))).
    cbn [lang]. rewrite IH by discriminate. split.
    + intros [L|(r0 & Hr & L)]; [exists r|exists r0]; cbn [In]; auto.
    + intros (r0 & [<-|Hr] & L); [now left|right; eauto].
Qed.

Lemma lang_joinAlt (ws : list str) (w : str) :
  ws <> [] -> (lang (joinAlt ws) w <-> In w ws).
Proof.
  intros N. unfold joinAlt. rewrite lang_alts by (destruct ws; [contradiction|discriminate]).
  split.
  - intros (r & Hr & L). apply in_map_iff in Hr. destruct Hr as (x & <- & Hx).
    cbn in L. now subst.
  - intros Hw. exists (Lit w). split; [now apply in_map|reflexivity].
Qed.

Lemma isLabel_iff (prefix w : str) :
  isLabel prefix w
  <-> exists lab, lab <> [] /\ forallb (in_class Alnum) lab = true
                  /\ w = prefix ++ lab.
Proof.
  unfold isLabel. split; intros (lab & H); exists lab; tauto.
Qed.

(** X14.  The paths [isAnat] accepts, spelled out: [/sub-<label>/],
    an optional [ses-<label>/], [anat/sub-<label>], the session token
    when there is a session directory (or else an optional extra
    underscore), optional [_acq-], [_rec-] and [_run-] entities in that
    order, an underscore, one of the twelve suffixes, any one character
    that is not a line break where the dot is, and [nii], [json] or
    [nii<c>gz]. *)
Theorem anat_paths (path : str) : isAnat path = true <-> anatPath path.
Proof.
  rewrite anat_iff. unfold sessionShaped, anatPath, anatDir.
  change (tailOf anatRe)
    with (acqOpt ;; recOpt ;; runOpt ;; Lit "_" ;; joinAlt anatSuffixes ;; dot ;;
          Group 4 (alts [Lit "nii" ;; dot ;; Lit "gz"; Lit "nii"; Lit "json"])).
  split.
  - intros (sub & d & tl & Lsub & [<-|[]] & Ltl & Shape).
    destruct Lsub as (lab & -> & Nlab & Flab).
    destruct Ltl as (a & tl1 & -> & La & r & tl2 & -> & Lr & n & tl3 & -> & Ln
                     & u & tl4 & -> & -> & sfx & tl5 & -> & Lsfx
                     & cc & ext & -> & (c & Hc & ->) & Lext).
    apply lang_entity in La, Lr, Ln; try discriminate.
    destruct La as (acq & Oacq & ->), Lr as (rec & Orec & ->),
             Ln as (run & Orun & ->).
    apply lang_joinAlt in Lsfx; [|discriminate].
    assert (Hext : ext = list_ascii_of_string "nii"
                   \/ ext = list_ascii_of_string "json"
                   \/ exists c', in_class AnyChar c' = true
                                 /\ ext = "nii" ++ [c'] ++ "gz").
    { cbn [alts lang] in Lext.
      destruct Lext as [(x1 & x2 & -> & -> & x3 & x4 & -> & (c' & Hc' & ->) & ->)
                       |[-> | ->]]; eauto. }
    destruct Shape as [(y & Hy & ->)|(ses & (sl & -> & Nsl & Fsl) & ->)].
    + exists lab, None, acq, rec, run, y, sfx, c, ext.
      repeat (split; [first [assumption|exact I]|]).
      split; [destruct Hy; auto|].
      repeat (split; [assumption|]).
      cbn [entity app]. rewrite <- !app_assoc. reflexivity.
    + exists lab, (Some sl), acq, rec, run, [], sfx, c, ext.
      repeat (split; [first [assumption|exact I|now split]|]).
      split; [now left|].
      repeat (split; [assumption|]).
      cbn [entity app]. rewrite <- !app_assoc. reflexivity.
  - intros (lab & ses & acq & rec & run & y & sfx & c & ext & Nlab & Flab & Oses
            & Oacq & Orec & Orun & Hy & Hsfx & Hc & Hext & ->).
    exists ("sub-" ++ lab), (list_ascii_of_string "anat/"),
      (entity "_acq-" acq [] ++ entity "_rec-" rec [] ++ entity "_run-" run []
       ++ "_" ++ sfx ++ [c] ++ ext).
    split; [exists lab; auto|]. split; [now left|]. split.
    + exists (entity "_acq-" acq []), (entity "_rec-" rec [] ++ entity "_run-" run []
                                       ++ "_" ++ sfx ++ [c] ++ ext).
      split; [reflexivity|]. split; [apply lang_entity; [discriminate|eauto]|].
      exists (entity "_rec-" rec []), (entity "_run-" run [] ++ "_" ++ sfx ++ [c] ++ ext).
      split; [reflexivity|]. split; [apply lang_entity; [discriminate|eauto]|].
      exists (entity "_run-" run []), ("_" ++ sfx ++ [c] ++ ext).
      split; [reflexivity|]. split; [apply lang_entity; [discriminate|eauto]|].
      exists (list_ascii_of_string "_"), (sfx ++ [c] ++ ext).
      split; [reflexivity|]. split; [reflexivity|].
      exists sfx, ([c] ++ ext). split; [reflexivity|].
      split; [apply lang_joinAlt; [discriminate|assumption]|].
      exists [c], ext. split; [reflexivity|]. split; [exists c; auto|].
      cbn [alts lang].
      destruct Hext as [-> | [-> |(c' & Hc' & ->)]]; [right; now left|now right; right|].
      left. exists (list_ascii_of_string "nii"), ([c'] ++ "gz").
      split; [reflexivity|]. split; [reflexivity|].
      exists [c'], (list_ascii_of_string "gz"). split; [reflexivity|].
      split; [exists c'; auto|reflexivity].
    + destruct ses as [sl|].
      * right. exists ("ses-" ++ sl). destruct Oses as [Nsl Fsl].
        split; [exists sl; auto|].
        destruct Hy as [-> | [_ [=]]].
        cbn [entity app]. rewrite <- !app_assoc. reflexivity.
      * left. exists y. split; [destruct Hy as [-> | [-> _]]; auto|].
        cbn [entity app]. rewrite <- !app_assoc. reflexivity.
Qed.

Lemma split_prefix (sep : ascii) (u v : str) :
  noSep sep u ->
  exists c cs, JsString.split sep v = c :: cs
               /\ JsString.split sep (u ++ v) = (u ++ c) :: cs.
Proof.
  intros Hu. destruct (JsString.split sep v) as [|c cs] eqn:S;
    [now apply split_not_nil in S|].
  exists c, cs. split; [reflexivity|].
  induction u as [|a u IH]; [exact S|].
  apply noSep_cons in Hu. destruct Hu as [Ha Hu].
  cbn [app JsString.split]. rewrite (IH Hu).
  now replace (Ascii.eqb a sep) with false
    by (symmetry; apply Ascii.eqb_neq; assumption).
Qed.

Lemma split_slash (u v : str) :
  noSep "/" u ->
  JsString.split "/" (u ++ "/" ++ v) = u :: JsString.split "/" v.
Proof. apply split_app_sep. Qed.

Lemma split_slash_path (sub rest : str) :
  isLabel "sub-" sub ->
  JsString.split "/" ("/" ++ sub ++ "/" ++ rest)
  = [] :: sub :: JsString.split "/" rest.
Proof.
  intros L. assert (N : noSep "/" sub) by (apply (label_noSlash "sub-"); auto; reflexivity).
  change ("/" ++ sub ++ "/" ++ rest) with ([] ++ "/" ++ sub ++ "/" ++ rest).
  rewrite (split_slash [] _ eq_refl). f_equal. now apply split_slash.
Qed.

Lemma label_prefix (prefix w x : str) :
  isLabel prefix w -> JsString.startsWith prefix (w ++ x) = true.
Proof. intros (lab & -> & _). rewrite <- app_assoc. apply startsWith_app. Qed.

(** The directory of a path of a category that has one. *)
Lemma shaped_dataDir (dirs : list str) (tail : regex) (path : str) :
  (forall d, In d dirs ->
             exists n, d = n ++ "/" /\ noSep "/" n
                       /\ JsString.startsWith "ses-" n = false) ->
  sessionShaped dirs tail path ->
  exists n, In (n ++ "/") dirs /\ dataDir path = Some n.
Proof.
  intros Hd (sub & d & tl & Lsub & Hin & _ & Shape).
  destruct (Hd d Hin) as (n & -> & Nn & Sn). exists n. split; [assumption|].
  unfold dataDir.
  destruct Shape as [(y & _ & ->)|(ses & Lses & ->)].
  - rewrite (split_slash_path _ _ Lsub), <- app_assoc.
    rewrite (split_slash n _ Nn).
    destruct (JsString.split "/" (sub ++ y ++ tl)) as [|b rest] eqn:S;
      [now apply split_not_nil in S|].
    now rewrite Sn.
  - rewrite (split_slash_path _ _ Lsub).
    assert (Ns : noSep "/" ses)
      by (apply (label_noSlash "ses-"); auto; reflexivity).
    rewrite (split_slash ses _ Ns), <- app_assoc.
    rewrite (split_slash n _ Nn).
    destruct (JsString.split "/" (sub ++ "_" ++ ses ++ tl)) as [|b rest] eqn:S;
      [now apply split_not_nil in S|].
    pose proof (label_prefix _ _ [] Lses) as P. rewrite app_nil_r in P.
    now rewrite P.
Qed.

(** Right under the subject or session directory of a session-level
    file comes the file name, which starts with the subject label. *)
Lemma shaped_noDir (tail : regex) (path : str) :
  sessionShaped noDir tail path ->
  forall d, dataDir path = Some d -> JsString.startsWith "sub-" d = true.
Proof.
  intros (sub & d0 & tl & Lsub & [<-|[]] & _ & Shape) d.
  assert (Nsub : noSep "/" sub)
    by (apply (label_noSlash "sub-"); auto; reflexivity).
  unfold dataDir.
  destruct Shape as [(y & _ & ->)|(ses & Lses & ->)].
  - rewrite (split_slash_path _ _ Lsub). cbn [app].
    destruct (split_prefix "/" sub (y ++ tl) Nsub) as (c & cs & _ & ->).
    destruct cs as [|b rest]; [discriminate|].
    assert (P : JsString.startsWith "sub-" (sub ++ c) = true)
      by now apply label_prefix.
    destruct (JsString.startsWith "ses-" (sub ++ c)) eqn:Q.
    + exfalso. destruct Lsub as (lab & -> & _). discriminate Q.
    + now intros [= <-].
  - rewrite (split_slash_path _ _ Lsub).
    assert (Ns : noSep "/" ses)
      by (apply (label_noSlash "ses-"); auto; reflexivity).
    rewrite (split_slash ses _ Ns). cbn [app].
    destruct (split_prefix "/" sub ("_" ++ ses ++ tl) Nsub) as (c & cs & _ & ->).
    pose proof (label_prefix _ _ [] Lses) as P. rewrite app_nil_r in P.
    rewrite P. destruct cs as [|x rest]; [discriminate|].
    intros [= <-]. now apply label_prefix.
Qed.

Lemma dir_named (name : str) :
  noSep "/" name -> JsString.startsWith "ses-" name = false ->
  forall d, In d [name ++ "/"] ->
            exists n, d = n ++ "/" /\ noSep "/" n
                      /\ JsString.startsWith "ses-" n = false.
Proof. intros N S d [<-|[]]. eauto. Qed.

Lemma dataDir_of (name : str) (tail : regex) (path : str) :
  noSep "/" name -> JsString.startsWith "ses-" name = false ->
  sessionShaped [name ++ "/"] tail path -> dataDir path = Some name.
Proof.
  intros N S Sh.
  destruct (shaped_dataDir _ _ _ (dir_named name N S) Sh) as (n & [E|[]] & ->).
  apply app_inv_tail in E. now subst.
Qed.

Lemma dataDir_facts (path : str) :
  (isAnat path = true -> dataDir path = Some (list_ascii_of_string "anat"))
  /\ (isDWI path = true -> dataDir path = Some (list_ascii_of_string "dwi"))
  /\ (isFieldMap path = true ->
      dataDir path = Some (list_ascii_of_string "fmap"))
  /\ (isFunc path = true -> dataDir path = Some (list_ascii_of_string "func"))
  /\ (isFuncBold path = true ->
      dataDir path = Some (list_ascii_of_string "func"))
  /\ (isBehavioral path = true ->
      dataDir path = Some (list_ascii_of_string "beh"))
  /\ (isCont path = true ->
      dataDir path = Some (list_ascii_of_string "func")
      \/ dataDir path = Some (list_ascii_of_string "beh"))
  /\ (isSessionLevel path = true ->
      forall d, dataDir path = Some d -> JsString.startsWith "sub-" d = true).
Proof.
  repeat split.
  - intros H. apply anat_iff in H.
    exact (dataDir_of "anat" _ _ eq_refl eq_refl H).
  - intros H. apply dwi_iff in H.
    exact (dataDir_of "dwi" _ _ eq_refl eq_refl H).
  - intros H. apply fmap_iff in H.
    exact (dataDir_of "fmap" _ _ eq_refl eq_refl H).
  - intros H. apply func_iff in H.
    exact (dataDir_of "func" _ _ eq_refl eq_refl H).
  - intros H. apply funcBold_iff in H.
    exact (dataDir_of "func" _ _ eq_refl eq_refl H).
  - intros H. apply beh_iff in H.
    exact (dataDir_of "beh" _ _ eq_refl eq_refl H).
  - intros H. apply cont_iff in H.
    assert (Hd : forall d, In d contDirs ->
                 exists n, d = n ++ "/" /\ noSep "/" n
                           /\ JsString.startsWith "ses-" n = false).
    { intros d [<-|[<-|[]]];
        [exists (list_ascii_of_string "func")
        |exists (list_ascii_of_string "beh")]; repeat split; reflexivity. }
    destruct (shaped_dataDir contDirs _ _ Hd H) as (n & Hn & ->).
    destruct Hn as [E|[E|[]]];
      [change ("func" ++ "/" = n ++ "/") in E
      |change ("beh" ++ "/" = n ++ "/") in E];
      apply app_inv_tail in E; subst; auto.
  - intros H d. unfold isSessionLevel in H. rewrite !orb_true_iff in H.
    destruct H as [[[H|H]|H]|H];
      [apply scans_iff in H|apply funcSes_iff in H|apply anatSes_iff in H
      |apply dwiSes_iff in H]; exact (shaped_noDir _ _ H d).
Qed.


Lemma matchesPat_app (p q : pattern) (x y : str) :
  matchesPat p x -> matchesPat q y -> matchesPat (p ++ q) (x ++ y).
Proof. apply Forall2_app. Qed.

Lemma matchesPat_lit (w : str) : matchesPat (map Some w) w.
Proof. induction w; constructor; auto. Qed.

Lemma matchesPat_rev (p : pattern) (x : str) :
  matchesPat p x -> matchesPat (rev p) (rev x).
Proof.
  induction 1 as [|o a p x H F IH]; [constructor|].
  cbn [rev]. apply Forall2_app; [exact IH|]. repeat constructor. exact H.
Qed.

Lemma clash_sound (p q : pattern) :
  forall x y a b,
  clash p q = true -> matchesPat p x -> matchesPat q y ->
  x ++ a = y ++ b -> False.
Proof.
  revert q. induction p as [|o p IH]; intros q x y a b C Mp Mq E;
    [discriminate|].
  destruct q as [|o' q]; [destruct o; discriminate|].
  inversion Mp as [|? c ? x' Hc Mp']; subst.
  inversion Mq as [|? c' ? y' Hc' Mq']; subst.
  injection E as -> E.
  assert (C' : clash p q = true \/ exists u v, o = Some u /\ o' = Some v /\ u <> v).
  { destruct o as [u|], o' as [v|]; cbn [clash] in C; auto.
    apply orb_true_iff in C. destruct C as [C|C]; auto.
    right. exists u, v. repeat split. apply negb_true_iff in C.
    now apply Ascii.eqb_neq. }
  destruct C' as [C'|(u & v & -> & -> & N)].
  - exact (IH q x' y' a b C' Mp' Mq' E).
  - congruence.
Qed.

Lemma finalPats_sound (r : regex) :
  forall s t, sem r s t ->
  exists w p, inp s = w ++ inp t /\ In p (snd (finalPats r))
              /\ if fst (finalPats r) then matchesPat p w
                 else exists pre x, w = pre ++ x /\ matchesPat p x.
Proof.
  assert (Unknown : forall r s t, sem r s t ->
             exists w p, inp s = w ++ inp t /\ In p [[]]
                         /\ exists pre x, w = pre ++ x /\ matchesPat p x).
  { intros r0 s t S. destruct (sem_consumes _ _ _ S) as (w & I & _).
    exists w, []. split; [exact I|]. split; [now left|].
    exists w, []. split; [now rewrite app_nil_r|constructor]. }
  induction r as [| |p|c|c|c|r1 IH1 r2 IH2|r1 IH1 r2 IH2|r1 IH1|n r1 IH1|n];
    intros s t S; try exact (Unknown _ s t S).
  - destruct S as [_ ->]. exists [], []. cbn. repeat split; auto. constructor.
  - destruct S as [_ ->]. exists [], []. cbn. repeat split; auto. constructor.
  - destruct S as (I & _). exists p, (map Some p). cbn.
    repeat split; auto. apply matchesPat_lit.
  - destruct S as (a & _ & I & _). exists [a], [None]. cbn.
    repeat split; auto. repeat constructor.
  - destruct S as (m & S1 & S2).
    destruct (IH1 _ _ S1) as (u & p1 & I1 & H1 & M1).
    destruct (IH2 _ _ S2) as (v & p2 & I2 & H2 & M2).
    exists (u ++ v). cbn [finalPats].
    destruct (finalPats r1) as [e1 ps1], (finalPats r2) as [e2 ps2].
    cbn [fst snd] in *.
    assert (I : inp s = (u ++ v) ++ inp t) by now rewrite I1, I2, app_assoc.
    destruct e2.
    + exists (p1 ++ p2). split; [exact I|]. split.
      * unfold productPats. apply in_flat_map. exists p1. split; [assumption|].
        now apply in_map.
      * cbn [fst]. destruct e1.
        -- now apply matchesPat_app.
        -- destruct M1 as (pre & x & -> & M1). exists pre, (x ++ v).
           split; [now rewrite app_assoc|now apply matchesPat_app].
    + exists p2. split; [exact I|]. split; [assumption|]. cbn [fst].
      destruct M2 as (pre & x & -> & M2). exists (u ++ pre), x.
      split; [now rewrite app_assoc|assumption].
  - cbn [finalPats].
    destruct (finalPats r1) as [e1 ps1], (finalPats r2) as [e2 ps2].
    cbn [fst snd] in *.
    destruct S as [S|S];
      [destruct (IH1 _ _ S) as (w & p & I & Hp & M)
      |destruct (IH2 _ _ S) as (w & p & I & Hp & M)];
      exists w, p; (split; [exact I|]); (split; [apply in_or_app; auto|]).
    + destruct e1; cbn [andb].
      * destruct e2; [assumption|].
        exists [], w. split; [reflexivity|assumption].
      * assumption.
    + destruct e2; [|now rewrite andb_false_r].
      destruct e1; cbn [andb]; [assumption|].
      exists [], w. split; [reflexivity|assumption].
  - destruct S as (m & S1 & ->). cbn [finalPats inp].
    exact (IH1 _ _ S1).
Qed.

Lemma rejects_sound (q : pattern) (r : regex) (s t : mstate) :
  rejects q r = true -> sem r s t -> inp t = [] -> ~ endsLike q (inp s).
Proof.
  intros R S T (pre & y & E & My).
  destruct (finalPats_sound r s t S) as (w & p & I & Hp & M).
  rewrite T, app_nil_r in I. unfold rejects in R.
  rewrite forallb_forall in R. specialize (R p Hp).
  assert (Sfx : exists pre' x, w = pre' ++ x /\ matchesPat p x).
  { destruct (fst (finalPats r)); [|exact M].
    exists [], w. split; [reflexivity|assumption]. }
  destruct Sfx as (pre' & x & -> & Mx).
  rewrite I in E. apply (f_equal (@rev ascii)) in E.
  rewrite !rev_app_distr in E.
  exact (clash_sound _ _ _ _ _ _ R (matchesPat_rev _ _ Mx)
           (matchesPat_rev _ _ My) E).
Qed.

Lemma exec_rejects (q : pattern) (r : regex) (path : str) (m : mstate) :
  rejects q r = true -> endsEol r = true ->
  exec (Bol ;; r) path = Some m -> ~ endsLike q path.
Proof.
  intros R E X. apply exec_anchored in X.
  exact (rejects_sound q r _ _ R X (sem_endsEol _ E _ _ X)).
Qed.

Lemma test_rejects (q : pattern) (r : regex) (path : str) :
  rejects q r = true -> endsEol r = true -> endsLike q path ->
  test (Bol ;; r) path = false.
Proof.
  intros R E L. unfold test.
  destruct (exec (Bol ;; r) path) as [m|] eqn:X; [|reflexivity].
  exfalso. exact (exec_rejects q r path m R E X L).
Qed.

Lemma conditionalMatch_rejects (q : pattern) (r : regex) (path : str) :
  rejects q r = true -> endsEol r = true -> endsLike q path ->
  conditionalMatch (Bol ;; r) path = false.
Proof.
  intros R E L. unfold conditionalMatch.
  destruct (exec (Bol ;; r) path) as [m|] eqn:X; [|reflexivity].
  exfalso. exact (exec_rejects q r path m R E X L).
Qed.

Lemma endsSbrefNii_like (path : str) :
  endsSbrefNii path -> endsLike sbrefNiiPat path.
Proof.
  intros (pre & c & ->). exists pre, ("_sbref" ++ [c] ++ "nii").
  split; [reflexivity|]. unfold sbrefNiiPat.
  apply matchesPat_app; [apply matchesPat_lit|].
  apply matchesPat_app; [repeat constructor|apply matchesPat_lit].
Qed.

Lemma literal_rejects (q : pattern) (w : str) :
  clash (rev (map Some w)) (rev q) = true -> ~ endsLike q w.
Proof.
  intros C (pre & y & E & My).
  apply (f_equal (@rev ascii)) in E. rewrite rev_app_distr in E.
  rewrite <- (app_nil_r (rev w)) in E.
  exact (clash_sound _ _ _ _ _ _ C (matchesPat_rev _ _ (matchesPat_lit w))
           (matchesPat_rev _ _ My) E).
Qed.

Lemma funcBold_prefix (path : str) :
  isFuncBold path = true -> JsString.startsWith "/sub-" path = true.
Proof.
  intros H. apply funcBold_iff in H.
  destruct H as (sub & d & tl & (lab & -> & _) & _ & _ & Shape).
  destruct Shape as [(y & _ & ->)|(ses & _ & ->)]; reflexivity.
Qed.

(** Apart from [_sbref<c>nii], [isFunc] knows every ending that
    [isFuncBold] knows. *)
Lemma funcBold_func (path : str) :
  isFuncBold path = true -> isFunc path = true \/ endsSbrefNii path.
Proof.
  intros H. apply funcBold_iff in H.
  destruct H as (sub & d & tl & Lsub & Hd & Ltl & Shape).
  change (tailOf funcBoldRe)
    with (Lit "_task-" ;; alnums ;; acqOpt ;; recOpt ;; runOpt ;;
          alts [Lit "_bold" ;; dot ;; Lit "nii" ;; dot ;; Lit "gz";
                Lit "_bold" ;; dot ;; Lit "nii";
                Lit "_sbref" ;; dot ;; Lit "nii" ;; dot ;; Lit "gz";
                Lit "_sbref" ;; dot ;; Lit "nii"]) in Ltl.
  destruct Ltl as (t1 & r1 & -> & L1 & t2 & r2 & -> & L2 & t3 & r3 & -> & L3
                   & t4 & r4 & -> & L4 & t5 & e & -> & L5 & Le).
  assert (Cases : (exists r, In r [Lit "_bold" ;; dot ;; Lit "nii" ;; dot ;; Lit "gz";
                                   Lit "_bold" ;; dot ;; Lit "nii";
                                   Lit "_sbref" ;; dot ;; Lit "nii" ;; dot ;; Lit "gz"]
                             /\ lang r e)
                  \/ exists c, e = "_sbref" ++ [c] ++ "nii").
  { cbn [alts lang] in Le. destruct Le as [Le|[Le|[Le|Le]]].
    - left. eexists. split; [left; reflexivity|exact Le].
    - left. eexists. split; [right; left; reflexivity|exact Le].
    - left. eexists. split; [right; right; left; reflexivity|exact Le].
    - right. destruct Le as (x1 & x2 & -> & -> & x3 & x4 & -> & (c & _ & ->) & ->).
      exists c. reflexivity. }
  destruct Cases as [(r & Hr & Lr)|(c & ->)].
  - left. apply func_iff. exists sub, d, (t1 ++ t2 ++ t3 ++ t4 ++ t5 ++ e).
    split; [assumption|]. split; [assumption|]. split; [|assumption].
    change (tailOf funcRe)
      with (Lit "_task-" ;; alnums ;; acqOpt ;; recOpt ;; runOpt ;;
            alts [Lit "_bold" ;; dot ;; Lit "nii" ;; dot ;; Lit "gz";
                  Lit "_bold" ;; dot ;; Lit "nii";
                  Lit "_bold" ;; dot ;; Lit "json";
                  Lit "_sbref" ;; dot ;; Lit "nii" ;; dot ;; Lit "gz";
                  Lit "_sbref" ;; dot ;; Lit "json";
                  Lit "_events" ;; dot ;; Lit "tsv";
                  Lit "_physio" ;; dot ;; Lit "tsv" ;; dot ;; Lit "gz";
                  Lit "_stim" ;; dot ;; Lit "tsv" ;; dot ;; Lit "gz";
                  Lit "_physio" ;; dot ;; Lit "json";
                  Lit "_stim" ;; dot ;; Lit "json"]).
    exists t1, (t2 ++ t3 ++ t4 ++ t5 ++ e). split; [reflexivity|].
    split; [assumption|].
    exists t2, (t3 ++ t4 ++ t5 ++ e). split; [reflexivity|].
    split; [assumption|].
    exists t3, (t4 ++ t5 ++ e). split; [reflexivity|]. split; [assumption|].
    exists t4, (t5 ++ e). split; [reflexivity|]. split; [assumption|].
    exists t5, e. split; [reflexivity|]. split; [assumption|].
    apply lang_alts; [discriminate|]. exists r. split; [|assumption].
    cbn [In] in *. tauto.
  - right.
    destruct Shape as [(y & _ & ->)|(ses & _ & ->)]; eexists; exists c;
      rewrite ?app_assoc; reflexivity.
Qed.

Lemma sbref_rejected (path : str) :
  isFuncBold path = true -> endsSbrefNii path -> isBIDS path = false.
Proof.
  intros B E. pose proof (endsSbrefNii_like path E) as L.
  pose proof (funcBold_prefix path B) as P.
  destruct (dataDir_facts path) as (A & D & M & _ & Fb & Bh & _ & S).
  specialize (Fb B).
  assert (Dir : forall P0 : bool, (P0 = true -> exists n, dataDir path = Some n
                                     /\ n <> list_ascii_of_string "func") ->
                                  P0 = false).
  { intros [|] H; [|reflexivity]. destruct (H eq_refl) as (n & Hn & N).
    rewrite Fb in Hn. congruence. }
  assert (Top : isTopLevel path = false).
  { unfold isTopLevel. rewrite !orb_false_iff.
    split; [split; [split; [split|]|]|].
    - destruct (existsb (JsString.eqb path) fixedTopLevelNames) eqn:X;
        [exfalso|reflexivity].
      apply existsb_exists in X. destruct X as (n & Hn & X).
      unfold JsString.eqb in X.
      destruct (list_eq_dec ascii_dec path n) as [->|]; [|discriminate].
      revert L. unfold fixedTopLevelNames in Hn. cbn [map In] in Hn.
      repeat (destruct Hn as [<-|Hn];
              [apply literal_rejects; vm_compute; reflexivity|]).
      contradiction.
    - apply (test_rejects sbrefNiiPat); [vm_compute; reflexivity|reflexivity|exact L].
    - apply (test_rejects sbrefNiiPat); [vm_compute; reflexivity|reflexivity|exact L].
    - apply (test_rejects sbrefNiiPat); [vm_compute; reflexivity|reflexivity|exact L].
    - apply (test_rejects sbrefNiiPat); [vm_compute; reflexivity|reflexivity|exact L]. }
  assert (Code : isCodeOrDerivatives path = false).
  { destruct (isCodeOrDerivatives path) eqn:X; [exfalso|reflexivity].
    apply (proj1 (unchecked_trees_shape path)) in X.
    destruct X as (rest & _ & [-> | ->]); discriminate P. }
  assert (Git : isVersionControl path = false).
  { destruct (isVersionControl path) eqn:X; [exfalso|reflexivity].
    apply (proj1 (proj2 (unchecked_trees_shape path))) in X.
    destruct X as (rest & _ & ->). discriminate P. }
  assert (Ses : isSessionLevel path = false).
  { destruct (isSessionLevel path) eqn:X; [exfalso|reflexivity].
    specialize (S eq_refl _ Fb). discriminate S. }
  assert (Subj : isSubjectLevel path = false).
  { apply (test_rejects sbrefNiiPat); [vm_compute; reflexivity|reflexivity|exact L]. }
  assert (Func : isFunc path = false).
  { apply (conditionalMatch_rejects sbrefNiiPat);
      [vm_compute; reflexivity|reflexivity|exact L]. }
  assert (Cont : isCont path = false).
  { apply (conditionalMatch_rejects sbrefNiiPat);
      [vm_compute; reflexivity|reflexivity|exact L]. }
  unfold isBIDS. rewrite Top, Code, Ses, Subj, Func, Cont, Git.
  assert (Ne : forall n : str, JsString.eqb n "func" = false ->
                 n <> list_ascii_of_string "func").
  { intros n Q ->. discriminate Q. }
  rewrite (Dir (isAnat path)), (Dir (isDWI path)), (Dir (isBehavioral path)),
    (Dir (isFieldMap path)); [reflexivity| | | |]; intros X.
  - exists (list_ascii_of_string "fmap"). split; [exact (M X)|now apply Ne].
  - exists (list_ascii_of_string "beh"). split; [exact (Bh X)|now apply Ne].
  - exists (list_ascii_of_string "dwi"). split; [exact (D X)|now apply Ne].
  - exists (list_ascii_of_string "anat"). split; [exact (A X)|now apply Ne].
Qed.

(** X20.  [isFuncBold] knows one ending that [isFunc] does not: a path
    that [isFuncBold] accepts is accepted by [isFunc], and by [isBIDS],
    exactly when it does not end in [_sbref<c>nii].  So an uncompressed
    single-band reference image, which [isFuncBold] takes for a
    functional image, is an invalid path for [isBIDS]. *)
Theorem sbref_nii_gap (path : str) :
  isFuncBold path = true ->
  (isFunc path = true <-> ~ endsSbrefNii path)
  /\ (isBIDS path = true <-> ~ endsSbrefNii path).
Proof.
  intros B.
  assert (R : endsSbrefNii path -> isBIDS path = false)
    by exact (sbref_rejected path B).
  assert (F : isFunc path = true -> isBIDS path = true).
  { intros X. unfold isBIDS. rewrite X. now rewrite !orb_true_r. }
  split; split.
  - intros X E. rewrite (F X) in R. specialize (R E). discriminate.
  - intros N. destruct (funcBold_func path B) as [X|E]; [exact X|contradiction].
  - intros X E. rewrite X in R. specialize (R E). discriminate.
  - intros N. destruct (funcBold_func path B) as [X|E]; [now apply F|contradiction].
Qed.

Lemma sbref_nii_gap_witness :
  isFuncBold "/sub-01/func/sub-01_task-rest_sbref.nii" = true
  /\ isBIDS "/sub-01/func/sub-01_task-rest_sbref.nii" = false
  /\ isBIDS "/sub-01/func/sub-01_task-rest_sbref.nii.gz" = true.
Proof.
  assert (B1 : isFuncBold "/sub-01/func/sub-01_task-rest_sbref.nii" = true)
    by (vm_compute; reflexivity).
  assert (B2 : isFuncBold "/sub-01/func/sub-01_task-rest_sbref.nii.gz" = true)
    by (vm_compute; reflexivity).
  split; [exact B1|]. split.
  - destruct (isBIDS "/sub-01/func/sub-01_task-rest_sbref.nii") eqn:X;
      [exfalso|reflexivity].
    apply (proj1 (proj2 (sbref_nii_gap _ B1)) X).
    exists (list_ascii_of_string "/sub-01/func/sub-01_task-rest"), "."%char.
    reflexivity.
  - apply (proj2 (proj2 (sbref_nii_gap _ B2))).
    intros (pre & c & E). apply (f_equal (@rev ascii)) in E.
    rewrite rev_app_distr in E. cbn in E. discriminate E.
Defined.

Lemma matchesT_app (T1 T2 : list token) :
  forall w1 w2, matchesT T1 w1 -> matchesT T2 w2 ->
                matchesT (T1 ++ T2) (w1 ++ w2).
Proof.
  induction T1 as [|t T1 IH]; intros w1 w2 M1 M2.
  - cbn in M1. subst. exact M2.
  - destruct t; cbn [app matchesT] in *.
    + destruct M1 as (w' & -> & M1). exists (w' ++ w2). split; [reflexivity|].
      now apply IH.
    + destruct M1 as (c & w' & -> & M1). exists c, (w' ++ w2).
      split; [reflexivity|]. now apply IH.
    + destruct M1 as (g & w' & -> & N & M1). exists g, (w' ++ w2).
      split; [now rewrite app_assoc|]. split; [assumption|]. now apply IH.
Qed.

Lemma matchesT_lit (w : str) : matchesT (map Ch w) w.
Proof. induction w as [|a w IH]; [reflexivity|]. exists w. split; [reflexivity|exact IH]. Qed.

Lemma matchesT_gap (g : str) : noSep "/" g -> matchesT [Gap] g.
Proof. intros N. exists g, []. now rewrite app_nil_r. Qed.

Lemma class_noSlash (c : cclass) (w : str) :
  classToken c = Some Gap -> forallb (in_class c) w = true -> noSep "/" w.
Proof.
  intros C F. unfold noSep. induction w as [|a w IH]; [reflexivity|].
  cbn [forallb] in *. apply andb_true_iff in F. destruct F as [Fa F].
  rewrite (IH F), andb_true_r. apply negb_true_iff, Ascii.eqb_neq.
  intros ->. destruct c; try discriminate; discriminate Fa.
Qed.

Lemma templates_sound (r : regex) :
  forall ts w, templates r = Some ts -> lang r w ->
  exists T, In T ts /\ matchesT T w.
Proof.
  induction r as [| |p|c|c|c|r1 IH1 r2 IH2|r1 IH1 r2 IH2|r1 IH1|n r1 IH1|n];
    cbn [templates lang]; intros ts w E L; try discriminate.
  - injection E as <-. subst w. exists (map Ch p). split; [now left|].
    apply matchesT_lit.
  - destruct L as (a & Ca & ->).
    destruct c; injection E as <-; eexists; (split; [left; reflexivity|]).
    + apply matchesT_gap. apply (class_noSlash Alnum); [reflexivity|].
      cbn [forallb]. now rewrite Ca.
    + apply matchesT_gap. apply (class_noSlash Digit); [reflexivity|].
      cbn [forallb]. now rewrite Ca.
    + exists a, []. split; reflexivity.
  - destruct L as (_ & F). destruct (classToken c) as [t|] eqn:C; [|discriminate].
    injection E as <-. assert (t = Gap) as -> by (destruct c; now inversion C).
    exists [Gap]. split; [now left|]. apply matchesT_gap.
    now apply (class_noSlash c).
  - destruct (classToken c) as [t|] eqn:C; [|discriminate].
    injection E as <-. assert (t = Gap) as -> by (destruct c; now inversion C).
    exists [Gap]. split; [now left|]. apply matchesT_gap.
    now apply (class_noSlash c).
  - destruct (templates r1) as [t1|]; [|discriminate].
    destruct (templates r2) as [t2|]; [|discriminate]. injection E as <-.
    destruct L as (u & v & -> & L1 & L2).
    destruct (IH1 _ _ eq_refl L1) as (T1 & H1 & M1).
    destruct (IH2 _ _ eq_refl L2) as (T2 & H2 & M2).
    exists (T1 ++ T2). split; [|now apply matchesT_app].
    apply in_flat_map. exists T1. split; [assumption|]. now apply in_map.
  - destruct (templates r1) as [t1|]; [|discriminate].
    destruct (templates r2) as [t2|]; [|discriminate]. injection E as <-.
    destruct L as [L|L];
      [destruct (IH1 _ _ eq_refl L) as (T & H & M)
      |destruct (IH2 _ _ eq_refl L) as (T & H & M)];
      exists T; (split; [apply in_or_app; auto|assumption]).
  - destruct (templates r1) as [t1|]; [|discriminate]. injection E as <-.
    destruct L as [L| ->].
    + destruct (IH1 _ _ eq_refl L) as (T & H & M). exists T.
      split; [now right|assumption].
    + exists []. split; [now left|reflexivity].
  - exact (IH1 _ _ E L).
Qed.

Lemma noSep_rev (c : ascii) (w : str) : noSep c (rev w) <-> noSep c w.
Proof.
  induction w as [|a w IH]; [reflexivity|]. cbn [rev].
  rewrite noSep_app, IH, !noSep_cons. unfold noSep. cbn. tauto.
Qed.

Lemma matchesT_rev (T : list token) :
  forall w, matchesT T w -> matchesT (rev T) (rev w).
Proof.
  induction T as [|t T IH]; intros w M.
  - cbn in M. now subst.
  - destruct t; cbn [matchesT rev] in *.
    + destruct M as (w' & -> & M). cbn [rev].
      apply matchesT_app; [now apply IH|]. exists []. split; reflexivity.
    + destruct M as (c & w' & -> & M). cbn [rev].
      apply matchesT_app; [now apply IH|]. exists c, []. split; reflexivity.
    + destruct M as (g & w' & -> & N & M). rewrite rev_app_distr.
      apply matchesT_app; [now apply IH|]. apply matchesT_gap.
      now apply noSep_rev.
Qed.

Lemma solid_noSep (T : list token) :
  forall w, solid T = true -> matchesT T w -> noSep "/" w.
Proof.
  induction T as [|t T IH]; intros w S M.
  - cbn in M. now subst.
  - cbn [solid forallb] in S. apply andb_true_iff in S. destruct S as [St S].
    destruct t; cbn [matchesT] in M; [| discriminate |].
    + destruct M as (w' & -> & M). apply noSep_cons. split; [|now apply IH].
      apply negb_true_iff, Ascii.eqb_neq in St. exact St.
    + destruct M as (g & w' & -> & N & M). apply noSep_app.
      split; [assumption|now apply IH].
Qed.

Lemma safeRev_sound (re : str) :
  forall rt rw a b,
  noSep "/" re -> safeRev rt re = true -> matchesT rt rw ->
  rw ++ a = re ++ b -> noSep "/" rw.
Proof.
  induction re as [|x re IH]; intros rt rw a b N S M E.
  - exact (solid_noSep rt rw S M).
  - apply noSep_cons in N. destruct N as [Nx N].
    destruct rt as [|t rt]; [cbn in M; now subst|].
    destruct t; cbn [safeRev] in S.
    + destruct M as (w' & -> & M). injection E as -> E.
      rewrite Ascii.eqb_refl in S. apply noSep_cons. split; [assumption|].
      exact (IH rt w' a b N S M E).
    + destruct M as (c & w' & -> & M). injection E as -> E.
      apply noSep_cons. split; [assumption|].
      exact (IH rt w' a b N S M E).
    + exact (solid_noSep _ rw S M).
Qed.

Lemma endingPins_sound (e : str) (tail : regex) (pre tl : str) :
  endingPins e tail = true -> noSep "/" e -> lang tail tl ->
  JsString.endsWith e (pre ++ tl) = true -> noSep "/" tl.
Proof.
  unfold endingPins. intros P N L E.
  destruct (templates tail) as [ts|] eqn:Ts; [|discriminate].
  destruct (templates_sound _ _ _ Ts L) as (T & HT & M).
  rewrite forallb_forall in P. specialize (P T HT).
  unfold JsString.endsWith in E. apply startsWith_iff in E.
  destruct E as (v & E). rewrite rev_app_distr in E.
  assert (R : noSep "/" (rev tl)).
  { apply (safeRev_sound (rev e) (rev T) (rev tl) (rev pre) v); auto.
    - now apply noSep_rev.
    - now apply matchesT_rev. }
  exact (proj1 (noSep_rev _ _) R).
Qed.

Lemma prefix_noSep (c : ascii) (y : str) :
  forall x a b, noSep c x -> noSep c y -> x ++ c :: a = y ++ b ->
                exists z, x = y ++ z.
Proof.
  induction y as [|q y IH]; intros x a b Nx Ny E; [exists x; reflexivity|].
  apply noSep_cons in Ny. destruct Ny as [Nq Ny].
  destruct x as [|p x].
  - injection E as E _. congruence.
  - apply noSep_cons in Nx. destruct Nx as [_ Nx]. injection E as -> E.
    destruct (IH x a b Nx Ny E) as (z & ->). exists z. reflexivity.
Qed.

Lemma name_includes_nii (e' front name : str) :
  noSep "/" name -> noSep "/" (".nii" ++ e') ->
  JsString.endsWith (".nii" ++ e') (front ++ "/" ++ name) = true ->
  JsString.includes ".nii" name = true.
Proof.
  intros Nn Ne E. unfold JsString.endsWith in E. apply startsWith_iff in E.
  destruct E as (v & E). rewrite rev_app_distr in E.
  change (rev ("/" ++ name)) with (rev ("/"%char :: name)) in E.
  cbn [rev] in E. rewrite <- app_assoc in E. cbn [app] in E.
  destruct (prefix_noSep "/" _ _ _ _ (proj2 (noSep_rev _ _) Nn)
              (proj2 (noSep_rev _ _) Ne) E) as (z & Hz).
  apply includes_iff. exists (rev z), e'.
  apply (f_equal (@rev ascii)) in Hz.
  rewrite rev_involutive, rev_app_distr, rev_involutive in Hz.
  rewrite Hz. reflexivity.
Qed.

(** A file of a category under [anat], [func] or [dwi] whose path ends
    in an image extension is what the quick test looks for. *)
Lemma shaped_quickTest (dname e' : str) (tail : regex) (f : File) :
  In dname (map list_ascii_of_string ["anat"; "func"; "dwi"]) ->
  endingPins (".nii" ++ e') tail = true -> noSep "/" (".nii" ++ e') ->
  sessionShaped [dname ++ "/"] tail (relativePath f) ->
  JsString.endsWith (".nii" ++ e') (relativePath f) = true ->
  quickTestFile f = true.
Proof.
  intros Hd P Ne (sub & d & tl & Lsub & [<-|[]] & Ltl & Shape) E.
  assert (Nd : noSep "/" dname)
    by (destruct Hd as [<-|[<-|[<-|[]]]]; reflexivity).
  assert (Nsub : noSep "/" sub)
    by (apply (label_noSlash "sub-"); auto; reflexivity).
  assert (Psub : JsString.startsWith "sub-" sub = true)
    by (rewrite <- (app_nil_r sub); now apply label_prefix).
  assert (NotDeriv : Some sub <> Some ("derivatives" : str)).
  { destruct Lsub as (lab & -> & _). discriminate. }
  apply quickTestFile_iff.
  destruct Shape as [(y & Hy & Hp)|(ses & Lses & Hp)]; rewrite Hp in *;
    rewrite <- ?app_assoc in E.
  - assert (Ntl : noSep "/" tl).
    { apply (endingPins_sound _ tail
               ("/" ++ sub ++ "/" ++ (dname ++ "/") ++ sub ++ y) tl P Ne Ltl).
      rewrite <- ?app_assoc. exact E. }
    assert (Nname : noSep "/" (sub ++ y ++ tl)).
    { apply noSep_app. split; [assumption|]. apply noSep_app.
      split; [destruct Hy as [-> | ->]; reflexivity|assumption]. }
    assert (Sp : JsString.split "/" ("/" ++ sub ++ "/" ++ (dname ++ "/")
                                     ++ sub ++ y ++ tl)
                 = [[]; sub; dname; sub ++ y ++ tl]).
    { rewrite (split_slash_path _ _ Lsub), <- app_assoc.
      rewrite (split_slash dname _ Nd), (split_noSep _ _ Nname). reflexivity. }
    exists [[]], sub, dname, (sub ++ y ++ tl). rewrite Sp.
    split; [reflexivity|]. split; [exact NotDeriv|]. split; [|auto].
    apply (name_includes_nii e' ("/" ++ sub ++ "/" ++ dname)); auto.
    rewrite <- ?app_assoc. exact E.
  - assert (Nses : noSep "/" ses)
      by (apply (label_noSlash "ses-"); auto; reflexivity).
    assert (Pses : JsString.startsWith "ses-" ses = true)
      by (rewrite <- (app_nil_r ses); now apply label_prefix).
    assert (Ntl : noSep "/" tl).
    { apply (endingPins_sound _ tail
               ("/" ++ sub ++ "/" ++ ses ++ "/" ++ (dname ++ "/") ++ sub
                ++ "_" ++ ses) tl P Ne Ltl).
      rewrite <- ?app_assoc. exact E. }
    assert (Nname : noSep "/" (sub ++ "_" ++ ses ++ tl)).
    { apply noSep_app. split; [assumption|].
      apply (noSep_app _ "_"). split; [reflexivity|].
      apply noSep_app. split; assumption. }
    assert (Sp : JsString.split "/" ("/" ++ sub ++ "/" ++ ses ++ "/"
                                     ++ (dname ++ "/") ++ sub ++ "_" ++ ses ++ tl)
                 = [[]; sub; ses; dname; sub ++ "_" ++ ses ++ tl]).
    { rewrite (split_slash_path _ _ Lsub), (split_slash ses _ Nses).
      rewrite <- app_assoc.
      rewrite (split_slash dname _ Nd), (split_noSep _ _ Nname). reflexivity. }
    exists [[]; sub], ses, dname, (sub ++ "_" ++ ses ++ tl). rewrite Sp.
    split; [reflexivity|]. split; [exact NotDeriv|]. split; [|auto].
    apply (name_includes_nii e' ("/" ++ sub ++ "/" ++ ses ++ "/" ++ dname)); auto.
    rewrite <- ?app_assoc. exact E.
Qed.

Lemma image_quickTestFile (P : str -> bool) (f : File) :
  In P imageCategories -> P (relativePath f) = true ->
  JsString.endsWith ".nii" (relativePath f) = true
  \/ JsString.endsWith ".nii.gz" (relativePath f) = true ->
  quickTestFile f = true.
Proof.
  intros HP Acc Ext.
  assert (G : forall (dname : str) (tail : regex),
             In dname (map list_ascii_of_string ["anat"; "func"; "dwi"]) ->
             endingPins ".nii" tail = true ->
             endingPins ".nii.gz" tail = true ->
             sessionShaped [dname ++ "/"] tail (relativePath f) ->
             quickTestFile f = true).
  { intros dname tail Hd P1 P2 Sh. destruct Ext as [E|E].
    - exact (shaped_quickTest dname [] tail f Hd P1 eq_refl Sh E).
    - exact (shaped_quickTest dname ".gz" tail f Hd P2 eq_refl Sh E). }
  destruct HP as [<-|[<-|[<-|[<-|[]]]]].
  - apply anat_iff in Acc.
    apply (G "anat" (tailOf anatRe)); [cbn; auto|vm_compute; reflexivity ..|exact Acc].
  - apply dwi_iff in Acc.
    apply (G "dwi" (tailOf dwiRe)); [cbn; auto|vm_compute; reflexivity ..|exact Acc].
  - apply func_iff in Acc.
    apply (G "func" (tailOf funcRe)); [cbn; auto|vm_compute; reflexivity ..|exact Acc].
  - apply funcBold_iff in Acc.
    apply (G "func" (tailOf funcBoldRe)); [cbn; auto|vm_compute; reflexivity ..|exact Acc].
Qed.

(** X21.  The quick test never turns away a data set that holds a valid
    image: if some file of the list has a path that [isAnat], [isDWI],
    [isFunc] or [isFuncBold] accepts and that ends in [.nii] or
    [.nii.gz], then [quickTest] answers true. *)
Theorem images_pass_quickTest (P : str -> bool) (fileList : list File)
        (f : File) :
  In P imageCategories -> In f fileList ->
  P (relativePath f) = true ->
  JsString.endsWith ".nii" (relativePath f) = true
  \/ JsString.endsWith ".nii.gz" (relativePath f) = true ->
  quickTest fileList = true.
Proof.
  intros HP Hf Acc Ext. apply quickTest_exists. exists f.
  split; [assumption|]. exact (image_quickTestFile P f HP Acc Ext).
Qed.

Lemma images_pass_quickTest_witness :
  quickTest [sampleFile "/README";
             sampleFile "/sub-01/ses-a/dwi/sub-01_ses-a_dwi.nii.gz"] = true.
Proof.
  apply (images_pass_quickTest isDWI _
           (sampleFile "/sub-01/ses-a/dwi/sub-01_ses-a_dwi.nii.gz")).
  - right; left; reflexivity.
  - right; left; reflexivity.
  - vm_compute; reflexivity.
  - right; vm_compute; reflexivity.
Defined.

Lemma sem_dropEol (r : regex) :
  endsEol r = true -> r <> Eol ->
  forall s t, sem r s t <-> sem (dropEol r) s t /\ inp t = [].
Proof.
  induction r as [| |p|c|c|c|r1 IH1 r2 IH2|r1 IH1 r2 IH2|r1 IH1|n r1 IH1|n];
    cbn [endsEol]; intros E N s t; try discriminate; try contradiction.
  destruct r2 as [| |p|c|c|c|a b|a b|a|n a|n]; try discriminate E.
  - cbn [dropEol sem]. split.
    + intros (m & S1 & I & ->). auto.
    + intros (S1 & I). exists t. auto.
  - assert (N2 : a ;; b <> Eol) by discriminate.
    change (dropEol (r1 ;; a ;; b)) with (r1 ;; dropEol (a ;; b)).
    cbn [sem]. split.
    + intros (m & S1 & S2). apply (IH2 E N2) in S2. destruct S2 as [S2 I].
      split; [eauto|assumption].
    + intros ((m & S1 & S2) & I). exists m. split; [assumption|].
      apply (IH2 E N2). auto.
Qed.

(** [test] on an anchored pattern without back-references decides
    membership in the language of the pattern. *)
Lemma anchored_test (r : regex) (path : str) :
  endsEol r = true -> r <> Eol -> optsOK r = true ->
  plain (dropEol r) = true ->
  (test (Bol ;; r) path = true <-> lang (dropEol r) path).
Proof.
  intros E N O P. rewrite (test_iff r path O). split.
  - intros (t & S). apply (sem_dropEol r E N) in S. destruct S as [S I].
    destruct (sem_lang _ P _ _ S) as (w & L & Iw). cbn [inp] in Iw.
    rewrite I, app_nil_r in Iw. now subst.
  - intros L. destruct (steps_lang _ _ L []) as (cs & S).
    specialize (S 0 []). rewrite app_nil_r in S. eexists.
    apply (sem_dropEol r E N). split; [exact S|reflexivity].
Qed.

Lemma lang_entity_close (key close : str) (c : cclass) (w : str) :
  key <> [] ->
  (lang (Opt (Lit key ;; Plus c ;; Lit close)) w
   <-> exists v, optLabel c v /\ w = entity key v close).
Proof.
  intros K. cbn [lang]. split.
  - intros [(u & x & -> & -> & y & z & -> & (N & F) & ->)| ->].
    + exists (Some y). cbn. auto.
    + exists None. now cbn.
  - intros ([x|] & L & ->); cbn in *.
    + left. exists key, (x ++ close). split; [reflexivity|].
      split; [reflexivity|]. exists x, close. tauto.
    + now right.
Qed.

Lemma fixedName_iff (path : str) :
  existsb (JsString.eqb path) fixedTopLevelNames = true
  <-> In path fixedTopLevelNames.
Proof.
  rewrite existsb_exists. split.
  - intros (n & Hn & E). unfold JsString.eqb in E.
    destruct (list_eq_dec ascii_dec path n) as [->|]; [assumption|discriminate].
  - intros Hp. exists path. split; [assumption|]. unfold JsString.eqb.
    destruct (list_eq_dec ascii_dec path path); [reflexivity|contradiction].
Qed.

Lemma funcTop_iff (path : str) :
  test funcTopRe path = true
  <-> exists (ses : option str) (task : str) (acq rec run : option str)
             (kind ext : str) (d : ascii),
        optLabel Alnum ses /\ task <> []
        /\ forallb (in_class Alnum) task = true
        /\ optLabel Alnum acq /\ optLabel Alnum rec /\ optLabel Digit run
        /\ In (kind, ext) sidecarEndings /\ in_class AnyChar d = true
        /\ path = "/" ++ entity "ses-" ses "_" ++ "task-" ++ task
                  ++ entity "_acq-" acq [] ++ entity "_rec-" rec []
                  ++ entity "_run-" run [] ++ kind ++ [d] ++ ext.
Proof.
  unfold funcTopRe. rewrite anchored_test; try reflexivity; [|discriminate].
  change (dropEol _)
    with (Lit "/" ;; Opt (Lit "ses-" ;; alnums ;; Lit "_") ;;
          Lit "task-" ;; alnums ;; acqOpt ;; recOpt ;; runOpt ;;
          Group 1 (alts [Lit "_bold" ;; dot ;; Lit "json";
                         Lit "_events" ;; dot ;; Lit "tsv";
                         Lit "_physio" ;; dot ;; Lit "json";
                         Lit "_stim" ;; dot ;; Lit "json"])).
  split.
  - intros (w0 & r0 & -> & -> & w1 & r1 & -> & L1 & w2 & r2 & -> & -> & task
            & r3 & -> & (Nt & Ft) & w4 & r4 & -> & L4 & w5 & r5 & -> & L5
            & w6 & e & -> & L6 & Le).
    apply lang_entity_close in L1; [|discriminate].
    apply lang_entity in L4, L5, L6; try discriminate.
    destruct L1 as (ses & Oses & ->), L4 as (acq & Oacq & ->),
             L5 as (rec & Orec & ->), L6 as (run & Orun & ->).
    assert (En : exists kind ext d, In (kind, ext) sidecarEndings
                                    /\ in_class AnyChar d = true
                                    /\ e = kind ++ [d] ++ ext).
    { cbn [lang alts] in Le.
      destruct Le as [Le|[Le|[Le|Le]]];
        destruct Le as (k & x & -> & -> & y & z & -> & (d & Hd & ->) & ->);
        eexists; eexists; exists d;
        (split; [|split; [exact Hd|reflexivity]]); cbn; auto. }
    destruct En as (kind & ext & d & Hk & Hd & ->).
    exists ses, task, acq, rec, run, kind, ext, d.
    repeat (split; [assumption|]). reflexivity.
  - intros (ses & task & acq & rec & run & kind & ext & d & Oses & Nt & Ft
            & Oacq & Orec & Orun & Hk & Hd & ->).
    eexists; eexists. split; [reflexivity|]. split; [reflexivity|].
    eexists; eexists. split; [reflexivity|].
    split; [apply lang_entity_close; [discriminate|eauto]|].
    eexists; eexists. split; [reflexivity|]. split; [reflexivity|].
    eexists; eexists. split; [reflexivity|]. split; [split; assumption|].
    eexists; eexists. split; [reflexivity|].
    split; [apply lang_entity; [discriminate|eauto]|].
    eexists; eexists. split; [reflexivity|].
    split; [apply lang_entity; [discriminate|eauto]|].
    eexists; eexists. split; [reflexivity|].
    split; [apply lang_entity; [discriminate|eauto]|].
    cbn [lang alts]. unfold sidecarEndings in Hk. cbn [map In fst snd] in Hk.
    destruct Hk as [Hk|[Hk|[Hk|[Hk|[]]]]]; injection Hk as <- <-;
      [left|right; left|right; right; left|right; right; right];
      (eexists; eexists; split; [reflexivity|]; split; [reflexivity|];
       exists [d]; eexists; split; [reflexivity|];
       split; [exists d; auto|reflexivity]).
Qed.

Lemma lang_opt_lit (p w : str) :
  lang (Opt (Lit p)) w <-> (w = [] \/ w = p).
Proof. cbn [lang]. tauto. Qed.

Lemma dwiTop_iff (path : str) :
  test dwiTopRe path = true
  <-> exists (ses acq rec run : option str) (u : str) (d : ascii) (ext : str),
        optLabel Alnum ses /\ optLabel Alnum acq /\ optLabel Alnum rec
        /\ optLabel Digit run
        /\ (u = [] \/ u = list_ascii_of_string "_")
        /\ in_class AnyChar d = true
        /\ In ext (map list_ascii_of_string ["json"; "bval"; "bvec"])
        /\ path = "/" ++ entity "ses-" ses [] ++ entity "_acq-" acq []
                  ++ entity "_rec-" rec [] ++ entity "_run-" run []
                  ++ u ++ "dwi" ++ [d] ++ ext.
Proof.
  unfold dwiTopRe. rewrite anchored_test; try reflexivity; [|discriminate].
  change (dropEol _)
    with (Lit "/" ;; Opt (Lit "ses-" ;; alnums) ;; acqOpt ;; recOpt ;; runOpt ;;
          Opt (Lit "_") ;; Lit "dwi" ;; dot ;;
          alts [Lit "json"; Lit "bval"; Lit "bvec"]).
  split.
  - intros (w0 & r0 & -> & -> & w1 & r1 & -> & L1 & w4 & r4 & -> & L4
            & w5 & r5 & -> & L5 & w6 & r6 & -> & L6 & u & r7 & -> & Lu
            & w8 & r8 & -> & -> & w9 & ext & -> & (d & Hd & ->) & Le).
    apply lang_entity in L1, L4, L5, L6; try discriminate.
    destruct L1 as (ses & Oses & ->), L4 as (acq & Oacq & ->),
             L5 as (rec & Orec & ->), L6 as (run & Orun & ->).
    apply lang_opt_lit in Lu.
    exists ses, acq, rec, run, u, d, ext.
    repeat (split; [assumption|]). split; [|reflexivity].
    cbn [lang alts] in Le. cbn [map In]. destruct Le as [-> | [-> | ->]]; auto.
  - intros (ses & acq & rec & run & u & d & ext & Oses & Oacq & Orec & Orun
            & Hu & Hd & He & ->).
    eexists; eexists. split; [reflexivity|]. split; [reflexivity|].
    eexists; eexists. split; [reflexivity|].
    split; [apply lang_entity; [discriminate|eauto]|].
    eexists; eexists. split; [reflexivity|].
    split; [apply lang_entity; [discriminate|eauto]|].
    eexists; eexists. split; [reflexivity|].
    split; [apply lang_entity; [discriminate|eauto]|].
    eexists; eexists. split; [reflexivity|].
    split; [apply lang_entity; [discriminate|eauto]|].
    eexists; eexists. split; [reflexivity|].
    split; [apply lang_opt_lit; tauto|].
    eexists; eexists. split; [reflexivity|]. split; [reflexivity|].
    exists [d], ext. split; [reflexivity|]. split; [exists d; auto|].
    cbn [lang alts]. cbn [map In] in He.
    destruct He as [<-|[<-|[<-|[]]]]; auto.
Qed.

Lemma anatTop_iff (path : str) :
  test anatTopRe path = true
  <-> exists (ses acq rec run : option str) (suffix : str) (d : ascii),
        optLabel Alnum ses /\ optLabel Alnum acq /\ optLabel Alnum rec
        /\ optLabel Digit run /\ In suffix anatSuffixes
        /\ in_class AnyChar d = true
        /\ path = "/" ++ entity "ses-" ses "_" ++ entity "_acq-" acq []
                  ++ entity "_rec-" rec [] ++ entity "_run-" run "_"
                  ++ suffix ++ [d] ++ "json".
Proof.
  unfold anatTopRe. rewrite anchored_test; try reflexivity; [|discriminate].
  change (dropEol _)
    with (Lit "/" ;; Opt (Lit "ses-" ;; alnums ;; Lit "_") ;;
          acqOpt ;; recOpt ;; Opt (Lit "_run-" ;; digits ;; Lit "_") ;;
          Group 1 (joinAlt anatSuffixes) ;; dot ;; Lit "json").
  split.
  - intros (w0 & r0 & -> & -> & w1 & r1 & -> & L1 & w4 & r4 & -> & L4
            & w5 & r5 & -> & L5 & w6 & r6 & -> & L6 & sfx & r7 & -> & Ls
            & w8 & r8 & -> & (d & Hd & ->) & ->).
    apply lang_entity_close in L1, L6; try discriminate.
    apply lang_entity in L4, L5; try discriminate.
    destruct L1 as (ses & Oses & ->), L4 as (acq & Oacq & ->),
             L5 as (rec & Orec & ->), L6 as (run & Orun & ->).
    change (lang (joinAlt anatSuffixes) sfx) in Ls.
    apply lang_joinAlt in Ls; [|discriminate].
    exists ses, acq, rec, run, sfx, d. repeat (split; [assumption|]).
    reflexivity.
  - intros (ses & acq & rec & run & sfx & d & Oses & Oacq & Orec & Orun
            & Hs & Hd & ->).
    eexists; eexists. split; [reflexivity|]. split; [reflexivity|].
    eexists; eexists. split; [reflexivity|].
    split; [apply lang_entity_close; [discriminate|eauto]|].
    eexists; eexists. split; [reflexivity|].
    split; [apply lang_entity; [discriminate|eauto]|].
    eexists; eexists. split; [reflexivity|].
    split; [apply lang_entity; [discriminate|eauto]|].
    eexists; eexists. split; [reflexivity|].
    split; [apply lang_entity_close; [discriminate|eauto]|].
    exists sfx. eexists. split; [reflexivity|].
    split; [change (lang (joinAlt anatSuffixes) sfx);
            apply lang_joinAlt; [discriminate|assumption]|].
    exists [d]. eexists. split; [reflexivity|]. split; [exists d; auto|].
    reflexivity.
Qed.

Lemma multiDir_iff (path : str) :
  test multiDirFieldmapRe path = true
  <-> exists (n : str) (d : ascii),
        n <> [] /\ forallb (in_class Digit) n = true
        /\ in_class AnyChar d = true
        /\ path = "/dir-" ++ n ++ "_epi" ++ [d] ++ "json".
Proof.
  unfold multiDirFieldmapRe.
  rewrite anchored_test; try reflexivity; [|discriminate].
  change (dropEol _)
    with (Lit "/" ;; (Lit "dir-" ;; digits) ;; Lit "_epi" ;; dot ;; Lit "json").
  split.
  - intros (w0 & r0 & -> & -> & w1 & r1 & -> & (x & n & -> & -> & Nn & Fn)
            & w2 & r2 & -> & -> & w3 & r3 & -> & (d & Hd & ->) & ->).
    exists n, d. repeat (split; [assumption|]).
    cbn [app]. rewrite <- !app_assoc. reflexivity.
  - intros (n & d & Nn & Fn & Hd & ->).
    exists (list_ascii_of_string "/"), ("dir-" ++ n ++ "_epi" ++ [d] ++ "json").
    split; [reflexivity|]. split; [reflexivity|].
    exists ("dir-" ++ n), ("_epi" ++ [d] ++ "json").
    split; [now rewrite <- app_assoc|].
    split; [exists (list_ascii_of_string "dir-"), n; repeat split; assumption|].
    eexists; eexists. split; [reflexivity|]. split; [reflexivity|].
    exists [d]. eexists. split; [reflexivity|]. split; [exists d; auto|].
    reflexivity.
Qed.

Lemma topLevel_iff (path : str) :
  isTopLevel path = true <-> topLevelName path.
Proof.
  unfold isTopLevel, topLevelName. rewrite !orb_true_iff.
  rewrite fixedName_iff, funcTop_iff, dwiTop_iff, anatTop_iff, multiDir_iff.
  tauto.
Qed.

(** X22.  The paths [isTopLevel] accepts, spelled out: the eight fixed
    names, and the names of the four expressions.  An [_acq-] or [_rec-]
    entity of an anatomical or diffusion side-car starts with an
    underscore even at the start of the name, and the anatomical suffix
    follows an [_acq-] or [_rec-] entity without an underscore. *)
Theorem top_level_names (path : str) :
  isTopLevel path = true <-> topLevelName path.
Proof. exact (topLevel_iff path). Qed.

Lemma split_first_prefix (sep : ascii) (w c : str) (cs : list str) :
  JsString.split sep w = c :: cs -> exists v, w = c ++ v.
Proof.
  intros S. pose proof (join_split sep w) as J. rewrite S in J.
  destruct cs as [|c' cs]; cbn [join] in J.
  - exists []. now rewrite app_nil_r.
  - exists (sep :: join sep (c' :: cs)). now rewrite <- J.
Qed.

Lemma startsWith_longer (p w v : str) :
  JsString.startsWith p w = true -> JsString.startsWith p (w ++ v) = true.
Proof.
  intros S. apply startsWith_iff in S. destruct S as (x & ->).
  rewrite <- app_assoc. apply startsWith_app.
Qed.

(** The labels the summary collects from a path of a subject-level
    category are those of its directories. *)
Lemma shaped_labels (dirs : list str) (tail : regex) (path : str) :
  (forall d x, In d dirs ->
               JsString.startsWith "ses-" (d ++ "sub-" ++ x) = false) ->
  sessionShaped dirs tail path ->
  exists lab,
    lab <> [] /\ forallb (in_class Alnum) lab = true
    /\ JsString.startsWith ("/sub-" ++ lab ++ "/") path = true
    /\ extractLabel "sub" path = Some lab
    /\ forall ses, sessionDir path = Some ses ->
                   exists l, ses = "ses-" ++ l
                             /\ extractLabel "ses" path = Some l.
Proof.
  intros NoSes (sub & d & tl & Lsub & Hd & _ & Shape).
  pose proof Lsub as (lab & Esub & Nlab & Flab).
  exists lab. split; [assumption|]. split; [assumption|].
  destruct Shape as [(y & _ & ->)|(ses & Lses & ->)].
  - assert (E : "/" ++ sub ++ "/" ++ d ++ sub ++ y ++ tl
                = "/sub-" ++ lab ++ "/" ++ (d ++ sub ++ y ++ tl)).
    { rewrite Esub. cbn [app]. now rewrite <- !app_assoc. }
    split; [|split].
    + apply startsWith_iff. exists (d ++ sub ++ y ++ tl). rewrite E.
      now rewrite <- !app_assoc.
    + rewrite E.
      exact (proj1 (extractLabel_dirs lab [] (d ++ sub ++ y ++ tl) Flab eq_refl)).
    + intros ses0 SD. exfalso. unfold sessionDir in SD.
      rewrite (split_slash_path _ _ Lsub) in SD.
      destruct (JsString.split "/" (d ++ sub ++ y ++ tl)) as [|c3 cs] eqn:S;
        [discriminate|].
      destruct cs as [|c4 cs]; [discriminate|].
      destruct (JsString.startsWith "ses-" c3) eqn:P; [|discriminate].
      destruct (split_first_prefix _ _ _ _ S) as (v & Ev).
      pose proof (startsWith_longer _ c3 v P) as Q. rewrite <- Ev in Q.
      rewrite Esub, <- !app_assoc in Q.
      now rewrite (NoSes d (lab ++ y ++ tl) Hd) in Q.
  - pose proof Lses as (l & Eses & Nl & Fl).
    assert (E : "/" ++ sub ++ "/" ++ ses ++ "/" ++ d ++ sub ++ "_" ++ ses ++ tl
                = "/sub-" ++ lab ++ "/ses-" ++ l ++ "/"
                  ++ (d ++ sub ++ "_" ++ ses ++ tl)).
    { rewrite Esub, Eses. cbn [app]. now rewrite <- !app_assoc. }
    destruct (extractLabel_dirs lab l (d ++ sub ++ "_" ++ ses ++ tl) Flab Fl)
      as (_ & X1 & X2).
    split; [|split].
    + apply startsWith_iff.
      exists ("ses-" ++ l ++ "/" ++ (d ++ sub ++ "_" ++ ses ++ tl)).
      rewrite E. now rewrite <- !app_assoc.
    + rewrite E. exact X1.
    + intros ses0 SD.
      rewrite (sessionDir_shape sub ses _ Lsub Lses) in SD.
      injection SD as <-. exists l. split; [assumption|].
      rewrite E. exact X2.
Qed.

Lemma noSes_one (d : str) :
  (forall x, JsString.startsWith "ses-" (d ++ "sub-" ++ x) = false) ->
  forall d0 x, In d0 [d] ->
               JsString.startsWith "ses-" (d0 ++ "sub-" ++ x) = false.
Proof. intros N d0 x [<-|[]]. apply N. Qed.

Lemma category_labels (P : str -> bool) (path : str) :
  In P categoryPredicates -> P path = true ->
  exists lab,
    lab <> [] /\ forallb (in_class Alnum) lab = true
    /\ JsString.startsWith ("/sub-" ++ lab ++ "/") path = true
    /\ extractLabel "sub" path = Some lab
    /\ forall ses, sessionDir path = Some ses ->
                   exists l, ses = "ses-" ++ l
                             /\ extractLabel "ses" path = Some l.
Proof.
  unfold categoryPredicates. cbn [In].
  intros [<-|[<-|[<-|[<-|[<-|[<-|[<-|[<-|[]]]]]]]]] H.
  - apply anat_iff in H.
    exact (shaped_labels _ _ _ (noSes_one "anat/" (fun x => eq_refl)) H).
  - apply dwi_iff in H.
    exact (shaped_labels _ _ _ (noSes_one "dwi/" (fun x => eq_refl)) H).
  - apply func_iff in H.
    exact (shaped_labels _ _ _ (noSes_one "func/" (fun x => eq_refl)) H).
  - apply beh_iff in H.
    exact (shaped_labels _ _ _ (noSes_one "beh/" (fun x => eq_refl)) H).
  - apply cont_iff in H.
    exact (shaped_labels _ _ _ (proj1 dirsOK_cont) H).
  - apply fmap_iff in H.
    exact (shaped_labels _ _ _ (noSes_one "fmap/" (fun x => eq_refl)) H).
  - unfold isSessionLevel in H. rewrite !orb_true_iff in H.
    destruct H as [[[H|H]|H]|H];
      [apply scans_iff in H|apply funcSes_iff in H|apply anatSes_iff in H
      |apply dwiSes_iff in H];
      exact (shaped_labels _ _ _ (noSes_one [] (fun x => eq_refl)) H).
  - apply funcBold_iff in H.
    exact (shaped_labels _ _ _ (noSes_one "func/" (fun x => eq_refl)) H).
Qed.

(** X23.  On a path that one of the subject-tree checks accepts, the label
    collection of [fullTest] finds the subject label of the directory:
    the path starts with [/sub-<label>/], the label is a non-empty
    alphanumeric word, and a session directory [ses-<l>] yields the
    session label [l]. *)
Theorem valid_paths_labels (P : str -> bool) (path : str) :
  In P categoryPredicates -> P path = true ->
  exists lab,
    lab <> [] /\ forallb (in_class Alnum) lab = true
    /\ JsString.startsWith ("/sub-" ++ lab ++ "/") path = true
    /\ extractLabel "sub" path = Some lab
    /\ forall ses, sessionDir path = Some ses ->
                   exists l, ses = "ses-" ++ l
                             /\ extractLabel "ses" path = Some l.
Proof. exact (category_labels P path). Qed.

Lemma valid_paths_labels_witness :
  extractLabel "sub" "/sub-01/ses-pre/func/sub-01_ses-pre_task-rest_bold.nii.gz"
  = Some (list_ascii_of_string "01")
  /\ extractLabel "ses" "/sub-01/ses-pre/func/sub-01_ses-pre_task-rest_bold.nii.gz"
     = Some (list_ascii_of_string "pre").
Proof.
  destruct (valid_paths_labels isFunc
              "/sub-01/ses-pre/func/sub-01_ses-pre_task-rest_bold.nii.gz")
    as (lab & _ & _ & S & E1 & E2).
  - right; right; left; reflexivity.
  - vm_compute; reflexivity.
  - assert (L : lab = list_ascii_of_string "01").
    { assert (X : extractLabel "sub"
                    "/sub-01/ses-pre/func/sub-01_ses-pre_task-rest_bold.nii.gz"
                  = Some (list_ascii_of_string "01")) by (vm_compute; reflexivity).
      rewrite X in E1. now injection E1 as <-. }
    subst lab. split; [exact E1|].
    destruct (E2 (list_ascii_of_string "ses-pre")) as (l & El & X);
      [vm_compute; reflexivity|].
    change (list_ascii_of_string "ses-pre") with ("ses-" ++ "pre") in El.
    apply app_inv_head in El. subst l. exact X.
Defined.

(** X24.  What [isCont] accepts beyond [isFunc] and [isBehavioral] are only
    names with a [_recording-] entity. *)
Theorem cont_adds_recordings (path : str) :
  isCont path = true ->
  isFunc path = true \/ isBehavioral path = true
  \/ occurs "_recording-" path.
Proof.
  intros H. apply cont_iff in H.
  destruct H as (sub & d & tl & Lsub & Hd & Ltl & Shape).
  change (tailOf contRe)
    with (Lit "_task-" ;; alnums ;; acqOpt ;; recOpt ;; runOpt ;;
          Opt (Lit "_recording-" ;; alnums) ;;
          alts [Lit "_physio" ;; dot ;; Lit "tsv" ;; dot ;; Lit "gz";
                Lit "_stim" ;; dot ;; Lit "tsv" ;; dot ;; Lit "gz";
                Lit "_physio" ;; dot ;; Lit "json";
                Lit "_stim" ;; dot ;; Lit "json"]) in Ltl.
  destruct Ltl as (t1 & r1 & -> & L1 & t2 & r2 & -> & L2 & t3 & r3 & -> & L3
                   & t4 & r4 & -> & L4 & t5 & r5 & -> & L5 & t6 & e & -> & L6
                   & Le).
  destruct L6 as [(k & v & -> & -> & _)| ->].
  - right; right.
    destruct Shape as [(y & _ & ->)|(ses & _ & ->)].
    + exists ("/" ++ sub ++ "/" ++ d ++ sub ++ y ++ t1 ++ t2 ++ t3 ++ t4 ++ t5),
        (v ++ e).
      rewrite <- !app_assoc. reflexivity.
    + exists ("/" ++ sub ++ "/" ++ ses ++ "/" ++ d ++ sub ++ "_" ++ ses
              ++ t1 ++ t2 ++ t3 ++ t4 ++ t5), (v ++ e).
      rewrite <- !app_assoc. reflexivity.
  - cbn [app] in Shape.
    assert (Pre : forall ends,
               lang (alts ends) e ->
               lang (Lit "_task-" ;; alnums ;; acqOpt ;; recOpt ;; runOpt ;;
                     alts ends) (t1 ++ t2 ++ t3 ++ t4 ++ t5 ++ e)).
    { intros ends Lends.
      exists t1, (t2 ++ t3 ++ t4 ++ t5 ++ e). split; [reflexivity|].
      split; [assumption|].
      exists t2, (t3 ++ t4 ++ t5 ++ e). split; [reflexivity|].
      split; [assumption|].
      exists t3, (t4 ++ t5 ++ e). split; [reflexivity|]. split; [assumption|].
      exists t4, (t5 ++ e). split; [reflexivity|]. split; [assumption|].
      exists t5, e. split; [reflexivity|]. split; assumption. }
    assert (Le' : exists r, In r [Lit "_physio" ;; dot ;; Lit "tsv" ;; dot ;; Lit "gz";
                                  Lit "_stim" ;; dot ;; Lit "tsv" ;; dot ;; Lit "gz";
                                  Lit "_physio" ;; dot ;; Lit "json";
                                  Lit "_stim" ;; dot ;; Lit "json"]
                          /\ lang r e)
      by (apply lang_alts in Le; [exact Le|discriminate]).
    destruct Le' as (r & Hr & Lr).
    destruct Hd as [<-|[<-|[]]].
    + left. apply func_iff. exists sub, (list_ascii_of_string "func/"),
        (t1 ++ t2 ++ t3 ++ t4 ++ t5 ++ e).
      split; [assumption|]. split; [now left|]. split; [|exact Shape].
      apply Pre. apply lang_alts; [discriminate|]. exists r.
      split; [|assumption]. cbn [In] in *. tauto.
    + right; left. apply beh_iff. exists sub, (list_ascii_of_string "beh/"),
        (t1 ++ t2 ++ t3 ++ t4 ++ t5 ++ e).
      split; [assumption|]. split; [now left|]. split; [|exact Shape].
      apply Pre. apply lang_alts; [discriminate|]. exists r.
      split; [|assumption]. cbn [In] in *. tauto.
Qed.

Lemma cont_adds_recordings_witness :
  isFunc "/sub-01/func/sub-01_task-rest_physio.tsv.gz" = true
  \/ isBehavioral "/sub-01/func/sub-01_task-rest_physio.tsv.gz" = true
  \/ occurs "_recording-" "/sub-01/func/sub-01_task-rest_physio.tsv.gz".
Proof.
  apply (cont_adds_recordings "/sub-01/func/sub-01_task-rest_physio.tsv.gz").
  vm_compute. reflexivity.
Defined.

Lemma top_prefix (path : str) :
  isTopLevel path = true ->
  inSubject path = false /\ inUnchecked path = false /\ inGit path = false.
Proof.
  intros H. apply topLevel_iff in H.
  destruct H as [H|[H|[H|[H|H]]]].
  - unfold fixedTopLevelNames in H. cbn [map In] in H.
    repeat (destruct H as [<-|H]; [repeat split; reflexivity|]).
    contradiction.
  - destruct H as (ses & task & acq & rec & run & kind & ext & d & _ & _ & _
                   & _ & _ & _ & _ & _ & ->).
    destruct ses; repeat split; reflexivity.
  - destruct H as (ses & acq & rec & run & u & d & ext & _ & _ & _ & _ & U
                   & _ & _ & ->).
    destruct ses, acq, rec, run, U as [-> | ->]; repeat split; reflexivity.
  - destruct H as (ses & acq & rec & run & suffix & d & _ & _ & _ & _ & S
                   & _ & ->).
    unfold anatSuffixes in S. cbn [map In] in S.
    destruct ses, acq, rec, run;
      repeat (destruct S as [<-|S]; [repeat split; reflexivity|]);
      contradiction.
  - destruct H as (n & d & _ & _ & _ & ->). repeat split; reflexivity.
Qed.

Lemma unchecked_prefix (path : str) :
  (isCodeOrDerivatives path = true ->
   inSubject path = false /\ inUnchecked path = true /\ inGit path = false)
  /\ (isVersionControl path = true ->
      inSubject path = false /\ inUnchecked path = false
      /\ inGit path = true).
Proof.
  destruct (unchecked_trees_shape path) as (C & G & _). split; intros H.
  - apply C in H. destruct H as (rest & _ & [-> | ->]);
      repeat split; reflexivity.
  - apply G in H. destruct H as (rest & _ & ->). repeat split; reflexivity.
Qed.

Lemma subject_prefix (P : str -> bool) (path : str) :
  In P categoryPredicates \/ P = isSubjectLevel ->
  P path = true -> inSubject path = true.
Proof.
  intros [I | ->] H.
  - destruct (category_labels P path I H) as (lab & _ & _ & S & _).
    apply startsWith_iff in S. destruct S as (v & ->). reflexivity.
  - apply subject_level_shape in H. destruct H as (sub & c & L & _ & ->).
    apply isLabel_iff in L. destruct L as (lab & _ & _ & ->). reflexivity.
Qed.

Lemma sessions_table (path : str) :
  (isSubjectLevel path = true ->
   endsLike sessionsPat path
   /\ forall d, dataDir path = Some d -> JsString.startsWith "sub-" d = true)
  /\ (isSessionLevel path = true -> ~ endsLike sessionsPat path).
Proof.
  split; intros H.
  - split.
    + apply subject_level_shape in H. destruct H as (sub & c & _ & _ & ->).
      exists ("/" ++ sub ++ "/" ++ sub), ("_sessions" ++ [c] ++ "tsv").
      split; [now rewrite <- ?app_assoc|].
      unfold sessionsPat, matchesPat. cbn. repeat constructor.
    + apply subject_level_shape in H.
      destruct H as (sub & c & L & Hc & ->).
      assert (Sh : sessionShaped noDir (Lit ("_sessions" ++ [c] ++ "tsv"))
                     ("/" ++ sub ++ "/" ++ sub ++ "_sessions" ++ [c] ++ "tsv")).
      { exists sub, [], ("_sessions" ++ [c] ++ "tsv").
        split; [exact L|]. split; [left; reflexivity|].
        split; [reflexivity|].
        left. exists []. split; [left; reflexivity|]. reflexivity. }
      exact (shaped_noDir _ _ Sh).
  - intros L. unfold isSessionLevel in H. rewrite !orb_true_iff in H.
    destruct H as [[[H|H]|H]|H];
      match type of H with
      | ?c = true =>
          assert (N : c = false)
            by (apply (conditionalMatch_rejects sessionsPat);
                [vm_compute; reflexivity|reflexivity|exact L])
      end; congruence.
Qed.

Lemma exclusive_count (path : str) (l : list (str -> bool)) :
  ForallOrdPairs (fun P Q => P path = true -> Q path = true -> False) l ->
  List.length (filter (fun P => P path) l) <= 1.
Proof.
  induction 1 as [|P l F _ IH]; cbn [filter List.length]; [lia|].
  destruct (P path) eqn:E; [|exact IH].
  assert (N : filter (fun Q => Q path) l = []).
  { clear IH. induction F as [|Q l R _ IHl]; [reflexivity|].
    cbn [filter]. destruct (Q path) eqn:EQ; [|exact IHl].
    destruct (R eq_refl eq_refl). }
  rewrite N. cbn [List.length]. lia.
Qed.

(** X16.  No path is accepted by two of the checks that [isBIDS] tries,
    [isCont] apart: top-level names, the unchecked trees, session-level
    and subject-level tables and the five data directories exclude one
    another. *)
Theorem categories_exclusive (path : str) :
  List.length (filter (fun P => P path) categories) <= 1.
Proof.
  apply exclusive_count.
  destruct (dataDir_facts path) as (A & D & M & F & _ & B & _ & S).
  destruct (sessions_table path) as (J & K).
  destruct (unchecked_prefix path) as (U & G).
  pose proof (top_prefix path) as T.
  assert (Sub : forall P, In P categoryPredicates \/ P = isSubjectLevel ->
                          P path = true -> inSubject path = true)
    by (intros P; apply subject_prefix).
  pose proof (Sub isSessionLevel (or_introl (or_intror (or_intror (or_intror (or_intror (or_intror (or_intror (or_introl eq_refl))))))))) as S1.
  pose proof (Sub isSubjectLevel (or_intror eq_refl)) as S2.
  pose proof (Sub isAnat (or_introl (or_introl eq_refl))) as S3.
  pose proof (Sub isDWI (or_introl (or_intror (or_introl eq_refl)))) as S4.
  pose proof (Sub isFunc (or_introl (or_intror (or_intror (or_introl eq_refl))))) as S5.
  pose proof (Sub isBehavioral (or_introl (or_intror (or_intror (or_intror (or_introl eq_refl)))))) as S6.
  pose proof (Sub isFieldMap (or_introl (or_intror (or_intror (or_intror (or_intror (or_intror (or_introl eq_refl)))))))) as S7.
  clear Sub. unfold categories.
  repeat match goal with
         | |- ForallOrdPairs _ _ => constructor
         | |- Forall _ _ => constructor
         end;
    intros HP HQ;
    repeat match goal with
           | X : ?a = true, Y : ?a = true -> _ |- _ => specialize (Y X)
           end;
    repeat match goal with
           | X : _ /\ _ |- _ => destruct X
           end;
    try congruence; try contradiction;
    try (match goal with
         | X : dataDir path = Some _,
           Y : forall d, dataDir path = Some d -> _ |- _ =>
             specialize (Y _ X); vm_compute in Y; discriminate Y
         end);
    match goal with
    | X : dataDir path = Some _, Y : dataDir path = Some _ |- _ =>
        rewrite X in Y; vm_compute in Y; discriminate Y
    end.
Qed.

Section InvalidPaths.

Context `{Collaborators}.




End InvalidPaths.

